(** * deps-docs: a model of [src/bin.ts] and the properties of its copy loop

    The program reads the manifest [package.json] of the current project,
    merges the names under [dependencies] and [devDependencies], and for every
    name copies [README.md] and the files matching [licen[cs]e*] from
    [node_modules/<name>] to [<outdir>/<name>].

    The development embeds the program over an explicit world: a file system
    (a finite map from absolute paths to nodes), the manifest as [readFile]
    followed by [JSON.parse] delivers it, and the sequence of operations and
    console lines the process has produced.  The functions of [node:fs/promises],
    [node:path] and the UTF-8 codec behind the ["utf-8"] argument are part of
    the runtime, not of the program; they are given here by the definitions of
    the modules [Utf8], [Path], [Glob], [JS] and [Node]. *)

From Stdlib Require Import ZArith Lia Ascii String.
From Stdlib.Strings Require Import Byte.
From stdpp Require Import base option list gmap sets strings sorting.
From Equations Require Import Equations.

(** ** Text encoding

    [readFile(p, "utf-8")] decodes the bytes of a file into a string and
    [writeFile(p, s, "utf-8")] encodes a string into bytes.  A decoded string
    is kept as its sequence of code points; the decoder replaces every
    maximal ill-formed part of the input by U+FFFD, as the runtime does. *)

Module Utf8.
Local Open Scope Z_scope.

Definition byte_val (b : byte) : Z := Z.of_N (Byte.to_N b).

Definition byte_of (z : Z) : byte := default Byte.x00 (Byte.of_N (Z.to_N z)).

Definition REPLACEMENT : Z := 0xFFFD.

Definition in_range (lo hi v : Z) : bool := (lo <=? v) && (v <=? hi).

Definition is_cont (v : Z) : bool := in_range 0x80 0xBF v.

(** Bounds of the first continuation byte after a three-byte lead. *)
Definition lo3 (v0 : Z) : Z := if v0 =? 0xE0 then 0xA0 else 0x80.
Definition hi3 (v0 : Z) : Z := if v0 =? 0xED then 0x9F else 0xBF.

(** Bounds of the first continuation byte after a four-byte lead. *)
Definition lo4 (v0 : Z) : Z := if v0 =? 0xF0 then 0x90 else 0x80.
Definition hi4 (v0 : Z) : Z := if v0 =? 0xF4 then 0x8F else 0xBF.

Definition cp2 (v0 v1 : Z) : Z := (v0 - 0xC0) * 64 + (v1 - 0x80).
Definition cp3 (v0 v1 v2 : Z) : Z :=
  (v0 - 0xE0) * 4096 + (v1 - 0x80) * 64 + (v2 - 0x80).
Definition cp4 (v0 v1 v2 v3 : Z) : Z :=
  (v0 - 0xF0) * 262144 + (v1 - 0x80) * 4096 + (v2 - 0x80) * 64 + (v3 - 0x80).

Fixpoint decode (bs : list byte) : list Z :=
  match bs with
  | [] => []
  | b0 :: r0 =>
    let v0 := byte_val b0 in
    if v0 <? 0x80 then v0 :: decode r0
    else if in_range 0xC2 0xDF v0 then
      match r0 with
      | [] => [REPLACEMENT]
      | b1 :: r1 =>
        let v1 := byte_val b1 in
        if is_cont v1 then cp2 v0 v1 :: decode r1
        else REPLACEMENT :: decode r0
      end
    else if in_range 0xE0 0xEF v0 then
      match r0 with
      | [] => [REPLACEMENT]
      | b1 :: r1 =>
        let v1 := byte_val b1 in
        if in_range (lo3 v0) (hi3 v0) v1 then
          match r1 with
          | [] => [REPLACEMENT]
          | b2 :: r2 =>
            let v2 := byte_val b2 in
            if is_cont v2 then cp3 v0 v1 v2 :: decode r2
            else REPLACEMENT :: decode r1
          end
        else REPLACEMENT :: decode r0
      end
    else if in_range 0xF0 0xF4 v0 then
      match r0 with
      | [] => [REPLACEMENT]
      | b1 :: r1 =>
        let v1 := byte_val b1 in
        if in_range (lo4 v0) (hi4 v0) v1 then
          match r1 with
          | [] => [REPLACEMENT]
          | b2 :: r2 =>
            let v2 := byte_val b2 in
            if is_cont v2 then
              match r2 with
              | [] => [REPLACEMENT]
              | b3 :: r3 =>
                let v3 := byte_val b3 in
                if is_cont v3 then cp4 v0 v1 v2 v3 :: decode r3
                else REPLACEMENT :: decode r2
              end
            else REPLACEMENT :: decode r1
          end
        else REPLACEMENT :: decode r0
      end
    else REPLACEMENT :: decode r0
  end.

(** A string holds UTF-16 code units; a surrogate that is not part of a pair
    is written as U+FFFD. *)
Definition encode_scalar (c : Z) : list byte :=
  if c <? 0x80 then [byte_of c]
  else if c <? 0x800 then
    [byte_of (0xC0 + c / 64); byte_of (0x80 + c mod 64)]
  else if c <? 0x10000 then
    [byte_of (0xE0 + c / 4096); byte_of (0x80 + (c / 64) mod 64);
     byte_of (0x80 + c mod 64)]
  else
    [byte_of (0xF0 + c / 262144); byte_of (0x80 + (c / 4096) mod 64);
     byte_of (0x80 + (c / 64) mod 64); byte_of (0x80 + c mod 64)].

Definition encode_cp (c : Z) : list byte :=
  if in_range 0xD800 0xDFFF c then encode_scalar REPLACEMENT
  else encode_scalar c.

Definition encode (s : list Z) : list byte := concat (map encode_cp s).

(** What a copy through a string does to the bytes of a file. *)
Definition recode (bs : list byte) : list byte := encode (decode bs).

(** Well-formed UTF-8, after table 3-7 of the Unicode standard. *)
Fixpoint well_formed (bs : list byte) : bool :=
  match bs with
  | [] => true
  | b0 :: r0 =>
    let v0 := byte_val b0 in
    if v0 <? 0x80 then well_formed r0
    else if in_range 0xC2 0xDF v0 then
      match r0 with
      | b1 :: r1 => is_cont (byte_val b1) && well_formed r1
      | _ => false
      end
    else if in_range 0xE0 0xEF v0 then
      match r0 with
      | b1 :: b2 :: r2 =>
        in_range (lo3 v0) (hi3 v0) (byte_val b1) && is_cont (byte_val b2)
        && well_formed r2
      | _ => false
      end
    else if in_range 0xF0 0xF4 v0 then
      match r0 with
      | b1 :: b2 :: b3 :: r3 =>
        in_range (lo4 v0) (hi4 v0) (byte_val b1) && is_cont (byte_val b2)
        && is_cont (byte_val b3) && well_formed r3
      | _ => false
      end
    else false
  end.

End Utf8.

(** ** Paths

    An absolute path is the list of its segments, from the root of the file
    system down; [node:path]'s [join] concatenates its arguments with the
    separator and normalises the result, so that empty and [.] segments
    disappear and [..] removes the segment before it (and nothing at the
    root). *)

Module Path.

Abbreviation path := (list string).

Fixpoint split_on (sep : ascii) (s : string) : list string :=
  match s with
  | EmptyString => [EmptyString]
  | String c s' =>
    if decide (c = sep) then EmptyString :: split_on sep s'
    else match split_on sep s' with
         | [] => [String c EmptyString]
         | x :: xs => String c x :: xs
         end
  end.

Definition apply_segment (p : path) (c : string) : path :=
  if decide (c = "" ∨ c = ".") then p
  else if decide (c = "..") then removelast p
  else p ++ [c].

(** [join(base, s)] for an absolute, normalised [base]. *)
Definition join (base : path) (s : string) : path :=
  foldl apply_segment base (split_on "/" s).

(** A name without separator, as the name of a directory entry is. *)
Fixpoint no_separator (s : string) : bool :=
  match s with
  | EmptyString => true
  | String c s' => negb (bool_decide (c = "/"%char)) && no_separator s'
  end.

(** The segments that [join] appends for a string without [..]. *)
Definition segments (s : string) : list string :=
  filter (λ c, ¬ (c = "" ∨ c = ".")) (split_on "/" s).

Definition plain (s : string) : Prop := ".." ∉ split_on "/" s.

(** Neither path is at or below the other. *)
Definition apart (p q : path) : Prop := ¬ p `prefix_of` q ∧ ¬ q `prefix_of` p.

End Path.

(** ** Glob patterns

    The pattern language of [glob], as far as the program's pattern uses it:
    literal characters, a bracket class and [*].  The names matched are
    directory entries; [*] stands for any run of characters other than the
    separator.  With [nocase] letters are compared up to ASCII case,
    which is what the matcher's [i] flag does for a pattern of ASCII letters. *)

Module Glob.

Inductive token :=
  | Lit (c : ascii)
  | Class (cs : list ascii)
  | Star.

Fixpoint parse_from (cls : option (list ascii)) (s : string) : list token :=
  match s with
  | EmptyString =>
    match cls with
    | None => []
    | Some cs => Lit "[" :: map Lit cs
    end
  | String c s' =>
    match cls with
    | Some cs =>
      if decide (c = "]"%char) then Class cs :: parse_from None s'
      else parse_from (Some (cs ++ [c])) s'
    | None =>
      if decide (c = "*"%char) then Star :: parse_from None s'
      else if decide (c = "["%char) then parse_from (Some []) s'
      else Lit c :: parse_from None s'
    end
  end.

Definition parse (s : string) : list token := parse_from None s.

(** The pattern of [getLicenseFiles]. *)
Definition licensePattern : list token := parse "licen[cs]e*".

Definition is_upper (c : ascii) : bool :=
  let n := Ascii.N_of_ascii c in (65 <=? n)%N && (n <=? 90)%N.

Definition to_lower (c : ascii) : ascii :=
  if is_upper c then Ascii.ascii_of_N (Ascii.N_of_ascii c + 32) else c.

Fixpoint lowercase (s : string) : string :=
  match s with
  | EmptyString => EmptyString
  | String c s' => String (to_lower c) (lowercase s')
  end.

(** A name as the matcher compares it. *)
Definition fold_case (nocase : bool) (s : string) : string :=
  if nocase then lowercase s else s.

Definition same_char (nocase : bool) (a b : ascii) : bool :=
  if nocase then bool_decide (to_lower a = to_lower b)
  else bool_decide (a = b).

Fixpoint matches (nocase : bool) (pat : list token) : string → bool :=
  match pat with
  | [] => λ s, bool_decide (s = EmptyString)
  | Lit c :: pat' => λ s,
    match s with
    | String a s' => same_char nocase c a && matches nocase pat' s'
    | EmptyString => false
    end
  | Class cs :: pat' => λ s,
    match s with
    | String a s' => existsb (same_char nocase a) cs && matches nocase pat' s'
    | EmptyString => false
    end
  | Star :: pat' =>
    fix star (s : string) : bool :=
      matches nocase pat' s ||
      match s with
      | String a s' => negb (bool_decide (a = "/"%char)) && star s'
      | EmptyString => false
      end
  end.

(** A letter of the pattern against a character of a name. *)
Definition head_is (nocase : bool) (p a : ascii) : Prop :=
  p = (if nocase then to_lower a else a).

End Glob.

(** ** Objects

    A JavaScript object with string values, as the list of its properties in
    the order of their creation.  The own keys of an object are enumerated
    with the array indices first, in ascending order, and the other keys in
    the order of creation. *)

Module JS.

Abbreviation object := (list (string * string)).

Definition digit_val (c : ascii) : option N :=
  let n := Ascii.N_of_ascii c in
  if (48 <=? n)%N && (n <=? 57)%N then Some (n - 48)%N else None.

Fixpoint digits_val (acc : N) (s : string) : option N :=
  match s with
  | EmptyString => Some acc
  | String c s' => d ← digit_val c; digits_val (10 * acc + d)%N s'
  end.

(** The canonical numeric strings of the integers from 0 to 2^32 - 2. *)
Definition array_index (s : string) : option N :=
  match s with
  | EmptyString => None
  | String c s' =>
    if decide (c = "0"%char) then
      if decide (s' = EmptyString) then Some 0%N else None
    else
      n ← digits_val 0 s;
      if (n <? 2 ^ 32 - 1)%N then Some n else None
  end.

Definition indexed (kv : string * string) : option (N * (string * string)) :=
  (λ n, (n, kv)) <$> array_index kv.1.

Definition index_le (a b : N * (string * string)) : Prop := (a.1 ≤ b.1)%N.

#[global] Instance index_le_dec : RelDecision index_le :=
  λ a b, decide (a.1 ≤ b.1)%N.

Definition own_properties (o : object) : object :=
  (merge_sort index_le (omap indexed o)).*2
  ++ filter (λ kv, array_index kv.1 = None) o.

(** [Object.keys(o)] *)
Definition keys (o : object) : list string := (own_properties o).*1.

(** Assignment to a property: an existing property keeps its place. *)
Fixpoint set_property (o : object) (k v : string) : object :=
  match o with
  | [] => [(k, v)]
  | (k', v') :: o' =>
    if decide (k' = k) then (k, v) :: o'
    else (k', v') :: set_property o' k v
  end.

(** One [...source] of an object literal; an absent source adds nothing. *)
Definition spread (target : object) (source : option object) : object :=
  match source with
  | None => target
  | Some src =>
    foldl (λ o kv, set_property o kv.1 kv.2) target (own_properties src)
  end.

(** The names that a source contributes to an object literal. *)
Definition names_of (source : option object) : list string :=
  (default [] source).*1.

End JS.

(** ** The runtime: file system, console and the process

    The state of a run is the file system and the trace of what the process
    has done so far: each call of a file-system function with its outcome, and
    each line written to the console.  What does not change during a run is
    kept apart: the working directory, the platform, the calls that the
    operating system refuses (whatever the shape of the file system), and the
    manifest as [readFile] followed by [JSON.parse] delivers it. *)

Module Node.
Import Path.

Inductive node :=
  | File (content : list byte)
  | Dir.

Inductive errno := ENOENT | EEXIST | EISDIR | ENOTDIR | EACCES.

Inductive error :=
  | SystemError (code : errno)
  | SyntaxError.

Inductive op := Access | Mkdir | ReadFile | WriteFile | GlobDir.

Inductive message :=
  | CopiedReadme (packageName : string)
  | FailedReadme (packageName : string) (e : error)
  | CopiedLicense (licenseFile packageName : string)
  | FailedLicense (licenseFile packageName : string) (e : error)
  | NoFilesFound (packageName : string)
  | NoDependencies
  | Summary (copiedCount skippedCount : nat) (outDirPath : path)
  | ErrorExtracting (e : error).

Inductive event :=
  | Call (o : op) (p : path) (outcome : option error)
  | ConsoleLog (m : message)
  | ConsoleError (m : message).

(** The events of the steps that handle one file or one package: every call
    but [mkdir], and the console lines about a file or a package. *)
Definition file_event (e : event) : bool :=
  match e with
  | Call Mkdir _ _ => false
  | Call _ _ _ => true
  | ConsoleLog (CopiedReadme _ | CopiedLicense _ _ | NoFilesFound _) => true
  | ConsoleError (FailedReadme _ _ | FailedLicense _ _ _) => true
  | _ => false
  end.

(** [interface PackageJson] *)
Record PackageJson := {
  dependencies : option JS.object;
  devDependencies : option JS.object;
}.

Inductive manifest_file :=
  | Unreadable (code : errno)
  | Malformed
  | Parsed (packageJson : PackageJson).

Inductive platform := Linux | Darwin | Win32.

(** The matcher of [glob] ignores case on macOS and on Windows only. *)
Definition glob_nocase (pl : platform) : bool :=
  match pl with
  | Linux => false
  | Darwin | Win32 => true
  end.

#[global] Instance byte_eq_dec : EqDecision byte := Byte.byte_eq_dec.
#[global] Instance errno_eq_dec : EqDecision errno.
Proof. solve_decision. Defined.
#[global] Instance error_eq_dec : EqDecision error.
Proof. solve_decision. Defined.
#[global] Instance op_eq_dec : EqDecision op.
Proof. solve_decision. Defined.
#[global] Instance node_eq_dec : EqDecision node.
Proof. solve_decision. Defined.

Record env := Env {
  projectRoot : path;
  os : platform;
  refused : op → path → bool;
  manifest : manifest_file;
}.

Record state := State {
  fs : gmap path node;
  trace : list event;
}.

Inductive result (A : Type) :=
  | Ok (a : A)
  | Throw (e : error).
Arguments Ok {A} a.
Arguments Throw {A} e.

Definition outcome {A} (r : result A) : option error :=
  match r with
  | Ok _ => None
  | Throw e => Some e
  end.

(** Computations that read and change the state and may throw; the state
    reached when an exception is thrown is kept. *)
Definition M (A : Type) : Type := state → result A * state.

#[global] Instance M_ret : MRet M := λ A a s, (Ok a, s).

#[global] Instance M_bind : MBind M := λ A B k m s,
  match m s with
  | (Ok a, s') => k a s'
  | (Throw e, s') => (Throw e, s')
  end.

(** [try { body } catch (error) { handler }] *)
Definition try_catch {A} (body : M A) (handler : error → M A) : M A := λ s,
  match body s with
  | (Ok a, s') => (Ok a, s')
  | (Throw e, s') => handler e s'
  end.

Definition throw {A} (e : error) : M A := λ s, (Throw e, s).

Definition emit (e : event) : M unit := λ s,
  (Ok (), {| fs := fs s; trace := trace s ++ [e] |}).

Definition console_log (m : message) : M unit := emit (ConsoleLog m).
Definition console_error (m : message) : M unit := emit (ConsoleError m).

Definition when (b : bool) (m : M unit) : M unit := if b then m else mret ().

(** *** The file system *)

(** The root is a directory and has no entry of its own. *)
Definition lookup_node (m : gmap path node) (p : path) : option node :=
  match p with
  | [] => Some Dir
  | _ => m !! p
  end.

Definition sys_access (p : path) (m : gmap path node)
  : result unit * gmap path node :=
  match lookup_node m p with
  | Some _ => (Ok (), m)
  | None => (Throw (SystemError ENOENT), m)
  end.

(** [mkdir(p, { recursive: true })]: the missing directories along [p] are
    made from the root down; a file on the way stops it. *)
Fixpoint mkdir_from (cur : path) (segs : list string) (m : gmap path node)
  : result unit * gmap path node :=
  match segs with
  | [] => (Ok (), m)
  | c :: rest =>
    let cur' := cur ++ [c] in
    match m !! cur' with
    | None => mkdir_from cur' rest (<[cur' := Dir]> m)
    | Some Dir => mkdir_from cur' rest m
    | Some (File _) =>
      (Throw (SystemError (if rest is [] then EEXIST else ENOTDIR)), m)
    end
  end.

Definition sys_mkdir (p : path) (m : gmap path node)
  : result unit * gmap path node :=
  mkdir_from [] p m.

Definition sys_readFile (p : path) (m : gmap path node)
  : result (list Z) * gmap path node :=
  match lookup_node m p with
  | Some (File bs) => (Ok (Utf8.decode bs), m)
  | Some Dir => (Throw (SystemError EISDIR), m)
  | None => (Throw (SystemError ENOENT), m)
  end.

Definition sys_writeFile (p : path) (text : list Z) (m : gmap path node)
  : result unit * gmap path node :=
  match p with
  | [] => (Throw (SystemError EISDIR), m)
  | _ =>
    match lookup_node m (removelast p) with
    | Some Dir =>
      match m !! p with
      | Some Dir => (Throw (SystemError EISDIR), m)
      | _ => (Ok (), <[p := File (Utf8.encode text)]> m)
      end
    | Some (File _) => (Throw (SystemError ENOTDIR), m)
    | None => (Throw (SystemError ENOENT), m)
    end
  end.

(** The names of the entries of directory [d]. *)
Definition entry_of (d p : path) : option string :=
  if decide (p ≠ [] ∧ removelast p = d) then last p else None.

Definition entries (m : gmap path node) (d : path) : list string :=
  omap (entry_of d) (map_to_list m).*1.

(** [glob(pattern, { cwd: d })] for a pattern of one segment, with all its
    results.  Whether the iterator throws or yields nothing when [d] cannot be
    listed is left to the runtime; here it throws. *)
Definition sys_glob (nocase : bool) (pattern : string) (d : path)
    (m : gmap path node) : result (list string) * gmap path node :=
  match lookup_node m d with
  | Some Dir =>
    (Ok (filter (λ f, Glob.matches nocase (Glob.parse pattern) f = true)
           (entries m d)), m)
  | Some (File _) => (Throw (SystemError ENOTDIR), m)
  | None => (Throw (SystemError ENOENT), m)
  end.

Section Program.
Context (E : env).

(** A call of a file-system function: refused by the operating system, or
    carried out on the file system; recorded in the trace with its outcome. *)
Definition syscall {A} (o : op) (p : path)
    (f : gmap path node → result A * gmap path node) : M A := λ s,
  let '(r, m) :=
    if refused E o p then (Throw (SystemError EACCES), fs s) else f (fs s) in
  (r, {| fs := m; trace := trace s ++ [Call o p (outcome r)] |}).

Definition access (p : path) : M unit := syscall Access p (sys_access p).
Definition mkdir (p : path) : M unit := syscall Mkdir p (sys_mkdir p).
Definition readFile (p : path) : M (list Z) :=
  syscall ReadFile p (sys_readFile p).
Definition writeFile (p : path) (text : list Z) : M unit :=
  syscall WriteFile p (sys_writeFile p text).
Definition glob (pattern : string) (d : path) : M (list string) :=
  syscall GlobDir d (sys_glob (glob_nocase (os E)) pattern d).

(** When reading [src] and writing what was read to [dst] both succeed:
    [src] is a file that may be read, [dst] may be written, is in an existing
    directory and is not itself a directory. *)
Definition can_copy (m : gmap path node) (src dst : path) (bs : list byte)
  : Prop :=
  refused E ReadFile src = false ∧ lookup_node m src = Some (File bs) ∧
  refused E WriteFile dst = false ∧ dst ≠ [] ∧
  lookup_node m (removelast dst) = Some Dir ∧ m !! dst ≠ Some Dir.

(** [JSON.parse(await readFile(packageJsonPath, "utf-8"))] *)
Definition readPackageJson (packageJsonPath : path) : M PackageJson :=
  match manifest E with
  | Unreadable code =>
    syscall ReadFile packageJsonPath (λ m, (Throw (SystemError code), m))
  | Malformed =>
    _ ← syscall ReadFile packageJsonPath (λ m, (Ok (), m));
    throw SyntaxError
  | Parsed packageJson =>
    _ ← syscall ReadFile packageJsonPath (λ m, (Ok (), m));
    mret packageJson
  end.

(** *** The program *)

Record CliOptions := {
  outdir : string;
  verbose : bool;
}.

Definition fileExists (filePath : path) : M bool :=
  try_catch (_ ← access filePath; mret true) (λ _, mret false).

Definition getLicenseFiles (packageDir : path) : M (list string) :=
  try_catch (glob "licen[cs]e*" packageDir) (λ _, mret []).

(** The body of [for (const licenseFile of licenseFiles)] in
    [processDependency], with the counter it updates. *)
Definition copyLicense (packageName : string) (packageDir outputDir : path)
    (verbose : bool) (licenseFile : string) (filesCopiedCount : nat) : M nat :=
  let licensePath := join packageDir licenseFile in
  let licenseOutputPath := join outputDir licenseFile in
  try_catch
    (licenseContent ← readFile licensePath;
     _ ← writeFile licenseOutputPath licenseContent;
     _ ← when verbose (console_log (CopiedLicense licenseFile packageName));
     mret (S filesCopiedCount))
    (λ error,
     _ ← console_error (FailedLicense licenseFile packageName error);
     mret filesCopiedCount).

Fixpoint copyLicenses (packageName : string) (packageDir outputDir : path)
    (verbose : bool) (licenseFiles : list string) (filesCopiedCount : nat)
  : M nat :=
  match licenseFiles with
  | [] => mret filesCopiedCount
  | licenseFile :: rest =>
    n ← copyLicense packageName packageDir outputDir verbose licenseFile
          filesCopiedCount;
    copyLicenses packageName packageDir outputDir verbose rest n
  end.

(** The README step of [processDependency]. *)
Definition copyReadme (packageName : string) (packageDir outputDir : path)
    (verbose : bool) (filesCopiedCount : nat) : M nat :=
  let readmePath := join packageDir "README.md" in
  let readmeOutputPath := join outputDir "README.md" in
  found ← fileExists readmePath;
  if found : bool then
    try_catch
      (readmeContent ← readFile readmePath;
       _ ← writeFile readmeOutputPath readmeContent;
       _ ← when verbose (console_log (CopiedReadme packageName));
       mret (S filesCopiedCount))
      (λ error,
       _ ← console_error (FailedReadme packageName error);
       mret filesCopiedCount)
  else mret filesCopiedCount.

Definition processDependency (packageName : string) (outDirPath : path)
    (verbose : bool) : M nat :=
  let packageDir := join (join (projectRoot E) "node_modules") packageName in
  let outputDir := join outDirPath packageName in
  _ ← mkdir outputDir;
  let filesCopiedCount := 0 in
  filesCopiedCount ←
    copyReadme packageName packageDir outputDir verbose filesCopiedCount;
  licenseFiles ← getLicenseFiles packageDir;
  filesCopiedCount ←
    copyLicenses packageName packageDir outputDir verbose licenseFiles
      filesCopiedCount;
  _ ← when (bool_decide (filesCopiedCount = 0) && verbose)
        (console_log (NoFilesFound packageName));
  mret filesCopiedCount.

Definition allDependencies (packageJson : PackageJson) : JS.object :=
  JS.spread (JS.spread [] (dependencies packageJson))
    (devDependencies packageJson).

(** The names that the loop of [extractNpmReadmes] goes through. *)
Definition packageNames (packageJson : PackageJson) : list string :=
  JS.keys (allDependencies packageJson).

(** The manifest as the program gets it, when reading and parsing it
    succeed. *)
Definition manifest_ok : option PackageJson :=
  if refused E ReadFile (join (projectRoot E) "package.json") then None
  else match manifest E with
       | Parsed packageJson => Some packageJson
       | _ => None
       end.

(** [for (const packageName of Object.keys(allDependencies))] with its two
    counters. *)
Fixpoint processAll (packageNames : list string) (outDirPath : path)
    (verbose : bool) (copiedCount skippedCount : nat) : M (nat * nat) :=
  match packageNames with
  | [] => mret (copiedCount, skippedCount)
  | packageName :: rest =>
    filesCopiedCount ← processDependency packageName outDirPath verbose;
    if bool_decide (0 < filesCopiedCount)
    then processAll rest outDirPath verbose (S copiedCount) skippedCount
    else processAll rest outDirPath verbose copiedCount (S skippedCount)
  end.

Definition extractNpmReadmes (options : CliOptions) : M unit :=
  let packageJsonPath := join (projectRoot E) "package.json" in
  packageJson ← readPackageJson packageJsonPath;
  let allDependencies := allDependencies packageJson in
  if bool_decide (length (JS.keys allDependencies) = 0) then
    when (verbose options) (console_log NoDependencies)
  else
    let outDirPath := join (projectRoot E) (outdir options) in
    _ ← mkdir outDirPath;
    counts ← processAll (JS.keys allDependencies) outDirPath
               (verbose options) 0 0;
    console_log (Summary counts.1 counts.2 outDirPath).

(** The last statement of the module: the exit code of the process with the
    state it leaves. *)
Definition main (options : CliOptions) (s : state) : Z * state :=
  match extractNpmReadmes options s with
  | (Ok _, s') => (0%Z, s')
  | (Throw e, s') =>
    (1%Z, {| fs := fs s'; trace := trace s' ++ [ConsoleError (ErrorExtracting e)] |})
  end.

End Program.

End Node.

(** ** The effect of the program on the file system

    What each step of the program does to the file system, what it counts and
    which directories it makes depend on the file system only.  The functions
    of this module give these, step by step; that the program computes them
    is proved below. *)

Module Effects.
Import Path Node.

Definition same_kind (x y : node) : Prop :=
  match x, y with
  | Dir, Dir => True
  | File _, File _ => True
  | _, _ => False
  end.

Definition grows (m m' : gmap path node) : Prop :=
  ∀ q x, m !! q = Some x → ∃ y, m' !! q = Some y ∧ same_kind x y.

(** The paths that [mkdir_from cur segs] may create. *)
Definition on_way (cur : path) (segs : list string) (q : path) : Prop :=
  ∃ a b, segs = a ++ b ∧ a ≠ [] ∧ q = cur ++ a.

Definition mkdir_calls (t : list event)
 : list (path * option error) :=
  omap (λ e, match e with
             | Call Mkdir p oc => Some (p, oc)
             | _ => None
             end) t.

Definition loop_event (e : event) : Prop :=
  file_event e = true ∨ ∃ p oc, e = Call Mkdir p oc.

Section Pure.
Context (E : env).
Implicit Types (p q src dst d : path) (s : state) (m : gmap path node).

Definition exists_at (m : gmap path node) (p : path) : bool :=
  negb (refused E Access p) && bool_decide (is_Some (lookup_node m p)).

Definition copy_block (src dst : path) (verbose : bool) (copied : message)
    (failed : error → message) (count : nat) : M nat :=
  try_catch
    (content ← readFile E src;
     _ ← writeFile E dst content;
     _ ← when verbose (console_log copied);
     mret (S count))
    (λ error, _ ← console_error (failed error); mret count).

Definition copy_source m src dst : option (list byte) :=
  if refused E ReadFile src then None
  else match lookup_node m src with
       | Some (File bs) =>
         if refused E WriteFile dst then None
         else if decide (dst ≠ [] ∧ lookup_node m (removelast dst) = Some Dir
                         ∧ m !! dst ≠ Some Dir)
              then Some bs else None
       | _ => None
       end.

Definition fs_copy m src dst : gmap path node :=
  match copy_source m src dst with
  | Some bs => <[dst := File (Utf8.recode bs)]> m
  | None => m
  end.

Definition n_copy m src dst : nat :=
  match copy_source m src dst with
  | Some _ => 1
  | None => 0
  end.

Definition fs_readme m (packageDir outputDir : path) : gmap path node :=
  if exists_at m (join packageDir "README.md")
  then fs_copy m (join packageDir "README.md") (join outputDir "README.md")
  else m.

Definition n_readme m (packageDir outputDir : path) : nat :=
  if exists_at m (join packageDir "README.md")
  then n_copy m (join packageDir "README.md") (join outputDir "README.md")
  else 0.

(** The match set of [getLicenseFiles]. *)
Definition license_files m (packageDir : path) : list string :=
  if refused E GlobDir packageDir then []
  else match sys_glob (glob_nocase (os E)) "licen[cs]e*" packageDir m with
       | (Ok files, _) => files
       | (Throw _, _) => []
       end.

Definition license_names (files : list string) : Prop :=
  ∀ g, g ∈ files → Glob.matches (glob_nocase (os E)) Glob.licensePattern g = true.

Fixpoint fs_licenses m (packageDir outputDir : path) (files : list string)
  : gmap path node :=
  match files with
  | [] => m
  | f :: rest =>
    fs_licenses (fs_copy m (join packageDir f) (join outputDir f))
      packageDir outputDir rest
  end.

Fixpoint n_licenses m (packageDir outputDir : path) (files : list string)
  : nat :=
  match files with
  | [] => 0
  | f :: rest =>
    n_copy m (join packageDir f) (join outputDir f)
    + n_licenses (fs_copy m (join packageDir f) (join outputDir f))
        packageDir outputDir rest
  end.

Definition package_dir (packageName : string) : path :=
  join (join (projectRoot E) "node_modules") packageName.

Definition fs_mkdir m p : result unit * gmap path node :=
  if refused E Mkdir p then (Throw (SystemError EACCES), m) else sys_mkdir p m.

Definition fs_files m (packageDir outputDir : path) : gmap path node :=
  let m1 := fs_readme m packageDir outputDir in
  fs_licenses m1 packageDir outputDir (license_files m1 packageDir).

Definition n_files m (packageDir outputDir : path) : nat :=
  let m1 := fs_readme m packageDir outputDir in
  n_readme m packageDir outputDir
  + n_licenses m1 packageDir outputDir (license_files m1 packageDir).

Definition fs_package m (packageName : string) (outDirPath : path)
  : result nat * gmap path node :=
  let packageDir := package_dir packageName in
  let outputDir := join outDirPath packageName in
  match fs_mkdir m outputDir with
  | (Ok _, m1) => (Ok (n_files m1 packageDir outputDir),
                   fs_files m1 packageDir outputDir)
  | (Throw e, m1) => (Throw e, m1)
  end.

Fixpoint fs_all m (packageNames : list string) (outDirPath : path)
    (copiedCount skippedCount : nat) : result (nat * nat) * gmap path node :=
  match packageNames with
  | [] => (Ok (copiedCount, skippedCount), m)
  | packageName :: rest =>
    match fs_package m packageName outDirPath with
    | (Ok n, m1) =>
      if bool_decide (0 < n)
      then fs_all m1 rest outDirPath (S copiedCount) skippedCount
      else fs_all m1 rest outDirPath copiedCount (S skippedCount)
    | (Throw e, m1) => (Throw e, m1)
    end
  end.

(** The calls of [mkdir] that the loop makes, with their outcomes. *)
Fixpoint mkdirs_all m (packageNames : list string) (outDirPath : path)
  : list (path * option error) :=
  match packageNames with
  | [] => []
  | packageName :: rest =>
    (join outDirPath packageName,
     outcome (fs_package m packageName outDirPath).1)
    :: match fs_package m packageName outDirPath with
       | (Ok _, m1) => mkdirs_all m1 rest outDirPath
       | (Throw _, _) => []
       end
  end.

(** *** A package whose files are in place *)

Definition readme_settled m (packageDir outputDir : path) : Prop :=
  exists_at m (packageDir ++ ["README.md"]) = true →
  ∀ bs, copy_source m (packageDir ++ ["README.md"])
          (outputDir ++ ["README.md"]) = Some bs →
        m !! (outputDir ++ ["README.md"]) = Some (File (Utf8.recode bs)).

Definition licenses_settled m (packageDir outputDir : path) : Prop :=
  ∀ f bs, f ∈ license_files m packageDir →
          copy_source m (packageDir ++ [f]) (outputDir ++ [f]) = Some bs →
          m !! (outputDir ++ [f]) = Some (File (Utf8.recode bs)).

(** Processing the package again makes its directory and changes nothing. *)
Definition settled m (packageDir outputDir : path) : Prop :=
  fs_mkdir m outputDir = (Ok (), m) ∧ fs_files m packageDir outputDir = m.

(** The exit code of a run and the file system it leaves. *)
Definition fs_main (options : CliOptions) m : Z * gmap path node :=
  match manifest_ok E with
  | None => (1%Z, m)
  | Some packageJson =>
    let names := packageNames packageJson in
    if bool_decide (length names = 0) then (0%Z, m)
    else
      let outDirPath := join (projectRoot E) (outdir options) in
      match fs_mkdir m outDirPath with
      | (Throw _, m1) => (1%Z, m1)
      | (Ok _, m1) =>
        match fs_all m1 names outDirPath 0 0 with
        | (Ok _, m2) => (0%Z, m2)
        | (Throw _, m2) => (1%Z, m2)
        end
      end
  end.

End Pure.

End Effects.

(** ** Example worlds

    Small projects under [/proj], used below to run the program on. *)

Module Examples.
Import Path Node.

Definition tree (entries : list (path * node)) : gmap path node :=
  list_to_map entries.

Definition start (entries : list (path * node)) : state :=
  {| fs := tree entries; trace := [] |}.

(** A process in [/proj] for which the operating system refuses nothing. *)
Definition project (pl : platform) (mf : manifest_file) : env :=
  {| projectRoot := ["proj"]; os := pl; refused := λ _ _, false;
     manifest := mf |}.

Definition defaults : CliOptions :=
  {| outdir := "./docs-deps"; verbose := false |}.

Definition verbosely : CliOptions :=
  {| outdir := "./docs-deps"; verbose := true |}.

(** [{}] *)
Definition empty_manifest : PackageJson :=
  {| dependencies := None; devDependencies := None |}.

(** [{"dependencies": {"left-pad": "^1.0.0", "foo": "1.0.0"},
      "devDependencies": {"foo": "1.0.0"}}] *)
Definition two_packages : PackageJson :=
  {| dependencies := Some [("left-pad", "^1.0.0"); ("foo", "1.0.0")];
     devDependencies := Some [("foo", "1.0.0")] |}.

(** [{"devDependencies": {"foo": "1.0.0"}}] *)
Definition only_foo : PackageJson :=
  {| dependencies := None; devDependencies := Some [("foo", "1.0.0")] |}.

(** [left-pad] is installed with a README and two license files; [foo] is
    not installed. *)
Definition installed : list (path * node) :=
  [ (["proj"], Dir);
    (["proj"; "node_modules"], Dir);
    (["proj"; "node_modules"; "left-pad"], Dir);
    (["proj"; "node_modules"; "left-pad"; "README.md"],
     File ["#"; " "; "p"; "a"; "d"]%byte);
    (["proj"; "node_modules"; "left-pad"; "LICENSE"], File ["M"; "I"; "T"]%byte);
    (["proj"; "node_modules"; "left-pad"; "license.md"],
     File ["W"; "T"; "F"]%byte) ].

(** As [installed], with a file where the output directory of [foo] would
    be. *)
Definition foo_blocked : list (path * node) :=
  installed
  ++ [ (["proj"; "docs-deps"], Dir);
       (["proj"; "docs-deps"; "foo"], File ["x"]%byte) ].

(** As [installed], with a file where the output root would be. *)
Definition root_blocked : list (path * node) :=
  installed ++ [ (["proj"; "docs-deps"], File ["x"]%byte) ].

(** [left-pad] with a README that is not UTF-8: the one byte FF. *)
Definition latin_readme : list (path * node) :=
  [ (["proj"], Dir);
    (["proj"; "node_modules"], Dir);
    (["proj"; "node_modules"; "left-pad"], Dir);
    (["proj"; "node_modules"; "left-pad"; "README.md"], File [xff]) ].

(** [left-pad] with a directory named [README.md], a directory named
    [licenses] and a license file. *)
Definition odd_package : list (path * node) :=
  [ (["proj"], Dir);
    (["proj"; "node_modules"], Dir);
    (["proj"; "node_modules"; "left-pad"], Dir);
    (["proj"; "node_modules"; "left-pad"; "README.md"], Dir);
    (["proj"; "node_modules"; "left-pad"; "licenses"], Dir);
    (["proj"; "node_modules"; "left-pad"; "license.md"],
     File ["W"; "T"; "F"]%byte) ].

End Examples.

(** ** What the steps of a package call, print and change

    The calls and console lines that [processDependency] may produce for a
    package after its call of [mkdir], and the changes that a run may make to
    the file system. *)

Module Shape.
Import Path Node Effects.

(** The events of one copy: the two calls and the line about it. *)
Definition copy_event (src dst : path) (verbose : bool) (copied : message)
    (failed : error → message) (e : event) : Prop :=
  match e with
  | Call ReadFile p _ => p = src
  | Call WriteFile p _ => p = dst
  | ConsoleLog m => m = copied ∧ verbose = true
  | ConsoleError m => ∃ err, m = failed err
  | _ => False
  end.

(** The names of the files that [processDependency] copies. *)
Definition copied_name (E : env) (f : string) : Prop :=
  f = "README.md"
  ∨ Glob.matches (glob_nocase (os E)) Glob.licensePattern f = true.

(** The events of the README step and of the license loop of a package. *)
Definition step_event (E : env) (packageName : string) (outDirPath : path)
    (verbose : bool) (e : event) : Prop :=
  let packageDir := package_dir E packageName in
  let outputDir := join outDirPath packageName in
  match e with
  | Call Access p _ => p = packageDir ++ ["README.md"]
  | Call GlobDir p _ => p = packageDir
  | Call ReadFile p _ => ∃ f, p = packageDir ++ [f] ∧ copied_name E f
  | Call WriteFile p _ => ∃ f, p = outputDir ++ [f] ∧ copied_name E f
  | Call Mkdir _ _ => False
  | ConsoleLog (CopiedReadme n) => n = packageName ∧ verbose = true
  | ConsoleLog (CopiedLicense _ n) => n = packageName ∧ verbose = true
  | ConsoleError (FailedReadme n _) => n = packageName
  | ConsoleError (FailedLicense _ n _) => n = packageName
  | _ => False
  end.

(** The events of the license loop of a package. *)
Definition license_event (E : env) (packageName : string) (outDirPath : path)
    (verbose : bool) (e : event) : Prop :=
  let packageDir := package_dir E packageName in
  let outputDir := join outDirPath packageName in
  match e with
  | Call ReadFile p _ =>
    ∃ f, p = packageDir ++ [f]
         ∧ Glob.matches (glob_nocase (os E)) Glob.licensePattern f = true
  | Call WriteFile p _ =>
    ∃ f, p = outputDir ++ [f]
         ∧ Glob.matches (glob_nocase (os E)) Glob.licensePattern f = true
  | ConsoleLog (CopiedLicense _ n) => n = packageName ∧ verbose = true
  | ConsoleError (FailedLicense _ n _) => n = packageName
  | _ => False
  end.

(** The events of [processDependency] for a package. *)
Definition package_event (E : env) (packageName : string) (outDirPath : path)
    (verbose : bool) (e : event) : Prop :=
  (∃ oc, e = Call Mkdir (join outDirPath packageName) oc)
  ∨ step_event E packageName outDirPath verbose e
  ∨ (e = ConsoleLog (NoFilesFound packageName) ∧ verbose = true).

(** A call of [writeFile] that succeeded. *)
Definition written (e : event) : bool :=
  match e with
  | Call WriteFile _ None => true
  | _ => false
  end.

(** A line that reports a copy. *)
Definition copied_line (e : event) : bool :=
  match e with
  | ConsoleLog (CopiedReadme _ | CopiedLicense _ _) => true
  | _ => false
  end.

(** [m'] is [m] with directories made on the way to the directories [ways]
    and with files directly in the directories [dirs] written through the
    codec. *)
Definition copies_into (ways dirs : list path) (m m' : gmap path node)
  : Prop :=
  ∀ q, m' !! q = m !! q
       ∨ (m !! q = None ∧ m' !! q = Some Dir ∧ ∃ d, d ∈ ways ∧ q `prefix_of` d)
       ∨ (∃ d f bs, d ∈ dirs ∧ q = d ++ [f]
                    ∧ m' !! q = Some (File (Utf8.recode bs))).

End Shape.

(** ** The command line

    [parseArgs] of [node:util], as [getCliOptions] calls it: with [options]
    only, so in strict mode, without positionals, without negated and
    repeated options, on the arguments of the process after the name of the
    script.  A string is the sequence of its code units; the position of a
    token among the arguments, which the result does not show, is left out. *)

Module Args.

Inductive option_type := TypeString | TypeBoolean.

Inductive value :=
  | VString (s : string)
  | VBoolean (b : bool).

(** One entry of [options]: [{ type, short, default }]. *)
Record option_config := {
  type : option_type;
  short : option string;
  default : option value;
}.

Inductive token :=
  | OptionToken (name rawName : string) (value : option string)
      (inlineValue : bool)
  | Positional (value : string)
  | OptionTerminator.

(** The errors that [parseArgs] throws: [ERR_PARSE_ARGS_UNKNOWN_OPTION],
    [ERR_PARSE_ARGS_INVALID_OPTION_VALUE] with its three messages, and
    [ERR_PARSE_ARGS_UNEXPECTED_POSITIONAL]. *)
Inductive parse_error :=
  | UnknownOption (rawName : string)
  | ArgumentMissing (longOption : string)
  | TakesNoArgument (longOption : string)
  | AmbiguousArgument (rawName : string)
  | UnexpectedPositional (value : string).

#[global] Instance option_type_eq_dec : EqDecision option_type.
Proof. solve_decision. Defined.
#[global] Instance value_eq_dec : EqDecision value.
Proof. solve_decision. Defined.

(** [s.charAt(i)] *)
Definition charAt (s : string) (i : nat) : string :=
  match String.get i s with
  | Some c => String c EmptyString
  | None => EmptyString
  end.

(** [s.slice(i)] *)
Fixpoint slice_from (i : nat) (s : string) : string :=
  match i, s with
  | 0, _ => s
  | S i', String _ s' => slice_from i' s'
  | S _, EmptyString => EmptyString
  end.

Fixpoint take (n : nat) (s : string) : string :=
  match n, s with
  | S n', String c s' => String c (take n' s')
  | _, _ => EmptyString
  end.

(** [s.slice(i, j)] *)
Definition slice (i j : nat) (s : string) : string :=
  take (j - i) (slice_from i s).

(** [s.indexOf(c)], where [c] occurs in [s]. *)
Fixpoint indexOf (c : ascii) (s : string) : nat :=
  match s with
  | EmptyString => 0
  | String a s' => if decide (a = c) then 0 else S (indexOf c s')
  end.

(** [s.includes(c)] *)
Fixpoint includes (c : ascii) (s : string) : bool :=
  match s with
  | EmptyString => false
  | String a s' => bool_decide (a = c) || includes c s'
  end.

Definition isOptionLikeValue (value : string) : bool :=
  bool_decide (1 < String.length value) && bool_decide (charAt value 0 = "-").

Definition isLoneShortOption (arg : string) : bool :=
  bool_decide (String.length arg = 2)
  && bool_decide (charAt arg 0 = "-")
  && negb (bool_decide (charAt arg 1 = "-")).

Definition isLoneLongOption (arg : string) : bool :=
  bool_decide (2 < String.length arg)
  && String.prefix "--" arg
  && negb (includes "=" (slice_from 3 arg)).

Definition isLongOptionAndValue (arg : string) : bool :=
  bool_decide (2 < String.length arg)
  && String.prefix "--" arg
  && includes "=" (slice_from 3 arg).

Definition inspect {A} (a : A) : {b | a = b} := exist _ a eq_refl.

Section ParseArgs.
Context (options : list (string * option_config)).

Definition findLongOptionForShort (shortOption : string) : string :=
  match List.find (λ entry, bool_decide (short entry.2 = Some shortOption))
          options with
  | Some entry => entry.1
  | None => shortOption
  end.

(** The own property [longOption] of [options]. *)
Definition getOwn (longOption : string) : option option_config :=
  snd <$> List.find (λ entry, bool_decide (entry.1 = longOption)) options.

(** [optionsGetOwn(options, longOption, 'type') === 'string'] *)
Definition isStringOption (longOption : string) : bool :=
  bool_decide (type <$> getOwn longOption = Some TypeString).

Definition isShortOptionGroup (arg : string) : bool :=
  bool_decide (2 < String.length arg)
  && bool_decide (charAt arg 0 = "-")
  && negb (bool_decide (charAt arg 1 = "-"))
  && negb (isStringOption (findLongOptionForShort (charAt arg 1))).

Definition isShortOptionAndValue (arg : string) : bool :=
  bool_decide (2 < String.length arg)
  && bool_decide (charAt arg 0 = "-")
  && negb (bool_decide (charAt arg 1 = "-"))
  && isStringOption (findLongOptionForShort (charAt arg 1)).

(** [-fXzy] expanded to [-f -X -z -y]; a string option that is not the last
    takes the rest as its value. *)
Fixpoint expandGroup (shorts : string) : list string :=
  match shorts with
  | EmptyString => []
  | String c rest =>
    let shortOption := String c EmptyString in
    if negb (isStringOption (findLongOptionForShort shortOption))
       || bool_decide (rest = EmptyString)
    then ("-" +:+ shortOption) :: expandGroup rest
    else ["-" +:+ shorts]
  end.

(** The token of a lone option; a string option takes the next argument,
    if there is one, as its value. *)
Definition optionToken (longOption rawName : string)
    (remainingArgs : list string) : list token * option (list string) :=
  match isStringOption longOption, remainingArgs with
  | true, nextArg :: rest =>
    ([OptionToken longOption rawName (Some nextArg) false], Some rest)
  | _, _ => ([OptionToken longOption rawName None false], Some remainingArgs)
  end.

(** One turn of the loop of [argsToTokens] for the argument [arg] taken from
    the front of the queue: the tokens it adds and the queue it leaves, or no
    queue when the loop ends. *)
Definition step (arg : string) (remainingArgs : list string)
  : list token * option (list string) :=
  if bool_decide (arg = "--") then
    (OptionTerminator :: (Positional <$> remainingArgs), None)
  else if isLoneShortOption arg then
    let shortOption := charAt arg 1 in
    let longOption := findLongOptionForShort shortOption in
    optionToken longOption arg remainingArgs
  else if isShortOptionGroup arg then
    ([], Some (expandGroup (slice_from 1 arg) ++ remainingArgs))
  else if isShortOptionAndValue arg then
    let shortOption := charAt arg 1 in
    let longOption := findLongOptionForShort shortOption in
    let value := slice_from 2 arg in
    ([OptionToken longOption ("-" +:+ shortOption) (Some value) true],
     Some remainingArgs)
  else if isLoneLongOption arg then
    let longOption := slice_from 2 arg in
    optionToken longOption arg remainingArgs
  else if isLongOptionAndValue arg then
    let equalIndex := indexOf "=" arg in
    let longOption := slice 2 equalIndex arg in
    let value := slice_from (equalIndex + 1) arg in
    ([OptionToken longOption ("--" +:+ longOption) (Some value) true],
     Some remainingArgs)
  else ([Positional arg], Some remainingArgs).

(** The turns that an argument takes: a group takes one for itself and one
    for each argument it is expanded to. *)
Definition turns (arg : string) : nat :=
  if isShortOptionGroup arg then S (String.length arg) else 1.

#[local] Unset Equations With Funext.
#[local] Set Warnings "-solve_obligation_error".

Equations argsToTokens (args : list string) : list token
  by wf (sum_list_with turns args) lt :=
  argsToTokens [] := [];
  argsToTokens (arg :: remainingArgs)
    with inspect (step arg remainingArgs) := {
    | exist _ (pair tokens (Some rest)) Hstep => tokens ++ argsToTokens rest
    | exist _ (pair tokens None) _ => tokens }.
Next Obligation.
  assert (∀ c, turns ("-" +:+ String c "") = 1) as Hlone by reflexivity.
  assert (∀ shorts,
    sum_list_with turns (expandGroup shorts) ≤ String.length shorts) as Hexp.
  { induction shorts as [|c shorts IH]; [done|].
    cbn [expandGroup]. cbv zeta.
    destruct (isStringOption _) eqn:Hs; cbn [negb orb].
    - case_bool_decide as Hr; cbn [sum_list_with].
      + rewrite Hlone. cbn [String.length]. lia.
      + unfold turns, isShortOptionGroup.
        replace (charAt ("-" +:+ String c shorts) 1) with (String c "")
          by done.
        rewrite Hs, andb_false_r. cbn [String.length]. lia.
    - cbn [sum_list_with]. rewrite Hlone. cbn [String.length]. lia. }
  assert (0 < turns arg) as Hpos
    by (unfold turns; destruct (isShortOptionGroup arg); lia).
  assert (∀ l r t x, optionToken l r remainingArgs = (t, Some x) →
    sum_list_with turns x ≤ sum_list_with turns remainingArgs) as Hopt.
  { intros l r t x. unfold optionToken.
    destruct (isStringOption l), remainingArgs as [|n rs];
      intros [= _ <-]; cbn [sum_list_with]; lia. }
  clear argsToTokens. revert Hstep. unfold step.
  change (sum_list_with turns (arg :: remainingArgs))
    with (turns arg + sum_list_with turns remainingArgs).
  case_bool_decide; [done|].
  destruct (isLoneShortOption arg); [intros ?%Hopt; lia|].
  destruct (isShortOptionGroup arg) eqn:Hg.
  { intros [= _ <-]. rewrite sum_list_with_app.
    assert (turns arg = S (String.length arg)) as Hc
      by (unfold turns; by rewrite Hg).
    pose proof (Hexp (slice_from 1 arg)) as Hle.
    assert (String.length (slice_from 1 arg) ≤ String.length arg)
      by (destruct arg; cbn [slice_from String.length]; lia).
    cbn [slice_from] in *. lia. }
  destruct (isShortOptionAndValue arg); [intros [= _ <-]; lia|].
  destruct (isLoneLongOption arg); [intros ?%Hopt; lia|].
  destruct (isLongOptionAndValue arg); intros [= _ <-]; lia.
Qed.

Next Obligation.
  unfold argsToTokens. rewrite Subterm.FixWf_unfold.
  - destruct args as [|arg remainingArgs]; [reflexivity|].
    cbn [argsToTokens_functional argsToTokens_unfold].
    destruct (inspect (step arg remainingArgs)) as [[tokens [rest|]] H];
      reflexivity.
  - intros x f g Hfg. destruct x as [|a r]; [reflexivity|].
    cbn [argsToTokens_functional].
    destruct (inspect (step a r)) as [[tokens [rest|]] H];
      cbn [argsToTokens_clause_2]; [|reflexivity].
    f_equal. rewrite Hfg. f_equal. apply proof_irrel.
Defined.

(** The checks of strict mode on an option token. *)
Definition checkOptionUsage (name rawName : string) (value : option string)
  : option parse_error :=
  match getOwn name with
  | None => Some (UnknownOption rawName)
  | Some config =>
    match type config, value with
    | TypeString, None => Some (ArgumentMissing name)
    | TypeBoolean, Some _ => Some (TakesNoArgument name)
    | _, _ => None
    end
  end.

Definition checkOptionLikeValue (rawName : string) (value : option string)
    (inlineValue : bool) : option parse_error :=
  match value with
  | Some v =>
    if negb inlineValue && isOptionLikeValue v
    then Some (AmbiguousArgument rawName) else None
  | None => None
  end.

Definition storeOption (longOption : string) (optionValue : option string)
    (values : gmap string value) : gmap string value :=
  if bool_decide (longOption = "__proto__") then values
  else
    let newValue :=
      match optionValue with
      | Some v => VString v
      | None => VBoolean true
      end in
    <[longOption := newValue]> values.

(** The second phase: the tokens are checked and stored in their order; a
    positional is an error. *)
Fixpoint storeTokens (tokens : list token) (values : gmap string value)
  : parse_error + gmap string value :=
  match tokens with
  | [] => inr values
  | OptionToken name rawName value inlineValue :: rest =>
    match checkOptionUsage name rawName value with
    | Some e => inl e
    | None =>
      match checkOptionLikeValue rawName value inlineValue with
      | Some e => inl e
      | None => storeTokens rest (storeOption name value values)
      end
    end
  | Positional value :: _ => inl (UnexpectedPositional value)
  | OptionTerminator :: rest => storeTokens rest values
  end.

(** The third phase: the defaults of the options that were not given. *)
Definition storeDefaults (values : gmap string value) : gmap string value :=
  foldl (λ values entry,
           match default entry.2, values !! entry.1 with
           | Some d, None => <[entry.1 := d]> values
           | _, _ => values
           end) values options.

(** [parseArgs({ options }).values] *)
Definition parseArgs (args : list string) : parse_error + gmap string value :=
  match storeTokens (argsToTokens args) ∅ with
  | inl e => inl e
  | inr values => inr (storeDefaults values)
  end.

End ParseArgs.

End Args.

(** ** The options of the program and the module body *)

Module Cli.
Import Node Args.

(** The [options] that [getCliOptions] passes to [parseArgs]. *)
Definition cliOptions : list (string * option_config) :=
  [ ("outdir",
     {| type := TypeString; short := Some "o";
        default := Some (VString "./docs-deps") |});
    ("verbose",
     {| type := TypeBoolean; short := Some "v";
        default := Some (VBoolean false) |}) ].

(** [values.outdir] and [values.verbose] at the types that [CliOptions]
    gives them. *)
Definition asString (v : option value) : string :=
  match v with
  | Some (VString s) => s
  | _ => EmptyString
  end.

Definition asBoolean (v : option value) : bool :=
  match v with
  | Some (VBoolean b) => b
  | _ => false
  end.

Definition getCliOptions (args : list string) : parse_error + CliOptions :=
  match parseArgs cliOptions args with
  | inl e => inl e
  | inr values =>
    inr {| outdir := asString (values !! "outdir");
           verbose := asBoolean (values !! "verbose") |}
  end.

(** The body of the module: the options are read first; an error thrown by
    [getCliOptions] is caught by nothing, so the runtime reports it and the
    process ends with exit code 1 before the program has made a call or
    printed a line. *)
Definition program (E : env) (args : list string) (s : state) : Z * state :=
  match getCliOptions args with
  | inl _ => (1%Z, s)
  | inr options => main E options s
  end.

End Cli.

(** ** More example worlds *)

Module Worlds.
Import Path Node.

(** [left-pad] is installed with a license file and without README. *)
Definition licensed_only : list (path * node) :=
  [ (["proj"], Dir);
    (["proj"; "node_modules"], Dir);
    (["proj"; "node_modules"; "left-pad"], Dir);
    (["proj"; "node_modules"; "left-pad"; "license.md"],
     File ["W"; "T"; "F"]%byte) ].

(** A project in which nothing is installed. *)
Definition bare : list (path * node) := [ (["proj"], Dir) ].

(** The options [--outdir=/docs-deps] and [--outdir=docs-deps]. *)
Definition rooted : CliOptions := {| outdir := "/docs-deps"; verbose := false |}.
Definition unrooted : CliOptions := {| outdir := "docs-deps"; verbose := false |}.

End Worlds.

(** * Proofs

    First the facts about the runtime, then the refinement of the program by
    the functions of [Effects], then the properties of the program. *)

Module Utf8Facts.
Import Utf8.
Local Open Scope Z_scope.

Lemma byte_val_range b : 0 <= byte_val b < 256.
Proof.
  unfold byte_val. pose proof (Byte.to_N_bounded b) as H.
  lia.
Qed.

Lemma byte_of_val b : byte_of (byte_val b) = b.
Proof.
  unfold byte_of, byte_val. rewrite N2Z.id, Byte.of_to_N. reflexivity.
Qed.

Lemma encode_cons c s : encode (c :: s) = encode_cp c ++ encode s.
Proof. reflexivity. Qed.

Lemma in_range_spec lo hi v : in_range lo hi v = true <-> lo <= v <= hi.
Proof. unfold in_range. rewrite andb_true_iff, !Z.leb_le. tauto. Qed.

Lemma in_range_false lo hi v : v < lo \/ hi < v -> in_range lo hi v = false.
Proof.
  intros H. destruct (in_range lo hi v) eqn:Hr; [|done].
  apply in_range_spec in Hr. lia.
Qed.

Lemma lo3_bounds v : 0x80 <= lo3 v <= 0xA0.
Proof. unfold lo3. destruct (v =? 0xE0); lia. Qed.

Ltac split_ltb :=
  repeat match goal with
  | |- context [?a <? ?b] => destruct (Z.ltb_spec a b); try lia
  end.

Lemma encode_cp_ascii v : 0 <= v < 0x80 -> encode_cp v = [byte_of v].
Proof.
  intros H. unfold encode_cp. rewrite in_range_false by lia.
  unfold encode_scalar. split_ltb. done.
Qed.

Lemma encode_cp2 v0 v1 :
  0xC2 <= v0 <= 0xDF -> 0x80 <= v1 <= 0xBF ->
  encode_cp (cp2 v0 v1) = [byte_of v0; byte_of v1].
Proof.
  intros H0 H1. unfold encode_cp, cp2. rewrite in_range_false by lia.
  unfold encode_scalar. split_ltb.
  repeat f_equal; Z.div_mod_to_equations; lia.
Qed.

Lemma encode_cp3 v0 v1 v2 :
  0xE0 <= v0 <= 0xEF -> lo3 v0 <= v1 <= hi3 v0 -> 0x80 <= v2 <= 0xBF ->
  encode_cp (cp3 v0 v1 v2) = [byte_of v0; byte_of v1; byte_of v2].
Proof.
  intros H0 H1 H2. unfold encode_cp, cp3.
  assert (0x80 <= v1 <= 0xBF /\ (v0 = 0xE0 -> 0xA0 <= v1)
          /\ (v0 = 0xED -> v1 <= 0x9F)) as (Hv1 & Hlo & Hhi).
  { revert H1. unfold lo3, hi3.
    destruct (Z.eqb_spec v0 0xE0), (Z.eqb_spec v0 0xED); lia. }
  rewrite in_range_false.
  2:{ destruct (Z.eq_dec v0 0xED) as [->|]; [left; specialize (Hhi eq_refl); lia|].
      destruct (Z_lt_le_dec v0 0xED); [left|right]; lia. }
  unfold encode_scalar. split_ltb.
  repeat f_equal; Z.div_mod_to_equations; lia.
Qed.

Lemma encode_cp4 v0 v1 v2 v3 :
  0xF0 <= v0 <= 0xF4 -> lo4 v0 <= v1 <= hi4 v0 ->
  0x80 <= v2 <= 0xBF -> 0x80 <= v3 <= 0xBF ->
  encode_cp (cp4 v0 v1 v2 v3) = [byte_of v0; byte_of v1; byte_of v2; byte_of v3].
Proof.
  intros H0 H1 H2 H3. unfold encode_cp, cp4.
  assert (0x80 <= v1 <= 0xBF /\ (v0 = 0xF0 -> 0x90 <= v1)) as (Hv1 & Hlo).
  { revert H1. unfold lo4, hi4.
    destruct (Z.eqb_spec v0 0xF0), (Z.eqb_spec v0 0xF4); lia. }
  rewrite in_range_false.
  2:{ right. destruct (Z.eq_dec v0 0xF0) as [->|]; [specialize (Hlo eq_refl)|]; lia. }
  unfold encode_scalar. split_ltb.
  repeat f_equal; Z.div_mod_to_equations; lia.
Qed.

Lemma recode_bounded n : ∀ bs,
  (length bs ≤ n)%nat -> well_formed bs = true -> encode (decode bs) = bs.
Proof.
  induction n as [|n IH]; intros bs Hn Hwf.
  { destruct bs; [done | simpl in Hn; lia]. }
  destruct bs as [|b0 r0]; [done|].
  cbn [well_formed decode] in *. cbv zeta in *.
  pose proof (byte_val_range b0) as Hb0.
  destruct (Z.ltb_spec (byte_val b0) 0x80).
  { rewrite encode_cons, encode_cp_ascii, byte_of_val by lia.
    simpl. f_equal. apply IH; [simpl in Hn; lia | done]. }
  destruct (in_range 0xC2 0xDF (byte_val b0)) eqn:R2.
  { apply in_range_spec in R2.
    destruct r0 as [|b1 r1]; [done|].
    apply andb_true_iff in Hwf as [C1 Hwf]. rewrite C1.
    apply in_range_spec in C1.
    rewrite encode_cons, encode_cp2, !byte_of_val by lia.
    simpl. do 2 f_equal. apply IH; [simpl in Hn; lia | done]. }
  destruct (in_range 0xE0 0xEF (byte_val b0)) eqn:R3.
  { apply in_range_spec in R3.
    destruct r0 as [|b1 [|b2 r2]]; [done..|].
    apply andb_true_iff in Hwf as [Hwf Hr].
    apply andb_true_iff in Hwf as [C1 C2]. rewrite C1, C2.
    apply in_range_spec in C1, C2.
    rewrite encode_cons, encode_cp3, !byte_of_val by lia.
    simpl. do 3 f_equal. apply IH; [simpl in Hn; lia | done]. }
  destruct (in_range 0xF0 0xF4 (byte_val b0)) eqn:R4; [|done].
  apply in_range_spec in R4.
  destruct r0 as [|b1 [|b2 [|b3 r3]]]; [done..|].
  apply andb_true_iff in Hwf as [Hwf Hr].
  apply andb_true_iff in Hwf as [Hwf C3].
  apply andb_true_iff in Hwf as [C1 C2]. rewrite C1, C2, C3.
  apply in_range_spec in C1, C2, C3.
  rewrite encode_cons, encode_cp4, !byte_of_val by lia.
  simpl. do 4 f_equal. apply IH; [simpl in Hn; lia | done].
Qed.

Lemma recode_well_formed bs : well_formed bs = true -> recode bs = bs.
Proof. apply (recode_bounded (length bs)). done. Qed.

End Utf8Facts.

Module PathFacts.
Import Path.

Lemma split_on_no_separator s :
  no_separator s = true → split_on "/" s = [s].
Proof.
  induction s as [|c s IH]; simpl; [done|].
  intros [Hc Hs]%andb_true_iff. apply negb_true_iff, bool_decide_eq_false in Hc.
  rewrite decide_False by done. by rewrite IH.
Qed.

Lemma join_entry p f :
  no_separator f = true → f ≠ "" → f ≠ "." → f ≠ ".." → join p f = p ++ [f].
Proof.
  intros Hf H1 H2 H3. unfold join. rewrite split_on_no_separator by done.
  simpl. unfold apply_segment.
  rewrite decide_False by (intros [?|?]; done). by rewrite decide_False.
Qed.

Lemma foldl_apply_segment p l :
  ".." ∉ l →
  foldl apply_segment p l = p ++ filter (λ c, ¬ (c = "" ∨ c = ".")) l.
Proof.
  revert p. induction l as [|c l IH]; intros p Hl; simpl.
  { by rewrite app_nil_r. }
  apply not_elem_of_cons in Hl as [Hc Hl].
  rewrite IH by done. unfold apply_segment.
  destruct (decide (c = "" ∨ c = ".")) as [Hd|Hd].
  - by rewrite filter_cons_False by tauto.
  - rewrite decide_False by done.
    rewrite filter_cons_True by done. by rewrite <- app_assoc.
Qed.

Lemma join_plain p s : plain s → join p s = p ++ segments s.
Proof. apply foldl_apply_segment. Qed.

Lemma join_literal p : join p "README.md" = p ++ ["README.md"].
Proof. reflexivity. Qed.

Lemma apart_app p q x y : apart p q → apart (p ++ x) (q ++ y).
Proof.
  intros [H1 H2]. split; intros [k Hk].
  - rewrite <- app_assoc in Hk.
    destruct (prefix_weak_total p q (q ++ y)) as [?|?]; try done.
    + eexists; done.
    + by apply prefix_app_r.
  - rewrite <- app_assoc in Hk.
    destruct (prefix_weak_total p q (p ++ x)) as [?|?]; try done.
    + by apply prefix_app_r.
    + eexists; done.
Qed.

End PathFacts.

Module GlobFacts.
Import Path Glob PathFacts.

Lemma matches_star_cons nocase pat a s :
  matches nocase (Star :: pat) (String a s) =
  matches nocase pat (String a s)
  || negb (bool_decide (a = "/"%char)) && matches nocase (Star :: pat) s.
Proof. reflexivity. Qed.

Lemma matches_star nocase s :
  matches nocase [Star] s = true ↔ no_separator s = true.
Proof.
  induction s as [|a s IH]; [done|].
  rewrite matches_star_cons. cbn [matches no_separator].
  rewrite bool_decide_eq_false_2 by done.
  rewrite orb_false_l, !andb_true_iff, IH. done.
Qed.

(** The characters that a letter of the pattern stands for. *)
Lemma same_char_spec nocase p a :
  to_lower p = p →
  same_char nocase p a = true ↔
  p = (if nocase then to_lower a else a).
Proof.
  intros Hp. unfold same_char. destruct nocase.
  - rewrite bool_decide_eq_true, Hp. done.
  - by rewrite bool_decide_eq_true.
Qed.

Lemma same_char_head nocase p a :
  to_lower p = p → same_char nocase p a = true ↔ head_is nocase p a.
Proof. apply same_char_spec. Qed.

Lemma same_char_sym nocase a b : same_char nocase a b = same_char nocase b a.
Proof.
  unfold same_char. destruct nocase; apply bool_decide_ext; split; congruence.
Qed.

Lemma matches_lit nocase c pat f :
  matches nocase (Lit c :: pat) f = true ↔
  ∃ a rest, f = String a rest ∧ same_char nocase c a = true
            ∧ matches nocase pat rest = true.
Proof.
  destruct f as [|a rest]; cbn [matches].
  - split; [done | by intros (? & ? & ? & _)].
  - rewrite andb_true_iff. split; [eauto 6|].
    by intros (? & ? & [= <- <-] & ?).
Qed.

Lemma matches_class nocase cs pat f :
  matches nocase (Class cs :: pat) f = true ↔
  ∃ a rest, f = String a rest ∧ existsb (same_char nocase a) cs = true
            ∧ matches nocase pat rest = true.
Proof.
  destruct f as [|a rest]; cbn [matches].
  - split; [done | by intros (? & ? & ? & _)].
  - rewrite andb_true_iff. split; [eauto 6|].
    by intros (? & ? & [= <- <-] & ?).
Qed.

(** A name matches the pattern exactly when it has no separator and its first
    seven characters are those of [license] or [licence], up to case if the
    matcher ignores case. *)
Lemma matches_license nocase f :
  matches nocase licensePattern f = true ↔
  ∃ a0 a1 a2 a3 a4 a5 a6 rest,
    f = String a0 (String a1 (String a2 (String a3 (String a4
          (String a5 (String a6 rest)))))) ∧
    head_is nocase "l" a0 ∧ head_is nocase "i" a1 ∧ head_is nocase "c" a2 ∧
    head_is nocase "e" a3 ∧ head_is nocase "n" a4 ∧
    (head_is nocase "c" a5 ∨ head_is nocase "s" a5) ∧
    head_is nocase "e" a6 ∧ no_separator rest = true.
Proof.
  change licensePattern with
    [Lit "l"; Lit "i"; Lit "c"; Lit "e"; Lit "n"; Class ["c"; "s"]%char;
     Lit "e"; Star].
  assert (∀ a, existsb (same_char nocase a) ["c"; "s"]%char = true ↔
               head_is nocase "c" a ∨ head_is nocase "s" a) as Hcls.
  { intros a. simpl. rewrite orb_false_r, orb_true_iff.
    rewrite !(same_char_sym nocase a), !same_char_head by done. done. }
  split.
  - intros (a0 & r0 & -> & H0 & (a1 & r1 & -> & H1 & (a2 & r2 & -> & H2 &
      (a3 & r3 & -> & H3 & (a4 & r4 & -> & H4 & (a5 & r5 & -> & H5 &
      (a6 & r6 & -> & H6 & Hs)%matches_lit)%matches_class)%matches_lit
      )%matches_lit)%matches_lit)%matches_lit)%matches_lit.
    apply matches_star in Hs. apply Hcls in H5.
    apply same_char_head in H0, H1, H2, H3, H4, H6; try done.
    exists a0, a1, a2, a3, a4, a5, a6, r6. done.
  - intros (a0 & a1 & a2 & a3 & a4 & a5 & a6 & rest & -> & H0 & H1 & H2 & H3
            & H4 & H5 & H6 & Hs).
    apply (proj2 (matches_star nocase _)) in Hs. apply Hcls in H5.
    apply (proj2 (same_char_head nocase _ _ eq_refl)) in H0, H1, H2, H3, H4, H6.
    repeat (first [apply matches_lit | apply matches_class];
            eexists _, _; split; [done|]; split; [done|]).
    done.
Qed.

Lemma lowercase_cons c s : lowercase (String c s) = String (to_lower c) (lowercase s).
Proof. reflexivity. Qed.

Lemma prefix_cons_inv p w f :
  String.prefix (String p w) f = true →
  ∃ a rest, f = String a rest ∧ p = a ∧ String.prefix w rest = true.
Proof.
  destruct f as [|a rest]; simpl; [done|].
  destruct (ascii_dec p a) as [->|]; [|done]. eauto.
Qed.

Lemma fold_case_cons_inv nocase f a rest :
  fold_case nocase f = String a rest →
  ∃ b f', f = String b f' ∧ a = (if nocase then to_lower b else b)
          ∧ rest = fold_case nocase f'.
Proof.
  destruct nocase; simpl.
  - destruct f as [|b f']; simpl; [done|]. intros [= <- <-]. eauto.
  - intros ->. eauto.
Qed.

(** Every name without separator that begins with [license] or [licence],
    compared as the matcher compares, matches. *)
Lemma matches_license_prefix nocase f :
  no_separator f = true →
  String.prefix "license" (fold_case nocase f) = true
  ∨ String.prefix "licence" (fold_case nocase f) = true →
  matches nocase licensePattern f = true.
Proof.
  intros Hsep Hpre. apply matches_license.
  assert (∃ w5, (w5 = "s" ∨ w5 = "c")%char ∧
    String.prefix (String "l" (String "i" (String "c" (String "e"
      (String "n" (String w5 (String "e" "")))))))
      (fold_case nocase f) = true) as (w5 & Hw5 & H).
  { destruct Hpre; [exists "s"%char | exists "c"%char]; auto. }
  clear Hpre.
  repeat
    (apply prefix_cons_inv in H as (? & ? & Hf & ? & H);
     apply fold_case_cons_inv in Hf as (? & ? & -> & ? & ->);
     simpl in Hsep; apply andb_true_iff in Hsep as [_ Hsep]);
  subst.
  do 8 eexists. split; [done|].
  unfold head_is. repeat split; try done.
  destruct Hw5 as [Hw5|Hw5]; rewrite <- Hw5; auto.
Qed.

(** A matched name is a single segment for [join]. *)
Lemma matches_license_entry nocase f p :
  matches nocase licensePattern f = true → join p f = p ++ [f].
Proof.
  intros (a0 & a1 & a2 & a3 & a4 & a5 & a6 & rest & -> & H0 & H1 & H2 & H3
          & H4 & H5 & H6 & Hs)%matches_license.
  assert (∀ p a, to_lower p = p → p ≠ "/"%char → p ≠ "."%char →
            head_is nocase p a → a ≠ "/"%char ∧ a ≠ "."%char) as Hne.
  { intros q a Hq Hq1 Hq2. unfold head_is. destruct nocase; [|by intros <-].
    intros ->. split; intros ->; done. }
  apply join_entry.
  - simpl. rewrite Hs.
    destruct H5 as [H5|H5];
    repeat match goal with
    | H : head_is _ _ _ |- _ => apply Hne in H as [? _]; [|done..]
    end;
    rewrite !bool_decide_eq_false_2 by done; done.
  - done.
  - apply Hne in H0 as [_ ?]; [|done..]. congruence.
  - apply Hne in H0 as [_ ?]; [|done..]. congruence.
Qed.

Lemma matches_license_not_readme nocase f :
  matches nocase licensePattern f = true → f ≠ "README.md".
Proof.
  intros (a0 & a1 & a2 & a3 & a4 & a5 & a6 & rest & -> & H0 & _)%matches_license.
  intros [= -> _]. unfold head_is in H0. by destruct nocase.
Qed.

End GlobFacts.

Module JSFacts.
Import JS.

Lemma own_properties_perm (o : object) : own_properties o ≡ₚ o.
Proof.
  unfold own_properties.
  rewrite merge_sort_Permutation.
  induction o as [|kv o IH]; [done|].
  rewrite filter_cons. cbn [omap list_omap]. unfold indexed at 1.
  case_decide as Hd.
  - rewrite Hd. simpl. rewrite <- Permutation_middle. by rewrite IH.
  - destruct (array_index kv.1) eqn:Hi; [|done]. simpl. by rewrite IH.
Qed.

Lemma keys_perm (o : object) : keys o ≡ₚ o.*1.
Proof. unfold keys. by rewrite own_properties_perm. Qed.

Lemma set_property_keys_old (o : object) k v :
  k ∈ o.*1 → (set_property o k v).*1 = o.*1.
Proof.
  induction o as [|[k' v'] o IH]; cbn [set_property fmap list_fmap fst].
  { by intros ?%elem_of_nil. }
  intros Hin. destruct (decide (k' = k)) as [->|Hne]; [done|].
  cbn [fmap list_fmap fst]. f_equal. apply IH.
  apply elem_of_cons in Hin as [?|?]; [congruence | done].
Qed.

Lemma set_property_keys_new (o : object) k v :
  k ∉ o.*1 → (set_property o k v).*1 = o.*1 ++ [k].
Proof.
  induction o as [|[k' v'] o IH]; cbn [set_property fmap list_fmap fst].
  { done. }
  intros [Hne Hin]%not_elem_of_cons. rewrite decide_False by done.
  cbn [fmap list_fmap fst app]. f_equal. by apply IH.
Qed.

Lemma set_property_elem (o : object) k v x :
  x ∈ (set_property o k v).*1 ↔ x ∈ o.*1 ∨ x = k.
Proof.
  destruct (decide (k ∈ o.*1)) as [Hin|Hin].
  - rewrite set_property_keys_old by done. split; [auto | intros [?| ->]; done].
  - rewrite set_property_keys_new by done.
    rewrite elem_of_app, list_elem_of_singleton. done.
Qed.

Lemma set_property_NoDup (o : object) k v :
  NoDup o.*1 → NoDup (set_property o k v).*1.
Proof.
  intros Hnd. destruct (decide (k ∈ o.*1)) as [Hin|Hin].
  - by rewrite set_property_keys_old.
  - rewrite set_property_keys_new by done.
    apply NoDup_app. split_and!; [done | | apply NoDup_singleton].
    intros x Hx ->%list_elem_of_singleton. done.
Qed.

Lemma foldl_set_property_elem (l target : object) x :
  x ∈ (foldl (λ o kv, set_property o kv.1 kv.2) target l).*1 ↔
  x ∈ target.*1 ∨ x ∈ l.*1.
Proof.
  revert target. induction l as [|kv l IH]; intros target; simpl.
  { rewrite elem_of_nil. tauto. }
  rewrite IH, set_property_elem, elem_of_cons. tauto.
Qed.

Lemma foldl_set_property_NoDup (l target : object) :
  NoDup target.*1 →
  NoDup (foldl (λ o kv, set_property o kv.1 kv.2) target l).*1.
Proof.
  revert target. induction l as [|kv l IH]; intros target Hnd; simpl; [done|].
  by apply IH, set_property_NoDup.
Qed.

Lemma spread_elem target source x :
  x ∈ (spread target source).*1 ↔ x ∈ target.*1 ∨ x ∈ names_of source.
Proof.
  destruct source as [src|]; simpl.
  - rewrite foldl_set_property_elem.
    unfold names_of. simpl. by rewrite own_properties_perm.
  - unfold names_of. simpl. rewrite elem_of_nil. tauto.
Qed.

Lemma spread_NoDup target source :
  NoDup target.*1 → NoDup (spread target source).*1.
Proof.
  destruct source; simpl; [|done]. apply foldl_set_property_NoDup.
Qed.

End JSFacts.

Module NodeFacts.
Import Path Node PathFacts Effects.

(** *** Sequencing *)

Lemma bind_inv {A B} (m : M A) (k : A → M B) s r s' :
  (m ≫= k) s = (r, s') →
  (∃ a s1, m s = (Ok a, s1) ∧ k a s1 = (r, s'))
  ∨ (∃ e, m s = (Throw e, s') ∧ r = Throw e).
Proof.
  unfold mbind, M_bind. destruct (m s) as [[a|e] s1]; intros H.
  - left. eauto.
  - right. injection H as <- <-. eauto.
Qed.

Lemma bind_ok {A B} (m : M A) (k : A → M B) s a s1 :
  m s = (Ok a, s1) → (m ≫= k) s = k a s1.
Proof. unfold mbind, M_bind. by intros ->. Qed.

Lemma bind_throw {A B} (m : M A) (k : A → M B) s e s1 :
  m s = (Throw e, s1) → (m ≫= k) s = (Throw e, s1).
Proof. unfold mbind, M_bind. by intros ->. Qed.

(** Sequencing after a step whose result is known. *)
Lemma bind_inv_eq {A B} (m : M A) (k : A → M B) s (x : result A * state) :
  m s = x →
  (m ≫= k) s = match x with
               | (Ok a, s1) => k a s1
               | (Throw e, s1) => (Throw e, s1)
               end.
Proof. unfold mbind, M_bind. by intros ->. Qed.

Lemma try_catch_ok {A} (m : M A) h s a s1 :
  m s = (Ok a, s1) → try_catch m h s = (Ok a, s1).
Proof. unfold try_catch. by intros ->. Qed.

Lemma try_catch_throw {A} (m : M A) h s e s1 :
  m s = (Throw e, s1) → try_catch m h s = h e s1.
Proof. unfold try_catch. by intros ->. Qed.

(** *** Kinds persist

    No function of the program removes an entry or turns a directory into a
    file or a file into a directory. *)

Lemma same_kind_refl x : same_kind x x.
Proof. by destruct x. Qed.

Lemma same_kind_trans x y z : same_kind x y → same_kind y z → same_kind x z.
Proof. by destruct x, y, z. Qed.

Lemma grows_refl m : grows m m.
Proof. intros q x ?. exists x. split; [done | apply same_kind_refl]. Qed.

Lemma grows_trans m1 m2 m3 : grows m1 m2 → grows m2 m3 → grows m1 m3.
Proof.
  intros H1 H2 q x Hq. destruct (H1 q x Hq) as (y & Hy & Hxy).
  destruct (H2 q y Hy) as (z & Hz & Hyz). exists z. split; [done|].
  by eapply same_kind_trans.
Qed.

Lemma grows_dir m m' q : grows m m' → m !! q = Some Dir → m' !! q = Some Dir.
Proof. intros H Hq. destruct (H q _ Hq) as ([] & ? & ?); done. Qed.

Lemma grows_lookup_node_dir m m' q :
  grows m m' → lookup_node m q = Some Dir → lookup_node m' q = Some Dir.
Proof. destruct q; [done|]. apply grows_dir. Qed.

Lemma grows_not_dir m m' q :
  grows m m' → m' !! q ≠ Some Dir → m !! q ≠ Some Dir.
Proof. intros H Hq Hd. apply Hq. by eapply grows_dir. Qed.

Lemma grows_insert_dir m q : m !! q = None → grows m (<[q := Dir]> m).
Proof.
  intros Hq p x Hp. exists x. split; [|apply same_kind_refl].
  rewrite lookup_insert_ne; [done | congruence].
Qed.

Lemma grows_insert_file m q bs :
  m !! q ≠ Some Dir → grows m (<[q := File bs]> m).
Proof.
  intros Hq p x Hp. destruct (decide (q = p)) as [->|Hne].
  - rewrite lookup_insert_eq. eexists; split; [done|].
    destruct x; [done | congruence].
  - rewrite lookup_insert_ne by done. exists x. split; [done|].
    apply same_kind_refl.
Qed.

(** *** The file-system functions *)

Lemma sys_access_fs p m r m' : sys_access p m = (r, m') → m' = m.
Proof. unfold sys_access. destruct (lookup_node m p); by intros [= _ <-]. Qed.

Lemma sys_readFile_fs p m r m' : sys_readFile p m = (r, m') → m' = m.
Proof.
  unfold sys_readFile. destruct (lookup_node m p) as [[]|]; by intros [= _ <-].
Qed.

Lemma sys_glob_fs nocase pat d m r m' : sys_glob nocase pat d m = (r, m') → m' = m.
Proof.
  unfold sys_glob. destruct (lookup_node m d) as [[]|]; by intros [= _ <-].
Qed.

Lemma sys_writeFile_inv p text m r m' :
  sys_writeFile p text m = (r, m') →
  (r = Ok () ∧ m' = <[p := File (Utf8.encode text)]> m ∧ p ≠ []
   ∧ m !! p ≠ Some Dir ∧ lookup_node m (removelast p) = Some Dir)
  ∨ (∃ e, r = Throw e ∧ m' = m).
Proof.
  unfold sys_writeFile. destruct p as [|c p]; [intros [= <- <-]; eauto|].
  destruct (lookup_node m (removelast (c :: p))) as [[]|] eqn:Hpar;
    try (intros [= <- <-]; eauto).
  destruct (m !! (c :: p)) as [[]|] eqn:Hp; intros [= <- <-]; eauto;
    left; split_and!; done.
Qed.

Lemma sys_writeFile_ok p text m :
  p ≠ [] → lookup_node m (removelast p) = Some Dir → m !! p ≠ Some Dir →
  sys_writeFile p text m = (Ok (), <[p := File (Utf8.encode text)]> m).
Proof.
  intros Hp Hpar Hd. unfold sys_writeFile. destruct p as [|c p]; [done|].
  rewrite Hpar. destruct (m !! (c :: p)) as [[]|]; done.
Qed.

Lemma on_way_cons cur c rest q :
  on_way cur (c :: rest) q ↔ q = cur ++ [c] ∨ on_way (cur ++ [c]) rest q.
Proof.
  split.
  - intros (a & b & Hs & Ha & ->). destruct a as [|c' a]; [done|].
    injection Hs as <- ->. destruct a as [|c'' a]; [by left|].
    right. exists (c'' :: a), b. split_and!; [done..|].
    by rewrite <- app_assoc.
  - intros [->|(a & b & -> & Ha & ->)].
    + by exists [c], rest.
    + exists (c :: a), b. split_and!; [done..|]. by rewrite <- app_assoc.
Qed.

Lemma on_way_prefix cur segs q :
  on_way cur segs q → q `prefix_of` (cur ++ segs) ∧ q ≠ [].
Proof.
  intros (a & b & -> & Ha & ->). split.
  - exists b. by rewrite app_assoc.
  - destruct cur, a; done.
Qed.

Lemma on_way_root segs q :
  on_way [] segs q ↔ q `prefix_of` segs ∧ q ≠ [].
Proof.
  split; [apply on_way_prefix|].
  intros [[b ->] Hq]. by exists q, b.
Qed.

Lemma mkdir_from_changes cur segs m r m' :
  mkdir_from cur segs m = (r, m') →
  ∀ q, m' !! q = m !! q
       ∨ (m !! q = None ∧ m' !! q = Some Dir ∧ on_way cur segs q).
Proof.
  revert cur m. induction segs as [|c rest IH]; intros cur m; simpl.
  { intros [= _ <-] q. by left. }
  destruct (m !! (cur ++ [c])) as [[]|] eqn:Hc.
  - intros [= _ <-] q. by left.
  - intros H q. destruct (IH _ _ H q) as [?|(? & ? & ?)]; [by left|].
    right. split_and!; [done..|]. apply on_way_cons. by right.
  - intros H q. destruct (IH _ _ H q) as [Heq|(Hn & Hd & Hw)].
    + destruct (decide (cur ++ [c] = q)) as [<-|Hne].
      * right. rewrite Heq, lookup_insert_eq. split_and!; [done..|].
        apply on_way_cons. by left.
      * left. by rewrite Heq, lookup_insert_ne.
    + destruct (decide (cur ++ [c] = q)) as [<-|Hne].
      * by rewrite lookup_insert_eq in Hn.
      * rewrite lookup_insert_ne in Hn by done. right. split_and!; [done..|].
        apply on_way_cons. by right.
Qed.

Lemma mkdir_from_grows cur segs m r m' :
  mkdir_from cur segs m = (r, m') → grows m m'.
Proof.
  intros H q x Hq.
  destruct (mkdir_from_changes _ _ _ _ _ H q) as [Heq|(Hn & _)];
    [|congruence].
  exists x. split; [congruence | apply same_kind_refl].
Qed.

Lemma mkdir_from_ok cur segs m m' :
  mkdir_from cur segs m = (Ok (), m') →
  ∀ q, on_way cur segs q → m' !! q = Some Dir.
Proof.
  revert cur m. induction segs as [|c rest IH]; intros cur m; simpl.
  { intros _ q (a & b & Hs & Ha & _). by destruct a. }
  destruct (m !! (cur ++ [c])) as [[]|] eqn:Hc; [done| |].
  - intros H q [->|Hw]%on_way_cons; [|by eapply IH].
    eapply grows_dir; [by eapply mkdir_from_grows | done].
  - intros H q [->|Hw]%on_way_cons; [|by eapply IH].
    eapply grows_dir; [by eapply mkdir_from_grows |].
    by rewrite lookup_insert_eq.
Qed.

Lemma mkdir_from_settled cur segs m :
  (∀ q, on_way cur segs q → m !! q = Some Dir) →
  mkdir_from cur segs m = (Ok (), m).
Proof.
  revert cur. induction segs as [|c rest IH]; intros cur Hd; simpl; [done|].
  rewrite (Hd (cur ++ [c])) by (apply on_way_cons; by left).
  apply IH. intros q Hq. apply Hd, on_way_cons. by right.
Qed.

Lemma mkdir_from_throw_again cur segs m e m' :
  mkdir_from cur segs m = (Throw e, m') →
  mkdir_from cur segs m' = (Throw e, m').
Proof.
  revert cur m. induction segs as [|c rest IH]; intros cur m; simpl; [done|].
  destruct (m !! (cur ++ [c])) as [[]|] eqn:Hc.
  - intros [= <- <-]. by rewrite Hc.
  - intros H.
    rewrite (grows_dir _ _ _ (mkdir_from_grows _ _ _ _ _ H) Hc). by eapply IH.
  - intros H.
    rewrite (grows_dir _ _ _ (mkdir_from_grows _ _ _ _ _ H)
               (lookup_insert_eq _ _ _)).
    by eapply IH.
Qed.

(** Growth keeps [mkdir] failing: a file on the way is still there. *)
Lemma mkdir_from_throw_grows cur segs m e m' m2 :
  mkdir_from cur segs m = (Throw e, m') → grows m' m2 →
  ∃ m3, mkdir_from cur segs m2 = (Throw e, m3).
Proof.
  revert cur m m2. induction segs as [|c rest IH]; intros cur m m2; simpl;
    [done|].
  destruct (m !! (cur ++ [c])) as [[]|] eqn:Hc.
  - intros [= <- <-] Hg. destruct (Hg _ _ Hc) as ([] & -> & ?); [|done]. eauto.
  - intros H Hg.
    rewrite (grows_dir _ _ _ (grows_trans _ _ _ (mkdir_from_grows _ _ _ _ _ H) Hg) Hc).
    by eapply IH.
  - intros H Hg.
    rewrite (grows_dir _ _ _ (grows_trans _ _ _ (mkdir_from_grows _ _ _ _ _ H) Hg)
               (lookup_insert_eq _ _ _)).
    by eapply IH.
Qed.

(** *** Directory entries *)

Lemma entry_of_spec d p f : entry_of d p = Some f ↔ p = d ++ [f].
Proof.
  unfold entry_of. split.
  - case_decide as Hd; [|done]. destruct Hd as [Hp <-]. intros Hl.
    apply last_Some in Hl as [l' ->]. by rewrite removelast_last.
  - intros ->. rewrite decide_True.
    + by rewrite last_snoc.
    + split; [by destruct d | apply removelast_last].
Qed.

Lemma elem_of_entries (m : gmap path node) d f :
  f ∈ entries m d ↔ is_Some (m !! (d ++ [f])).
Proof.
  unfold entries. rewrite list_elem_of_omap. split.
  - intros (p & Hp & ->%entry_of_spec).
    apply list_elem_of_fmap in Hp as ([p' x] & -> & Hx).
    apply elem_of_map_to_list in Hx. by eexists.
  - intros [x Hx]. exists (d ++ [f]). split; [|by apply entry_of_spec].
    apply list_elem_of_fmap. exists (d ++ [f], x). split; [done|].
    by apply elem_of_map_to_list.
Qed.

Lemma NoDup_omap_inj {A B} (f : A → option B) (l : list A) :
  (∀ x y b, f x = Some b → f y = Some b → x = y) →
  NoDup l → NoDup (omap f l).
Proof.
  intros Hinj. induction 1 as [|a l Ha Hl IH]; cbn [omap list_omap].
  { constructor. }
  destruct (f a) as [b|] eqn:Hfa; [|done].
  constructor; [|done].
  intros (y & Hy & Hfy)%list_elem_of_omap.
  by rewrite (Hinj _ _ _ Hfa Hfy) in Ha.
Qed.

Lemma NoDup_entries (m : gmap path node) d : NoDup (entries m d).
Proof.
  unfold entries. apply NoDup_omap_inj; [|apply NoDup_fst_map_to_list].
  intros p q f ->%entry_of_spec ->%entry_of_spec. done.
Qed.

End NodeFacts.

Module StepFacts.
Import Path Node PathFacts GlobFacts NodeFacts Effects.

Section Steps.
Context (E : env).
Implicit Types (p q src dst d : path) (s : state) (m : gmap path node).
Implicit Types (o : op) (t : list event).

Lemma syscall_inv {A} o p (f : gmap path node → result A * gmap path node)
    s r s' :
  syscall E o p f s = (r, s') →
  trace s' = trace s ++ [Call o p (outcome r)] ∧
  ((refused E o p = true ∧ r = Throw (SystemError EACCES) ∧ fs s' = fs s)
   ∨ (refused E o p = false ∧ f (fs s) = (r, fs s'))).
Proof.
  unfold syscall. destruct (refused E o p).
  - intros [= <- <-]. simpl. split; [done|]. by left.
  - destruct (f (fs s)) as [r0 m0] eqn:Hf. intros [= <- <-]. simpl.
    split; [done|]. by right.
Qed.

Lemma syscall_refused {A} o p (f : gmap path node → result A * gmap path node) s :
  refused E o p = true →
  syscall E o p f s =
  (Throw (SystemError EACCES),
   {| fs := fs s; trace := trace s ++ [Call o p (Some (SystemError EACCES))] |}).
Proof. unfold syscall. by intros ->. Qed.

Lemma syscall_allowed {A} o p (f : gmap path node → result A * gmap path node)
    s r m :
  refused E o p = false → f (fs s) = (r, m) →
  syscall E o p f s =
  (r, {| fs := m; trace := trace s ++ [Call o p (outcome r)] |}).
Proof. unfold syscall. by intros -> ->. Qed.

(** *** [fileExists] *)

Lemma fileExists_eq p s :
  ∃ oc, fileExists E p s =
       (Ok (exists_at E (fs s) p),
        {| fs := fs s; trace := trace s ++ [Call Access p oc] |}).
Proof.
  unfold fileExists, access, exists_at.
  destruct (refused E Access p) eqn:Href.
  - eexists. erewrite try_catch_throw.
    2:{ erewrite bind_throw; [done|]. by apply syscall_refused. }
    done.
  - unfold sys_access. destruct (lookup_node (fs s) p) as [x|] eqn:Hl.
    + eexists. erewrite try_catch_ok.
      2:{ erewrite bind_ok; [done|]. apply syscall_allowed; [done|].
          unfold sys_access. by rewrite Hl. }
      done.
    + eexists. erewrite try_catch_throw.
      2:{ erewrite bind_throw; [done|]. apply syscall_allowed; [done|].
          unfold sys_access. by rewrite Hl. }
      done.
Qed.

(** *** Copying one file *)

Lemma can_copy_dec m src dst :
  (∃ bs, can_copy E m src dst bs) ∨ (∀ bs, ¬ can_copy E m src dst bs).
Proof.
  unfold can_copy.
  destruct (refused E ReadFile src);
    [right; intros ? (? & _); congruence|].
  destruct (lookup_node m src) as [[bs|]|];
    [|right; intros ? (_ & ? & _); congruence..].
  destruct (refused E WriteFile dst);
    [right; intros ? (_ & _ & ? & _); congruence|].
  destruct (decide (dst = []));
    [right; intros ? (_ & _ & _ & ? & _); congruence|].
  destruct (decide (lookup_node m (removelast dst) = Some Dir));
    [|right; intros ? (_ & _ & _ & _ & ? & _); congruence].
  destruct (decide (m !! dst = Some Dir));
    [right; intros ? (_ & _ & _ & _ & _ & ?); congruence|].
  left. exists bs. done.
Qed.

Lemma copy_block_copies src dst verbose copied failed count s bs :
  can_copy E (fs s) src dst bs →
  copy_block E src dst verbose copied failed count s =
  (Ok (S count),
   {| fs := <[dst := File (Utf8.recode bs)]> (fs s);
      trace := trace s ++ [Call ReadFile src None; Call WriteFile dst None]
               ++ (if verbose then [ConsoleLog copied] else []) |}).
Proof.
  intros (Hr & Hsrc & Hw & Hne & Hpar & Hdst).
  unfold copy_block. erewrite try_catch_ok; [done|].
  erewrite bind_ok.
  2:{ apply syscall_allowed; [done|]. unfold sys_readFile. by rewrite Hsrc. }
  erewrite bind_ok.
  2:{ apply syscall_allowed; [done|]. by apply sys_writeFile_ok. }
  simpl. unfold when, console_log, emit, mbind, M_bind, mret, M_ret.
  destruct verbose; simpl; rewrite <- !app_assoc; done.
Qed.

Lemma copy_block_fails src dst verbose copied failed count s :
  (∀ bs, ¬ can_copy E (fs s) src dst bs) →
  ∃ e t,
    copy_block E src dst verbose copied failed count s =
    (Ok count,
     {| fs := fs s; trace := trace s ++ t ++ [ConsoleError (failed e)] |})
    ∧ (t = [Call ReadFile src (Some e)]
       ∨ t = [Call ReadFile src None; Call WriteFile dst (Some e)]).
Proof.
  intros Hno. unfold copy_block.
  destruct (readFile E src s) as [[text|e] s1] eqn:Hread.
  - destruct (syscall_inv _ _ _ _ _ _ Hread)
      as [Ht1 [(_ & ? & _)|[Hr Hread']]]; [discriminate|].
    pose proof (sys_readFile_fs _ _ _ _ Hread') as Hfs1.
    destruct (writeFile E dst text s1) as [[[]|e] s2] eqn:Hwrite.
    + exfalso.
      destruct (syscall_inv _ _ _ _ _ _ Hwrite)
        as [Ht2 [(_ & ? & _)|[Hw Hwrite']]]; [discriminate|].
      apply sys_writeFile_inv in Hwrite'
        as [(_ & _ & Hne & Hdst & Hpar)|(? & ? & _)]; [|discriminate].
      unfold sys_readFile in Hread'.
      destruct (lookup_node (fs s) src) as [[bs|]|] eqn:Hsrc;
        try discriminate.
      apply (Hno bs). rewrite Hfs1 in *. split_and!; assumption.
    + exists e, [Call ReadFile src None; Call WriteFile dst (Some e)].
      split; [|by right].
      erewrite try_catch_throw.
      2:{ erewrite bind_ok by exact Hread.
          erewrite bind_throw by exact Hwrite. reflexivity. }
      destruct (syscall_inv _ _ _ _ _ _ Hwrite) as [Ht2 Hwrite'].
      assert (fs s2 = fs s) as Hfs2.
      { destruct Hwrite' as [(_ & _ & ->)|[_ Hwrite']]; [congruence|].
        apply sys_writeFile_inv in Hwrite' as [(? & _)|(? & _ & ->)];
          [discriminate | congruence]. }
      unfold console_error, emit, mbind, M_bind, mret, M_ret. simpl.
      rewrite Hfs2, Ht2, Ht1. simpl. rewrite <- !app_assoc. reflexivity.
  - exists e, [Call ReadFile src (Some e)]. split; [|by left].
    erewrite try_catch_throw.
    2:{ erewrite bind_throw by exact Hread. reflexivity. }
    destruct (syscall_inv _ _ _ _ _ _ Hread) as [Ht1 Hread'].
    assert (fs s1 = fs s) as Hfs1.
    { destruct Hread' as [(_ & _ & ->)|[_ Hread']]; [reflexivity|].
      by apply sys_readFile_fs in Hread'. }
    unfold console_error, emit, mbind, M_bind, mret, M_ret. simpl.
    rewrite Hfs1, Ht1. simpl. rewrite <- !app_assoc. reflexivity.
Qed.

(** *** The effect of the steps on the file system

    What each step of [processDependency] does to the file system and what
    it counts depends on the file system only; the functions below give both,
    and the lemmas after them say that the program computes them. *)

Lemma can_copy_source m src dst bs :
  can_copy E m src dst bs ↔ copy_source E m src dst = Some bs.
Proof.
  unfold can_copy, copy_source. split.
  - intros (-> & -> & -> & H). rewrite decide_True by exact H. reflexivity.
  - destruct (refused E ReadFile src); [discriminate|].
    destruct (lookup_node m src) as [[bs'|]|]; try discriminate.
    destruct (refused E WriteFile dst); [discriminate|].
    case_decide as H; [|discriminate]. intros [= ->]. tauto.
Qed.

Lemma copy_block_eq src dst verbose copied failed count s :
  file_event (ConsoleLog copied) = true →
  (∀ e, file_event (ConsoleError (failed e)) = true) →
  ∃ t, copy_block E src dst verbose copied failed count s =
       (Ok (count + n_copy E (fs s) src dst),
        {| fs := fs_copy E (fs s) src dst; trace := trace s ++ t |})
       ∧ Forall (λ e, file_event e = true) t
       ∧ (copy_source E (fs s) src dst = None →
          ∃ e, ConsoleError (failed e) ∈ t).
Proof.
  intros Hc Hf. unfold fs_copy, n_copy.
  destruct (copy_source E (fs s) src dst) as [bs|] eqn:Hsrc.
  - apply can_copy_source in Hsrc. eexists. split.
    { rewrite (copy_block_copies _ _ _ _ _ _ _ _ Hsrc).
      by replace (count + 1) with (S count) by lia. }
    split; [|discriminate].
    repeat constructor. destruct verbose; repeat constructor. exact Hc.
  - destruct (copy_block_fails src dst verbose copied failed count s)
      as (e & t & -> & Ht).
    { intros bs Hbs%can_copy_source. congruence. }
    eexists. split; [by rewrite Nat.add_0_r|]. split.
    + apply Forall_app. split; [|repeat constructor; apply Hf].
      destruct Ht as [-> | ->]; repeat constructor.
    + intros _. exists e. apply elem_of_app. right. apply list_elem_of_singleton.
      reflexivity.
Qed.

Lemma copyReadme_eq packageName packageDir outputDir verbose count s :
  ∃ t, copyReadme E packageName packageDir outputDir verbose count s =
       (Ok (count + n_readme E (fs s) packageDir outputDir),
        {| fs := fs_readme E (fs s) packageDir outputDir;
           trace := trace s ++ t |})
       ∧ Forall (λ e, file_event e = true) t
       ∧ (exists_at E (fs s) (join packageDir "README.md") = true →
          copy_source E (fs s) (join packageDir "README.md")
            (join outputDir "README.md") = None →
          ∃ e, ConsoleError (FailedReadme packageName e) ∈ t).
Proof.
  unfold copyReadme, fs_readme, n_readme.
  destruct (fileExists_eq (join packageDir "README.md") s) as [oc Hex].
  erewrite bind_ok by exact Hex.
  destruct (exists_at E (fs s) (join packageDir "README.md")).
  - edestruct (copy_block_eq (join packageDir "README.md")
                 (join outputDir "README.md") verbose
                 (CopiedReadme packageName) (FailedReadme packageName) count)
      as (t & Ht & Hall & Hfail); [done..|].
    unfold copy_block in Ht. eexists. split; [rewrite Ht; simpl|].
    { rewrite <- app_assoc. reflexivity. }
    split; [constructor; [done | exact Hall]|].
    intros _ Hnone. destruct (Hfail Hnone) as [e He]. exists e.
    by apply elem_of_cons; right.
  - eexists. split; [by rewrite Nat.add_0_r|]. split; [|discriminate].
    repeat constructor.
Qed.

Lemma getLicenseFiles_eq packageDir s :
  ∃ oc, getLicenseFiles E packageDir s =
        (Ok (license_files E (fs s) packageDir),
         {| fs := fs s; trace := trace s ++ [Call GlobDir packageDir oc] |}).
Proof.
  unfold getLicenseFiles, license_files, glob.
  destruct (refused E GlobDir packageDir) eqn:Href.
  { eexists. erewrite try_catch_throw by (by apply syscall_refused). done. }
  destruct (sys_glob (glob_nocase (os E)) "licen[cs]e*" packageDir (fs s))
    as [[files|e] m] eqn:Hglob.
  - pose proof (sys_glob_fs _ _ _ _ _ _ Hglob) as ->.
    eexists. erewrite try_catch_ok by (by apply syscall_allowed). done.
  - pose proof (sys_glob_fs _ _ _ _ _ _ Hglob) as ->.
    eexists. erewrite try_catch_throw by (by apply syscall_allowed). done.
Qed.

Lemma copyLicenses_eq packageName packageDir outputDir verbose files count s :
  ∃ t, copyLicenses E packageName packageDir outputDir verbose files count s =
       (Ok (count + n_licenses E (fs s) packageDir outputDir files),
        {| fs := fs_licenses E (fs s) packageDir outputDir files;
           trace := trace s ++ t |})
       ∧ Forall (λ e, file_event e = true) t.
Proof.
  revert count s. induction files as [|f rest IH]; intros count s; simpl.
  { exists []. rewrite Nat.add_0_r, app_nil_r. by destruct s. }
  edestruct (copy_block_eq (join packageDir f) (join outputDir f) verbose
               (CopiedLicense f packageName) (FailedLicense f packageName)
               count s) as (t1 & Ht1 & Hall1 & _); [done..|].
  unfold copy_block in Ht1.
  erewrite bind_ok by exact Ht1.
  edestruct IH as (t2 & -> & Hall2). exists (t1 ++ t2). simpl.
  split; [|by apply Forall_app].
  by rewrite Nat.add_assoc, app_assoc.
Qed.

(** *** One package and all packages *)

Lemma mkdir_eq p s :
  mkdir E p s =
  ((fs_mkdir E (fs s) p).1,
   {| fs := (fs_mkdir E (fs s) p).2;
      trace := trace s ++ [Call Mkdir p (outcome (fs_mkdir E (fs s) p).1)] |}).
Proof.
  unfold mkdir, syscall, fs_mkdir. destruct (refused E Mkdir p); [done|].
  by destruct (sys_mkdir p (fs s)).
Qed.

Lemma mkdir_calls_app t1 t2 :
  mkdir_calls (t1 ++ t2) = mkdir_calls t1 ++ mkdir_calls t2.
Proof. apply omap_app. Qed.

Lemma mkdir_calls_file_events t :
  Forall (λ e, file_event e = true) t → mkdir_calls t = [].
Proof.
  induction 1 as [|e t He _ IH]; [done|].
  unfold mkdir_calls in *. cbn [omap list_omap]. rewrite IH.
  by destruct e as [[] ? ?| |].
Qed.

Lemma processDependency_eq packageName outDirPath verbose s :
  ∃ t, processDependency E packageName outDirPath verbose s =
       ((fs_package E (fs s) packageName outDirPath).1,
        {| fs := (fs_package E (fs s) packageName outDirPath).2;
           trace := trace s
             ++ Call Mkdir (join outDirPath packageName)
                  (outcome (fs_package E (fs s) packageName outDirPath).1)
                :: t |})
       ∧ Forall (λ e, file_event e = true) t
       ∧ (∀ e, (fs_package E (fs s) packageName outDirPath).1 = Throw e →
            t = []).
Proof.
  unfold processDependency, fs_package.
  fold (package_dir E packageName).
  set (packageDir := package_dir E packageName).
  set (outputDir := join outDirPath packageName).
  rewrite (bind_inv_eq _ _ _ _ (mkdir_eq outputDir s)).
  destruct (fs_mkdir E (fs s) outputDir) as [[[]|e] m1]; simpl.
  2:{ exists []. done. }
  match goal with
  | |- context [(copyReadme E ?a ?b ?c ?d ?n ≫= _) ?st] =>
    destruct (copyReadme_eq a b c d n st) as (t1 & Ht1 & Hall1 & _)
  end.
  cbn [fs trace] in Ht1. rewrite (bind_inv_eq _ _ _ _ Ht1).
  match goal with
  | |- context [(getLicenseFiles E ?d ≫= _) ?st] =>
    destruct (getLicenseFiles_eq d st) as (oc & Hoc)
  end.
  cbn [fs trace] in Hoc. rewrite (bind_inv_eq _ _ _ _ Hoc).
  match goal with
  | |- context [(copyLicenses E ?a ?b ?c ?d ?fl ?n ≫= _) ?st] =>
    destruct (copyLicenses_eq a b c d fl n st) as (t2 & Ht2 & Hall2)
  end.
  cbn [fs trace] in Ht2. rewrite (bind_inv_eq _ _ _ _ Ht2).
  unfold n_files, fs_files. cbn [fst snd outcome].
  unfold when, console_log, emit, mret, M_ret, mbind, M_bind.
  cbn [Nat.add].
  destruct (bool_decide _ && verbose); cbn [fs trace];
    rewrite <- ?app_assoc; cbn [app]; (eexists; split; [reflexivity|]);
    (split; [|discriminate]);
    repeat first [ assumption | apply Forall_nil_2 | reflexivity
                 | apply Forall_app; split | apply Forall_cons; split ].
Qed.

End Steps.
End StepFacts.

Module EffectFacts.
Import Path Node PathFacts GlobFacts NodeFacts StepFacts Effects.

Section Effects.
Context (E : env).
Implicit Types (p q src dst d : path) (s : state) (m : gmap path node).
Implicit Types (o : op) (t : list event) (f g : string).

Local Abbreviation nocase := (glob_nocase (os E)).

Lemma app_singleton_inj (p q : path) (f g : string) :
  p ++ [f] = q ++ [g] → p = q ∧ f = g.
Proof. intros H. apply app_inj_tail in H. done. Qed.

Lemma lookup_node_snoc m p f : lookup_node m (p ++ [f]) = m !! (p ++ [f]).
Proof. by destruct p. Qed.

Lemma lookup_node_insert_ne m p q x :
  p ≠ q → lookup_node (<[p := x]> m) q = lookup_node m q.
Proof. intros Hne. destruct q; [done|]. simpl. by rewrite lookup_insert_ne. Qed.

(** *** One copy *)

Lemma copy_source_Some m src dst bs :
  copy_source E m src dst = Some bs →
  lookup_node m src = Some (File bs) ∧ dst ≠ []
  ∧ lookup_node m (removelast dst) = Some Dir ∧ m !! dst ≠ Some Dir.
Proof. intros H%can_copy_source. unfold can_copy in H. tauto. Qed.

Lemma copy_source_ext m m' src dst :
  lookup_node m' src = lookup_node m src →
  lookup_node m' (removelast dst) = lookup_node m (removelast dst) →
  m' !! dst = m !! dst →
  copy_source E m' src dst = copy_source E m src dst.
Proof. unfold copy_source. by intros -> -> ->. Qed.

Lemma fs_copy_other m src dst q :
  q ≠ dst → fs_copy E m src dst !! q = m !! q.
Proof.
  intros Hne. unfold fs_copy. destruct (copy_source E m src dst); [|done].
  apply lookup_insert_ne. congruence.
Qed.

Lemma fs_copy_dst m src dst bs :
  copy_source E m src dst = Some bs →
  fs_copy E m src dst !! dst = Some (File (Utf8.recode bs)).
Proof. unfold fs_copy. intros ->. apply lookup_insert_eq. Qed.

Lemma fs_copy_none m src dst :
  copy_source E m src dst = None → fs_copy E m src dst = m.
Proof. unfold fs_copy. by intros ->. Qed.

Lemma fs_copy_grows m src dst : grows m (fs_copy E m src dst).
Proof.
  unfold fs_copy. destruct (copy_source E m src dst) as [bs|] eqn:H.
  - apply grows_insert_file. apply copy_source_Some in H. tauto.
  - apply grows_refl.
Qed.

Lemma fs_copy_lookup_node_other m src dst q :
  q ≠ dst → lookup_node (fs_copy E m src dst) q = lookup_node m q.
Proof. intros Hne. destruct q; [done|]. by apply fs_copy_other. Qed.

(** A copy into a directory leaves the directories where they are. *)
Lemma fs_copy_lookup_node_dir m src dst q :
  lookup_node m q = Some Dir →
  lookup_node (fs_copy E m src dst) q = Some Dir.
Proof. apply grows_lookup_node_dir, fs_copy_grows. Qed.

(** *** The license files *)

Lemma elem_of_license_files m d f :
  f ∈ license_files E m d ↔
  refused E GlobDir d = false ∧ lookup_node m d = Some Dir
  ∧ is_Some (m !! (d ++ [f])) ∧ Glob.matches nocase Glob.licensePattern f = true.
Proof.
  unfold license_files, sys_glob.
  destruct (refused E GlobDir d).
  { split; [by intros ?%elem_of_nil | by intros (? & _)]. }
  destruct (lookup_node m d) as [[]|].
  - split; [by intros ?%elem_of_nil | by intros (_ & ? & _)].
  - rewrite list_elem_of_filter, elem_of_entries. unfold Glob.licensePattern.
    tauto.
  - split; [by intros ?%elem_of_nil | by intros (_ & ? & _)].
Qed.

Lemma NoDup_license_files m d : NoDup (license_files E m d).
Proof.
  unfold license_files, sys_glob.
  destruct (refused E GlobDir d); [constructor|].
  destruct (lookup_node m d) as [[]|]; try constructor.
  apply NoDup_filter, NoDup_entries.
Qed.

Lemma license_files_matches m d f :
  f ∈ license_files E m d → Glob.matches nocase Glob.licensePattern f = true.
Proof. intros H%elem_of_license_files. tauto. Qed.

(** *** The loop over the license files *)

Lemma license_names_cons g files :
  license_names E (g :: files) →
  Glob.matches nocase Glob.licensePattern g = true ∧ license_names E files.
Proof.
  intros H. split; [apply H; left|].
  intros g' Hg'. apply H. by right.
Qed.

Lemma fs_licenses_other m packageDir outputDir files q :
  (∀ g, g ∈ files → join outputDir g ≠ q) →
  fs_licenses E m packageDir outputDir files !! q = m !! q.
Proof.
  revert m. induction files as [|g files IH]; intros m Hq; simpl; [done|].
  rewrite IH by (intros g' ?; apply Hq; by right).
  apply fs_copy_other. intros ->. by apply (Hq g); [left|].
Qed.

Lemma fs_licenses_grows m packageDir outputDir files :
  grows m (fs_licenses E m packageDir outputDir files).
Proof.
  revert m. induction files as [|g files IH]; intros m; simpl.
  - apply grows_refl.
  - eapply grows_trans; [apply fs_copy_grows | apply IH].
Qed.

Lemma fs_licenses_copied m packageDir outputDir files f bs :
  NoDup files → license_names E files → f ∈ files →
  copy_source E m (packageDir ++ [f]) (outputDir ++ [f]) = Some bs →
  fs_licenses E m packageDir outputDir files !! (outputDir ++ [f])
  = Some (File (Utf8.recode bs)).
Proof.
  revert m. induction files as [|g files IH]; intros m Hnd Hnames Hf Hsrc.
  { by apply elem_of_nil in Hf. }
  apply NoDup_cons in Hnd as [Hg Hnd].
  apply license_names_cons in Hnames as [Hgm Hnames].
  simpl. rewrite !(matches_license_entry _ _ _ Hgm).
  apply elem_of_cons in Hf as [->|Hf].
  - rewrite fs_licenses_other.
    + by apply fs_copy_dst.
    + intros g' Hg'. rewrite (matches_license_entry _ _ _ (Hnames _ Hg')).
      intros [_ ->]%app_singleton_inj. done.
  - assert (f ≠ g) as Hne by (intros ->; done).
    apply IH; [done..|].
    rewrite <- Hsrc. apply copy_source_ext.
    + apply fs_copy_lookup_node_other. intros [_ ?]%app_singleton_inj. done.
    + rewrite removelast_last. apply fs_copy_lookup_node_other.
      intros Heq%(f_equal length). rewrite length_app in Heq. simpl in Heq. lia.
    + apply fs_copy_other. intros [_ ?]%app_singleton_inj. done.
Qed.

End Effects.
End EffectFacts.

Module RunFacts.
Import Path Node PathFacts GlobFacts NodeFacts StepFacts EffectFacts Effects.

Section Run.
Context (E : env).
Implicit Types (p q src dst d : path) (s : state) (m : gmap path node).
Implicit Types (o : op) (t : list event) (f g : string).

(** *** The loop over the packages *)

Lemma processAll_eq packageNames outDirPath verbose copiedCount skippedCount s :
  ∃ t, processAll E packageNames outDirPath verbose copiedCount skippedCount s
       = ((fs_all E (fs s) packageNames outDirPath copiedCount skippedCount).1,
          {| fs := (fs_all E (fs s) packageNames outDirPath copiedCount
                      skippedCount).2;
             trace := trace s ++ t |})
       ∧ Forall loop_event t
       ∧ mkdir_calls t = mkdirs_all E (fs s) packageNames outDirPath.
Proof.
  revert copiedCount skippedCount s.
  induction packageNames as [|packageName rest IH];
    intros copiedCount skippedCount s; cbn [processAll fs_all mkdirs_all].
  { exists []. rewrite app_nil_r. by destruct s. }
  destruct (processDependency_eq E packageName outDirPath verbose s)
    as (t1 & Hpd & Hall1 & Hthrow).
  rewrite (bind_inv_eq _ _ _ _ Hpd).
  destruct (fs_package E (fs s) packageName outDirPath) as [[n|e] m1];
    cbn [fst snd outcome] in *.
  - assert (∀ c k, ∃ t,
      processAll E rest outDirPath verbose c k
        {| fs := m1;
           trace := trace s
             ++ Call Mkdir (join outDirPath packageName) None :: t1 |}
      = ((fs_all E m1 rest outDirPath c k).1,
         {| fs := (fs_all E m1 rest outDirPath c k).2; trace := trace s ++ t |})
      ∧ Forall loop_event t
      ∧ mkdir_calls t
        = (join outDirPath packageName, None) :: mkdirs_all E m1 rest outDirPath)
      as Hrest.
    { intros c k.
      edestruct (IH c k) as (t2 & -> & Hall2 & Hm2). cbn [fs trace].
      exists (Call Mkdir (join outDirPath packageName) None :: t1 ++ t2).
      split; [by rewrite <- app_assoc|]. split.
      - constructor; [right; eauto|]. apply Forall_app. split; [|done].
        eapply Forall_impl; [exact Hall1|]. intros e He. by left.
      - change (Call Mkdir (join outDirPath packageName) None :: t1 ++ t2)
          with ([Call Mkdir (join outDirPath packageName) None] ++ t1 ++ t2).
        rewrite !mkdir_calls_app, (mkdir_calls_file_events _ Hall1), Hm2.
        reflexivity. }
    destruct (bool_decide (0 < n)); apply Hrest.
  - rewrite (Hthrow e eq_refl).
    exists [Call Mkdir (join outDirPath packageName) (Some e)].
    split; [done|]. split; [|done].
    constructor; [right; eauto | constructor].
Qed.

(** What the loop returns. *)
Lemma fs_all_counts m packageNames outDirPath copiedCount skippedCount c k m' :
  fs_all E m packageNames outDirPath copiedCount skippedCount = (Ok (c, k), m') →
  c + k = copiedCount + skippedCount + length packageNames.
Proof.
  revert m copiedCount skippedCount.
  induction packageNames as [|packageName rest IH];
    intros m copiedCount skippedCount; cbn [fs_all].
  { intros [= <- <- _]. simpl. lia. }
  destruct (fs_package E m packageName outDirPath) as [[n|e] m1]; [|done].
  destruct (bool_decide (0 < n)); intros H%IH; simpl; lia.
Qed.

Lemma mkdirs_all_ok m packageNames outDirPath copiedCount skippedCount x m' :
  fs_all E m packageNames outDirPath copiedCount skippedCount = (Ok x, m') →
  mkdirs_all E m packageNames outDirPath
  = (λ n, (join outDirPath n, None)) <$> packageNames.
Proof.
  revert m copiedCount skippedCount.
  induction packageNames as [|packageName rest IH];
    intros m copiedCount skippedCount; cbn [fs_all mkdirs_all]; [done|].
  destruct (fs_package E m packageName outDirPath) as [[n|e] m1]; [|done].
  cbn [fst outcome fmap list_fmap].
  destruct (bool_decide (0 < n)); intros H%IH; by rewrite H.
Qed.

Lemma mkdirs_all_throw m packageNames outDirPath copiedCount skippedCount e m' :
  fs_all E m packageNames outDirPath copiedCount skippedCount = (Throw e, m') →
  ∃ p, (p, Some e) ∈ mkdirs_all E m packageNames outDirPath.
Proof.
  revert m copiedCount skippedCount.
  induction packageNames as [|packageName rest IH];
    intros m copiedCount skippedCount; cbn [fs_all mkdirs_all]; [done|].
  destruct (fs_package E m packageName outDirPath) as [[n|e'] m1].
  - destruct (bool_decide (0 < n)); intros (p & Hp)%IH; exists p; by right.
  - intros [= -> _]. eexists. left.
Qed.

Lemma mkdirs_all_prefix m packageNames outDirPath :
  (mkdirs_all E m packageNames outDirPath).*1
  `prefix_of` (join outDirPath <$> packageNames).
Proof.
  revert m. induction packageNames as [|packageName rest IH]; intros m;
    cbn [mkdirs_all fmap list_fmap]; [done|].
  apply prefix_cons.
  destruct (fs_package E m packageName outDirPath) as [[n|e'] m1].
  - apply IH.
  - apply prefix_nil.
Qed.

(** *** The whole run *)

Lemma readPackageJson_eq s :
  let packageJsonPath := join (projectRoot E) "package.json" in
  match manifest_ok E with
  | Some packageJson =>
    readPackageJson E packageJsonPath s =
    (Ok packageJson,
     {| fs := fs s; trace := trace s ++ [Call ReadFile packageJsonPath None] |})
  | None =>
    ∃ e oc, readPackageJson E packageJsonPath s =
            (Throw e,
             {| fs := fs s;
                trace := trace s ++ [Call ReadFile packageJsonPath oc] |})
  end.
Proof.
  intros packageJsonPath. unfold manifest_ok, readPackageJson.
  fold packageJsonPath. unfold syscall, mbind, M_bind, mret, M_ret, throw.
  destruct (refused E ReadFile packageJsonPath), (manifest E); simpl; eauto.
Qed.

Lemma main_cases options s :
  let packageJsonPath := join (projectRoot E) "package.json" in
  let outDirPath := join (projectRoot E) (outdir options) in
  match manifest_ok E with
  | None =>
    ∃ e oc, main E options s =
      (1%Z, {| fs := fs s;
               trace := trace s ++ [Call ReadFile packageJsonPath oc;
                                    ConsoleError (ErrorExtracting e)] |})
  | Some packageJson =>
    let names := packageNames packageJson in
    if bool_decide (length names = 0) then
      main E options s =
      (0%Z, {| fs := fs s;
               trace := trace s ++ Call ReadFile packageJsonPath None
                        :: (if verbose options
                            then [ConsoleLog NoDependencies] else []) |})
    else
      match fs_mkdir E (fs s) outDirPath with
      | (Throw e, m1) =>
        main E options s =
        (1%Z, {| fs := m1;
                 trace := trace s ++ [Call ReadFile packageJsonPath None;
                                      Call Mkdir outDirPath (Some e);
                                      ConsoleError (ErrorExtracting e)] |})
      | (Ok _, m1) =>
        ∃ t, Forall loop_event t
             ∧ mkdir_calls t = mkdirs_all E m1 names outDirPath
             ∧ match fs_all E m1 names outDirPath 0 0 with
               | (Ok counts, m2) =>
                 main E options s =
                 (0%Z, {| fs := m2;
                          trace := trace s
                            ++ [Call ReadFile packageJsonPath None;
                                Call Mkdir outDirPath None]
                            ++ t ++ [ConsoleLog (Summary counts.1 counts.2
                                                   outDirPath)] |})
               | (Throw e, m2) =>
                 main E options s =
                 (1%Z, {| fs := m2;
                          trace := trace s
                            ++ [Call ReadFile packageJsonPath None;
                                Call Mkdir outDirPath None]
                            ++ t ++ [ConsoleError (ErrorExtracting e)] |})
               end
      end
  end.
Proof.
  intros packageJsonPath outDirPath. unfold main, extractNpmReadmes.
  fold packageJsonPath outDirPath.
  pose proof (readPackageJson_eq s) as Hread. cbv zeta in Hread.
  fold packageJsonPath in Hread.
  destruct (manifest_ok E) as [packageJson|].
  2:{ destruct Hread as (e & oc & Hread).
      rewrite (bind_inv_eq _ _ _ _ Hread). exists e, oc. cbn [fs trace].
      cbn [fs trace]; rewrite <- ?app_assoc; reflexivity. }
  rewrite (bind_inv_eq _ _ _ _ Hread). cbv zeta. unfold packageNames.
  destruct (bool_decide (length (JS.keys (allDependencies packageJson)) = 0)).
  { unfold when, console_log, emit, mret, M_ret.
    destruct (verbose options); cbn [fs trace]; [|reflexivity].
    cbn [fs trace]; rewrite <- ?app_assoc; reflexivity. }
  rewrite (bind_inv_eq _ _ _ _ (mkdir_eq E outDirPath _)). cbn [fs trace].
  destruct (fs_mkdir E (fs s) outDirPath) as [[[]|e] m1]; cbn [fst snd outcome].
  2:{ cbn [fs trace]; rewrite <- ?app_assoc; reflexivity. }
  match goal with
  | |- context [(processAll E ?a ?b ?c ?d ?e ≫= _) ?st] =>
    destruct (processAll_eq a b c d e st) as (t & Ht & Hall & Hmk)
  end.
  cbn [fs trace] in Ht, Hmk. exists t. split; [done|]. split; [done|].
  rewrite (bind_inv_eq _ _ _ _ Ht).
  destruct (fs_all E m1 (JS.keys (allDependencies packageJson)) outDirPath 0 0)
    as [[counts|e] m2]; cbn [fst snd].
  - unfold console_log, emit. cbn [fs trace]. cbn [fs trace]; rewrite <- ?app_assoc; reflexivity.
  - cbn [fs trace]. cbn [fs trace]; rewrite <- ?app_assoc; reflexivity.
Qed.

End Run.
End RunFacts.

Module PackageFacts.
Import Path Node Effects.
Import PathFacts GlobFacts NodeFacts StepFacts EffectFacts RunFacts.

Section Package.
Context (E : env).
Implicit Types (p q src dst d : path) (s : state) (m : gmap path node).
Implicit Types (o : op) (t : list event) (f g : string).

Local Abbreviation nocase := (glob_nocase (os E)).

(** *** Making a directory *)

Lemma snoc_not_prefix p f : ¬ (p ++ [f]) `prefix_of` p.
Proof.
  intros Hp%prefix_length. rewrite length_app in Hp. simpl in Hp. lia.
Qed.

Lemma snoc_ne p f : p ≠ p ++ [f].
Proof.
  intros H%(f_equal length). rewrite length_app in H. simpl in H. lia.
Qed.

Lemma fs_mkdir_changes m p r m1 :
  fs_mkdir E m p = (r, m1) →
  ∀ q, m1 !! q = m !! q
       ∨ (m !! q = None ∧ m1 !! q = Some Dir ∧ q `prefix_of` p ∧ q ≠ []).
Proof.
  unfold fs_mkdir, sys_mkdir. destruct (refused E Mkdir p).
  { intros [= _ <-] q. by left. }
  intros H q.
  destruct (mkdir_from_changes _ _ _ _ _ H q) as [?|(? & ? & Hw)]; [by left|].
  right. apply on_way_root in Hw. tauto.
Qed.

Lemma fs_mkdir_grows m p r m1 : fs_mkdir E m p = (r, m1) → grows m m1.
Proof.
  intros H q x Hq.
  destruct (fs_mkdir_changes _ _ _ _ H q) as [Heq|(Hn & _)]; [|congruence].
  exists x. split; [congruence | apply same_kind_refl].
Qed.

Lemma fs_mkdir_keeps m p r m1 q x :
  fs_mkdir E m p = (r, m1) → m !! q = Some x → m1 !! q = Some x.
Proof.
  intros H Hq.
  destruct (fs_mkdir_changes _ _ _ _ H q) as [Heq|(Hn & _)]; congruence.
Qed.

Lemma fs_mkdir_off_way m p r m1 q :
  fs_mkdir E m p = (r, m1) → ¬ q `prefix_of` p → m1 !! q = m !! q.
Proof.
  intros H Hq.
  destruct (fs_mkdir_changes _ _ _ _ H q) as [Heq|(_ & _ & ? & _)]; done.
Qed.

Lemma fs_mkdir_ok m p m1 :
  fs_mkdir E m p = (Ok (), m1) →
  ∀ q, q `prefix_of` p → lookup_node m1 q = Some Dir.
Proof.
  unfold fs_mkdir, sys_mkdir. destruct (refused E Mkdir p); [done|].
  intros H q Hq. destruct q as [|c q]; [done|].
  eapply mkdir_from_ok; [exact H|]. by apply on_way_root.
Qed.

Lemma fs_mkdir_settled m p :
  refused E Mkdir p = false →
  (∀ q, q `prefix_of` p → lookup_node m q = Some Dir) →
  fs_mkdir E m p = (Ok (), m).
Proof.
  intros Href Hd. unfold fs_mkdir, sys_mkdir. rewrite Href.
  apply mkdir_from_settled. intros q [Hq Hne]%on_way_root.
  specialize (Hd q Hq). by destruct q.
Qed.

Lemma fs_mkdir_throw_again m p e m1 m2 :
  fs_mkdir E m p = (Throw e, m1) → grows m1 m2 →
  ∃ m3, fs_mkdir E m2 p = (Throw e, m3).
Proof.
  unfold fs_mkdir, sys_mkdir. destruct (refused E Mkdir p).
  { intros [= <- <-] _. eauto. }
  apply mkdir_from_throw_grows.
Qed.

Lemma fs_mkdir_throw_same m p e m1 :
  fs_mkdir E m p = (Throw e, m1) → fs_mkdir E m1 p = (Throw e, m1).
Proof.
  unfold fs_mkdir, sys_mkdir. destruct (refused E Mkdir p).
  { by intros [= <- <-]. }
  apply mkdir_from_throw_again.
Qed.

(** *** The README step *)

Lemma fs_readme_other m packageDir outputDir q :
  q ≠ outputDir ++ ["README.md"] →
  fs_readme E m packageDir outputDir !! q = m !! q.
Proof.
  intros Hq. unfold fs_readme. rewrite !join_literal.
  destruct (exists_at E m _); [|done]. by apply fs_copy_other.
Qed.

Lemma fs_readme_grows m packageDir outputDir :
  grows m (fs_readme E m packageDir outputDir).
Proof.
  unfold fs_readme. destruct (exists_at E m _);
    [apply fs_copy_grows | apply grows_refl].
Qed.

Lemma fs_readme_copied m packageDir outputDir bs :
  exists_at E m (packageDir ++ ["README.md"]) = true →
  copy_source E m (packageDir ++ ["README.md"]) (outputDir ++ ["README.md"])
  = Some bs →
  fs_readme E m packageDir outputDir !! (outputDir ++ ["README.md"])
  = Some (File (Utf8.recode bs)).
Proof.
  intros Hex Hsrc. unfold fs_readme. rewrite !join_literal, Hex.
  by apply fs_copy_dst.
Qed.

Lemma lookup_node_other_snoc m m' p :
  (∀ q, q ≠ [] → m' !! q = m !! q) → lookup_node m' p = lookup_node m p.
Proof. intros H. destruct p; [done|]. by apply H. Qed.

(** *** The files of one package *)

Lemma fs_files_grows m packageDir outputDir :
  grows m (fs_files E m packageDir outputDir).
Proof.
  unfold fs_files. eapply grows_trans;
    [apply fs_readme_grows | apply fs_licenses_grows].
Qed.

Lemma license_names_license_files m d : license_names E (license_files E m d).
Proof. intros g. apply license_files_matches. Qed.

Lemma license_join g p :
  Glob.matches nocase Glob.licensePattern g = true → join p g = p ++ [g].
Proof. apply matches_license_entry. Qed.

Lemma fs_files_readme m packageDir outputDir bs :
  exists_at E m (packageDir ++ ["README.md"]) = true →
  copy_source E m (packageDir ++ ["README.md"]) (outputDir ++ ["README.md"])
  = Some bs →
  fs_files E m packageDir outputDir !! (outputDir ++ ["README.md"])
  = Some (File (Utf8.recode bs)).
Proof.
  intros Hex Hsrc. unfold fs_files. cbv zeta.
  rewrite fs_licenses_other; [by apply fs_readme_copied|].
  intros g Hg%license_files_matches.
  rewrite (license_join _ _ Hg). intros [_ ->]%app_singleton_inj.
  by apply matches_license_not_readme in Hg.
Qed.

(** The README step neither adds nor removes a license file of the package
    and does not change whether one can be copied. *)
Lemma fs_readme_license_files m packageDir outputDir f :
  f ∈ license_files E m packageDir →
  f ∈ license_files E (fs_readme E m packageDir outputDir) packageDir.
Proof.
  rewrite !elem_of_license_files. intros (Href & Hd & [x Hx] & Hm).
  split_and!; [done | | | done].
  - eapply grows_lookup_node_dir; [apply fs_readme_grows | done].
  - destruct (fs_readme_grows m packageDir outputDir _ _ Hx) as (y & -> & _).
    by eexists.
Qed.

Lemma fs_readme_copy_source m packageDir outputDir f :
  f ≠ "README.md" →
  copy_source E (fs_readme E m packageDir outputDir)
    (packageDir ++ [f]) (outputDir ++ [f])
  = copy_source E m (packageDir ++ [f]) (outputDir ++ [f]).
Proof.
  intros Hf. apply copy_source_ext.
  - rewrite !lookup_node_snoc. apply fs_readme_other.
    intros [_ ?]%app_singleton_inj. done.
  - rewrite removelast_last. destruct outputDir as [|c o'] eqn:Ho; [done|].
    rewrite <- Ho. cbn [lookup_node]. rewrite Ho. apply fs_readme_other.
    rewrite <- Ho. apply snoc_ne.
  - apply fs_readme_other. intros [_ ?]%app_singleton_inj. done.
Qed.

Lemma fs_files_license m packageDir outputDir f bs :
  f ∈ license_files E m packageDir →
  copy_source E m (packageDir ++ [f]) (outputDir ++ [f]) = Some bs →
  fs_files E m packageDir outputDir !! (outputDir ++ [f])
  = Some (File (Utf8.recode bs)).
Proof.
  intros Hf Hsrc. unfold fs_files. cbv zeta.
  apply fs_licenses_copied.
  - apply NoDup_license_files.
  - apply license_names_license_files.
  - by apply fs_readme_license_files.
  - rewrite fs_readme_copy_source; [done|].
    by apply license_files_matches, matches_license_not_readme in Hf.
Qed.

(** *** From the state before [mkdir] to the state after it *)

Lemma copy_source_after_mkdir m packageDir outputDir m1 x bs :
  fs_mkdir E m outputDir = (Ok (), m1) →
  refused E ReadFile (packageDir ++ [x]) = false →
  refused E WriteFile (outputDir ++ [x]) = false →
  m !! (packageDir ++ [x]) = Some (File bs) →
  m !! (outputDir ++ [x]) ≠ Some Dir →
  copy_source E m1 (packageDir ++ [x]) (outputDir ++ [x]) = Some bs.
Proof.
  intros Hmk Hr Hw Hsrc Hdst. apply can_copy_source. unfold can_copy.
  split_and!; [done | | done | by destruct outputDir | |].
  - rewrite lookup_node_snoc. by eapply fs_mkdir_keeps.
  - rewrite removelast_last. by eapply fs_mkdir_ok.
  - rewrite (fs_mkdir_off_way _ _ _ _ _ Hmk); [done | apply snoc_not_prefix].
Qed.

Lemma exists_at_after_mkdir m p r m1 q x :
  fs_mkdir E m p = (r, m1) → refused E Access q = false →
  m !! q = Some x → exists_at E m1 q = true.
Proof.
  intros Hmk Ha Hq. unfold exists_at. rewrite Ha. simpl.
  apply bool_decide_eq_true. destruct q; [by eexists|].
  simpl. rewrite (fs_mkdir_keeps _ _ _ _ _ _ Hmk Hq). by eexists.
Qed.

Lemma license_files_after_mkdir m p r m1 packageDir f x :
  fs_mkdir E m p = (r, m1) → refused E GlobDir packageDir = false →
  lookup_node m packageDir = Some Dir → m !! (packageDir ++ [f]) = Some x →
  Glob.matches nocase Glob.licensePattern f = true →
  f ∈ license_files E m1 packageDir.
Proof.
  intros Hmk Href Hd Hx Hm. apply elem_of_license_files.
  split_and!; [done | | | done].
  - eapply grows_lookup_node_dir; [by eapply fs_mkdir_grows | done].
  - rewrite (fs_mkdir_keeps _ _ _ _ _ _ Hmk Hx). by eexists.
Qed.

(** *** One package *)

Lemma fs_package_ok m packageName outDirPath n m' :
  fs_package E m packageName outDirPath = (Ok n, m') →
  ∃ m1, fs_mkdir E m (join outDirPath packageName) = (Ok (), m1)
        ∧ n = n_files E m1 (package_dir E packageName)
                (join outDirPath packageName)
        ∧ m' = fs_files E m1 (package_dir E packageName)
                 (join outDirPath packageName).
Proof.
  unfold fs_package.
  destruct (fs_mkdir E m (join outDirPath packageName)) as [[[]|e] m1];
    [|done].
  intros [= <- <-]. eauto.
Qed.

Lemma fs_package_throw m packageName outDirPath e m' :
  fs_package E m packageName outDirPath = (Throw e, m') →
  fs_mkdir E m (join outDirPath packageName) = (Throw e, m').
Proof.
  unfold fs_package.
  destruct (fs_mkdir E m (join outDirPath packageName)) as [[[]|e'] m1];
    [done|]. by intros [= <- <-].
Qed.

Lemma fs_package_grows m packageName outDirPath r m' :
  fs_package E m packageName outDirPath = (r, m') → grows m m'.
Proof.
  destruct r as [n|e].
  - intros (m1 & Hmk & _ & ->)%fs_package_ok.
    eapply grows_trans; [by eapply fs_mkdir_grows | apply fs_files_grows].
  - intros Hmk%fs_package_throw. by eapply fs_mkdir_grows.
Qed.

Lemma fs_package_dirs m packageName outDirPath n m' q :
  fs_package E m packageName outDirPath = (Ok n, m') →
  q `prefix_of` join outDirPath packageName → lookup_node m' q = Some Dir.
Proof.
  intros (m1 & Hmk & _ & ->)%fs_package_ok Hq.
  eapply grows_lookup_node_dir; [apply fs_files_grows|].
  by eapply fs_mkdir_ok.
Qed.

Lemma fs_all_grows m packageNames outDirPath c k r m' :
  fs_all E m packageNames outDirPath c k = (r, m') → grows m m'.
Proof.
  revert m c k. induction packageNames as [|packageName rest IH];
    intros m c k; cbn [fs_all].
  { intros [= _ <-]. apply grows_refl. }
  destruct (fs_package E m packageName outDirPath) as [[n|e] m1] eqn:Hp.
  - destruct (bool_decide (0 < n)); intros H%IH;
      (eapply grows_trans; [by eapply fs_package_grows | done]).
  - intros [= _ <-]. by eapply fs_package_grows.
Qed.

Lemma fs_all_dirs m packageNames outDirPath c k x m' packageName q :
  fs_all E m packageNames outDirPath c k = (Ok x, m') →
  packageName ∈ packageNames →
  q `prefix_of` join outDirPath packageName → lookup_node m' q = Some Dir.
Proof.
  revert m c k. induction packageNames as [|name rest IH];
    intros m c k; cbn [fs_all].
  { by intros _ ?%elem_of_nil. }
  destruct (fs_package E m name outDirPath) as [[n|e] m1] eqn:Hp; [|done].
  intros Hall [->|Hin]%elem_of_cons Hq.
  - eapply grows_lookup_node_dir; [|by eapply fs_package_dirs].
    destruct (bool_decide (0 < n)); by eapply fs_all_grows.
  - destruct (bool_decide (0 < n)); by eapply IH.
Qed.

End Package.
End PackageFacts.

Module AgainFacts.
Import Path Node Effects.
Import PathFacts GlobFacts NodeFacts StepFacts EffectFacts RunFacts PackageFacts.

Section Settled.
Context (E : env).
Implicit Types (p q src dst d : path) (s : state) (m : gmap path node).
Implicit Types (o : op) (t : list event) (f g : string).

(** *** What one package changes *)

Lemma fs_files_frame m packageDir outputDir q :
  (∀ x, q ≠ outputDir ++ [x]) →
  fs_files E m packageDir outputDir !! q = m !! q.
Proof.
  intros Hq. unfold fs_files. cbv zeta.
  rewrite fs_licenses_other.
  - apply fs_readme_other, Hq.
  - intros g Hg%license_files_matches. rewrite (license_join _ _ _ Hg).
    intros Heq. by apply (Hq g).
Qed.

Lemma snoc_dec q d : (∃ x, q = d ++ [x]) ∨ (∀ x, q ≠ d ++ [x]).
Proof.
  destruct (entry_of d q) as [x|] eqn:Hx.
  - left. exists x. by apply entry_of_spec.
  - right. intros x Hq%entry_of_spec. congruence.
Qed.

Lemma fs_package_changes m packageName outDirPath r m' :
  fs_package E m packageName outDirPath = (r, m') →
  ∀ q, m' !! q = m !! q
       ∨ (m !! q = None ∧ m' !! q = Some Dir
          ∧ q `prefix_of` join outDirPath packageName)
       ∨ (∃ x, q = join outDirPath packageName ++ [x]).
Proof.
  intros Hp q. destruct r as [n|e].
  - apply fs_package_ok in Hp as (m1 & Hmk & _ & ->).
    destruct (snoc_dec q (join outDirPath packageName))
      as [?|Hno]; [by right; right|].
    rewrite fs_files_frame by exact Hno.
    destruct (fs_mkdir_changes _ _ _ _ _ Hmk q) as [?|(? & ? & ? & _)];
      [by left | right; left; done].
  - apply fs_package_throw in Hp.
    destruct (fs_mkdir_changes _ _ _ _ _ Hp q) as [?|(? & ? & ? & _)];
      [by left | right; left; done].
Qed.

(** *** A package whose files are in place *)

Lemma fs_copy_fixed m src dst :
  (∀ bs, copy_source E m src dst = Some bs →
         m !! dst = Some (File (Utf8.recode bs))) →
  fs_copy E m src dst = m.
Proof.
  intros H. unfold fs_copy. destruct (copy_source E m src dst) as [bs|];
    [|done]. apply insert_id. by apply H.
Qed.

Lemma fs_licenses_fixed m packageDir outputDir files :
  license_names E files →
  (∀ f bs, f ∈ files →
           copy_source E m (packageDir ++ [f]) (outputDir ++ [f]) = Some bs →
           m !! (outputDir ++ [f]) = Some (File (Utf8.recode bs))) →
  fs_licenses E m packageDir outputDir files = m.
Proof.
  induction files as [|g files IH]; intros Hnames H; [done|].
  apply license_names_cons in Hnames as [Hgm Hnames].
  cbn [fs_licenses]. rewrite !(license_join _ _ _ Hgm).
  rewrite fs_copy_fixed by (intros bs; apply H; left).
  apply IH; [done|]. intros f bs Hf. apply H. by right.
Qed.

Lemma fs_files_fixed m packageDir outputDir :
  readme_settled E m packageDir outputDir →
  licenses_settled E m packageDir outputDir →
  fs_files E m packageDir outputDir = m.
Proof.
  intros Hr Hl. unfold fs_files. cbv zeta.
  assert (fs_readme E m packageDir outputDir = m) as ->.
  { unfold fs_readme. rewrite !join_literal.
    destruct (exists_at E m _) eqn:Hex; [|done].
    apply fs_copy_fixed. by apply Hr. }
  apply fs_licenses_fixed; [apply license_names_license_files|].
  intros f bs. apply Hl.
Qed.

Lemma fixed_readme_settled m packageDir outputDir :
  fs_files E m packageDir outputDir = m → readme_settled E m packageDir outputDir.
Proof.
  intros Hfix Hex bs Hsrc. rewrite <- Hfix at 1. by apply fs_files_readme.
Qed.

Lemma fixed_licenses_settled m packageDir outputDir :
  fs_files E m packageDir outputDir = m →
  licenses_settled E m packageDir outputDir.
Proof.
  intros Hfix f bs Hf Hsrc. rewrite <- Hfix at 1. by apply fs_files_license.
Qed.

Lemma fs_mkdir_Ok_refused m p u m1 :
  fs_mkdir E m p = (Ok u, m1) → refused E Mkdir p = false.
Proof. unfold fs_mkdir. by destruct (refused E Mkdir p). Qed.

Lemma settled_package m packageName outDirPath :
  settled E m (package_dir E packageName) (join outDirPath packageName) →
  ∃ n, fs_package E m packageName outDirPath = (Ok n, m).
Proof.
  intros [Hmk Hfix]. unfold fs_package. rewrite Hmk, Hfix. eauto.
Qed.

(** Two states that agree where the steps of a package look. *)
Lemma exists_at_ext m m' p :
  lookup_node m' p = lookup_node m p → exists_at E m' p = exists_at E m p.
Proof. unfold exists_at. by intros ->. Qed.

Lemma license_files_ext m m' d f :
  lookup_node m' d = lookup_node m d → m' !! (d ++ [f]) = m !! (d ++ [f]) →
  f ∈ license_files E m' d → f ∈ license_files E m d.
Proof. rewrite !elem_of_license_files. by intros -> ->. Qed.

Lemma lookup_node_eq m m' p : m' !! p = m !! p → lookup_node m' p = lookup_node m p.
Proof. by destruct p. Qed.

(** The files of a package stay in place when the state changes without
    touching its sources, its output directory stays a directory, and each
    copy is as it was unless it has become a directory. *)
Lemma settled_transfer m m' packageDir outputDir :
  lookup_node m' packageDir = lookup_node m packageDir →
  (∀ y, m' !! (packageDir ++ [y]) = m !! (packageDir ++ [y])) →
  lookup_node m outputDir = Some Dir →
  lookup_node m' outputDir = Some Dir →
  (∀ y, m' !! (outputDir ++ [y]) = m !! (outputDir ++ [y])
        ∨ m' !! (outputDir ++ [y]) = Some Dir) →
  fs_files E m packageDir outputDir = m →
  fs_files E m' packageDir outputDir = m'.
Proof.
  intros Hdir Hsrc Hout Hout' Hdst Hfix.
  assert (∀ y bs, copy_source E m' (packageDir ++ [y]) (outputDir ++ [y])
                  = Some bs →
                  copy_source E m (packageDir ++ [y]) (outputDir ++ [y])
                  = Some bs
                  ∧ m' !! (outputDir ++ [y]) = m !! (outputDir ++ [y]))
    as Hback.
  { intros y bs Hcs.
    assert (m' !! (outputDir ++ [y]) = m !! (outputDir ++ [y])) as Heq.
    { destruct (Hdst y) as [?|Hd]; [done|].
      apply copy_source_Some in Hcs as (_ & _ & _ & ?). done. }
    split; [|done]. rewrite <- Hcs. apply copy_source_ext.
    - symmetry. apply lookup_node_eq, Hsrc.
    - rewrite removelast_last. congruence.
    - done. }
  apply fs_files_fixed.
  - intros Hex bs Hcs. destruct (Hback _ _ Hcs) as [Hcs' ->].
    apply (fixed_readme_settled _ _ _ Hfix); [|done].
    etrans; [|exact Hex]. symmetry. apply exists_at_ext, lookup_node_eq, Hsrc.
  - intros f bs Hf Hcs. destruct (Hback _ _ Hcs) as [Hcs' ->].
    apply (fixed_licenses_settled _ _ _ Hfix); [|done].
    eapply license_files_ext; [exact Hdir | apply Hsrc | done].
Qed.

(** After its files are handled, a package whose sources are apart from its
    output directory is settled. *)
Lemma fs_files_settles m packageDir outputDir :
  apart outputDir packageDir →
  lookup_node m outputDir = Some Dir →
  fs_files E (fs_files E m packageDir outputDir) packageDir outputDir
  = fs_files E m packageDir outputDir.
Proof.
  intros [Hap1 Hap2] Hout.
  set (m' := fs_files E m packageDir outputDir).
  assert (∀ y, m' !! (packageDir ++ [y]) = m !! (packageDir ++ [y])) as Hsrc.
  { intros y. apply fs_files_frame. intros x [-> _]%app_singleton_inj.
    by apply Hap1. }
  assert (lookup_node m' packageDir = lookup_node m packageDir) as Hdir.
  { apply lookup_node_eq, fs_files_frame. intros x ->. apply Hap1.
    by apply prefix_app_r. }
  assert (∀ y bs, copy_source E m' (packageDir ++ [y]) (outputDir ++ [y])
                  = Some bs →
                  copy_source E m (packageDir ++ [y]) (outputDir ++ [y])
                  = Some bs) as Hback.
  { intros y bs Hcs. apply can_copy_source.
    apply can_copy_source in Hcs as (Hr & Hs & Hw & Hne & _ & Hd).
    unfold can_copy. split_and!; [done | | done | done | |].
    - rewrite <- Hs. symmetry. apply lookup_node_eq, Hsrc.
    - by rewrite removelast_last.
    - eapply grows_not_dir; [apply fs_files_grows | exact Hd]. }
  apply fs_files_fixed.
  - intros Hex bs Hcs. apply fs_files_readme; [|by apply Hback].
    etrans; [|exact Hex]. symmetry. apply exists_at_ext, lookup_node_eq, Hsrc.
  - intros f bs Hf Hcs. apply fs_files_license; [|by apply Hback].
    eapply license_files_ext; [exact Hdir | apply Hsrc | done].
Qed.

End Settled.
Section Again.
Context (E : env) (outDirPath : path).
Hypothesis Hapart : apart outDirPath (join (projectRoot E) "node_modules").
Implicit Types (p q : path) (m : gmap path node) (n : string).

Local Abbreviation settled_at m n :=
  (settled E m (package_dir E n) (join outDirPath n)).

Lemma dirs_apart n (k : string) :
  plain n → plain k → apart (join outDirPath n) (package_dir E k).
Proof.
  intros Hn Hk. unfold package_dir.
  rewrite (join_plain _ n), (join_plain _ k) by done.
  by apply apart_app.
Qed.

Lemma dirs_coherent n (k : string) :
  plain n → plain k → join outDirPath n = join outDirPath k →
  package_dir E n = package_dir E k.
Proof.
  intros Hn Hk. unfold package_dir.
  rewrite !(join_plain _ n), !(join_plain _ k) by done.
  intros H%app_inv_head. by rewrite H.
Qed.

Lemma package_settles m n c m' :
  plain n → fs_package E m n outDirPath = (Ok c, m') → settled_at m' n.
Proof.
  intros Hn (m1 & Hmk & _ & ->)%fs_package_ok. split.
  - apply fs_mkdir_settled; [by eapply fs_mkdir_Ok_refused|].
    intros q Hq. eapply grows_lookup_node_dir; [apply fs_files_grows|].
    by eapply fs_mkdir_ok.
  - apply fs_files_settles; [by apply dirs_apart|].
    by eapply fs_mkdir_ok.
Qed.

Lemma package_keeps m n (k : string) r m' :
  plain n → plain k → settled_at m n →
  fs_package E m k outDirPath = (r, m') → settled_at m' n.
Proof.
  intros Hn Hk [Hmk Hfix] Hp.
  destruct (decide (join outDirPath k = join outDirPath n)) as [Heq|Hne].
  { destruct r as [c|e].
    - rewrite <- Heq, <- (dirs_coherent k n) by done. by eapply package_settles.
    - apply fs_package_throw in Hp. rewrite Heq in Hp. congruence. }
  destruct (dirs_apart k n Hk Hn) as [Hap1 Hap2].
  pose proof (fs_package_changes E _ _ _ _ _ Hp) as Hch.
  pose proof (fs_package_grows E _ _ _ _ _ Hp) as Hgr.
  split.
  - apply fs_mkdir_settled; [by eapply fs_mkdir_Ok_refused|].
    intros q Hq. eapply grows_lookup_node_dir; [exact Hgr|].
    by eapply fs_mkdir_ok.
  - apply (settled_transfer E m m'); [| | | |  | exact Hfix].
    + apply lookup_node_eq.
      destruct (Hch (package_dir E n)) as [?|[(_ & _ & Hq)|[x Hq]]];
        [done | done |]. exfalso. apply Hap1. rewrite Hq.
      by apply prefix_app_r.
    + intros y.
      destruct (Hch (package_dir E n ++ [y])) as [?|[(_ & _ & Hq)|[x Hq]]];
        [done | |]; exfalso.
      * apply Hap2. etrans; [|exact Hq]. by apply prefix_app_r.
      * apply app_singleton_inj in Hq as [Hq _]. apply Hap2. by rewrite Hq.
    + by eapply fs_mkdir_ok.
    + eapply grows_lookup_node_dir; [exact Hgr|]. by eapply fs_mkdir_ok.
    + intros y.
      destruct (Hch (join outDirPath n ++ [y])) as [?|[(_ & ? & _)|[x Hq]]];
        [by left | by right |].
      apply app_singleton_inj in Hq as [Hq _]. congruence.
Qed.

Lemma fs_all_settles names : ∀ m c k r m',
  Forall plain names →
  fs_all E m names outDirPath c k = (r, m') →
  (∀ n, plain n → settled_at m n → settled_at m' n)
  ∧ match r with
    | Ok _ => ∀ n, n ∈ names → settled_at m' n
    | Throw e =>
      ∃ before name after,
        names = before ++ name :: after
        ∧ (∀ n, n ∈ before → settled_at m' n)
        ∧ fs_mkdir E m' (join outDirPath name) = (Throw e, m')
    end.
Proof.
  induction names as [|name rest IH]; intros m c k r m' Hplain; cbn [fs_all].
  { intros [= <- <-]. split; [done|]. by intros n ?%elem_of_nil. }
  apply Forall_cons in Hplain as [Hname Hrest].
  destruct (fs_package E m name outDirPath) as [[cnt|e] m1] eqn:Hp.
  - intros Hall.
    assert (fs_all E m1 rest outDirPath
              (if bool_decide (0 < cnt) then S c else c)
              (if bool_decide (0 < cnt) then k else S k) = (r, m')) as Hall'
      by (by destruct (bool_decide (0 < cnt))).
    destruct (IH _ _ _ _ _ Hrest Hall') as [Hkeep Hres].
    assert (settled_at m' name) as Hnow.
    { apply Hkeep; [done|]. by eapply package_settles. }
    split.
    + intros n Hn Hs. apply Hkeep; [done|].
      by apply (package_keeps m n name (Ok cnt) m1).
    + destruct r as [x|e].
      * intros n [->|Hin]%elem_of_cons; [done | by apply Hres].
      * destruct Hres as (before & name' & after & -> & Hbefore & Hthrow).
        exists (name :: before), name', after. split; [done|].
        split; [|done].
        intros n [->|Hin]%elem_of_cons; [done | by apply Hbefore].
  - intros [= <- <-]. split.
    + intros n Hn Hs. by apply (package_keeps m n name (Throw e) m1).
    + exists [], name, rest. split; [done|].
      split; [by intros n ?%elem_of_nil|].
      apply fs_package_throw in Hp. by eapply fs_mkdir_throw_same.
Qed.

Lemma fs_all_again_ok names : ∀ m c k,
  (∀ n, n ∈ names → settled_at m n) →
  ∃ x, fs_all E m names outDirPath c k = (Ok x, m).
Proof.
  induction names as [|name rest IH]; intros m c k Hs; cbn [fs_all]; [eauto|].
  destruct (settled_package E m name outDirPath) as [cnt ->];
    [apply Hs; by left|].
  destruct (bool_decide (0 < cnt)); apply IH; intros n Hn; apply Hs; by right.
Qed.

Lemma fs_all_again_throw before name after : ∀ m c k e,
  (∀ n, n ∈ before → settled_at m n) →
  fs_mkdir E m (join outDirPath name) = (Throw e, m) →
  fs_all E m (before ++ name :: after) outDirPath c k = (Throw e, m).
Proof.
  induction before as [|b before IH]; intros m c k e Hs Hthrow;
    cbn [fs_all app].
  { unfold fs_package. by rewrite Hthrow. }
  destruct (settled_package E m b outDirPath) as [cnt ->];
    [apply Hs; by left|].
  destruct (bool_decide (0 < cnt)); apply IH; try done;
    intros n Hn; apply Hs; by right.
Qed.

(** The loop run again from the state it left leaves that state, with the
    same kind of result. *)
Lemma fs_all_again names m c k r m' c' k' :
  Forall plain names →
  fs_all E m names outDirPath c k = (r, m') →
  ∃ r', fs_all E m' names outDirPath c' k' = (r', m')
        ∧ outcome r' = outcome r.
Proof.
  intros Hplain Hall.
  destruct (fs_all_settles _ _ _ _ _ _ Hplain Hall) as [_ Hres].
  destruct r as [x|e].
  - destruct (fs_all_again_ok names m' c' k' Hres) as [x' ->]. by eexists.
  - destruct Hres as (before & name & after & -> & Hbefore & Hthrow).
    rewrite (fs_all_again_throw _ _ _ _ _ _ _ Hbefore Hthrow). by eexists.
Qed.

End Again.

Section Main.
Context (E : env).

Lemma main_fs options s :
  ((main E options s).1, fs (main E options s).2) = fs_main E options (fs s).
Proof.
  pose proof (main_cases E options s) as H. cbv zeta in H. unfold fs_main.
  destruct (manifest_ok E) as [packageJson|].
  2:{ destruct H as (e & oc & ->). done. }
  cbv zeta. case_bool_decide; [by rewrite H|].
  destruct (fs_mkdir E (fs s) _) as [[[]|e] m1]; [|by rewrite H].
  destruct H as (t & _ & _ & H).
  destruct (fs_all E m1 _ _ 0 0) as [[x|e] m2]; by rewrite H.
Qed.

Lemma fs_main_again options m :
  apart (join (projectRoot E) (outdir options))
    (join (projectRoot E) "node_modules") →
  (∀ packageJson, manifest_ok E = Some packageJson →
                  Forall plain (packageNames packageJson)) →
  fs_main E options (fs_main E options m).2 = fs_main E options m.
Proof.
  intros Hapart Hplain. unfold fs_main.
  destruct (manifest_ok E) as [packageJson|] eqn:Hm; [|done].
  specialize (Hplain _ eq_refl). cbv zeta.
  case_bool_decide; [done|].
  set (outDirPath := join (projectRoot E) (outdir options)) in *.
  destruct (fs_mkdir E m outDirPath) as [[[]|e] m1] eqn:Hmk; cbn [snd].
  2:{ by rewrite (fs_mkdir_throw_same _ _ _ _ _ Hmk). }
  destruct (fs_all E m1 (packageNames packageJson) outDirPath 0 0)
    as [r m2] eqn:Hall.
  assert (fs_mkdir E m2 outDirPath = (Ok (), m2)) as Hmk2.
  { apply fs_mkdir_settled; [by eapply fs_mkdir_Ok_refused|].
    intros q Hq. eapply grows_lookup_node_dir; [by eapply fs_all_grows|].
    by eapply fs_mkdir_ok. }
  destruct (fs_all_again E outDirPath Hapart _ _ _ _ _ _ 0 0 Hplain Hall)
    as (r' & Hall' & Hr).
  destruct r as [x|e]; cbn [snd]; rewrite Hmk2, Hall';
    destruct r'; done.
Qed.

End Main.

End AgainFacts.

Module RunClaims.
Import Path Node Effects Examples.
Import PathFacts GlobFacts JSFacts NodeFacts StepFacts EffectFacts RunFacts.

Lemma length_zero_nil {A} (l : list A) : length l = 0 ↔ l = [].
Proof. destruct l; simpl; split; intros; (done || lia). Qed.

(** C5: when the merged set of names is empty, the run ends with exit code 0,
    leaves the file system as it was (no output directory is made) and calls
    nothing after reading the manifest (no package is processed); it prints
    the one line [NoDependencies] if verbose and nothing otherwise. *)
Theorem C5_no_dependencies E options s packageJson :
  manifest_ok E = Some packageJson →
  packageNames packageJson = [] →
  main E options s =
  (0%Z,
   {| fs := fs s;
      trace := trace s
        ++ Call ReadFile (join (projectRoot E) "package.json") None
        :: (if verbose options then [ConsoleLog NoDependencies] else []) |}).
Proof.
  intros Hm Hnames. pose proof (main_cases E options s) as H.
  cbv zeta in H. rewrite Hm, Hnames in H. exact H.
Qed.

Lemma C5_witness :
  manifest_ok (project Linux (Parsed empty_manifest)) = Some empty_manifest
  ∧ packageNames empty_manifest = []
  ∧ main (project Linux (Parsed empty_manifest)) verbosely (start installed)
    = (0%Z,
       {| fs := tree installed;
          trace := [Call ReadFile ["proj"; "package.json"] None;
                    ConsoleLog NoDependencies] |}).
Proof.
  split; [reflexivity|]. split; [reflexivity|].
  apply (C5_no_dependencies (project Linux (Parsed empty_manifest)) verbosely
           (start installed) empty_manifest); reflexivity.
Defined.

Lemma NoDup_packageNames packageJson : NoDup (packageNames packageJson).
Proof.
  unfold packageNames. rewrite keys_perm. unfold allDependencies.
  apply spread_NoDup, spread_NoDup. constructor.
Qed.

Lemma elem_of_packageNames packageJson x :
  x ∈ packageNames packageJson ↔
  x ∈ JS.names_of (dependencies packageJson)
  ∨ x ∈ JS.names_of (devDependencies packageJson).
Proof.
  unfold packageNames. rewrite keys_perm. unfold allDependencies.
  rewrite !spread_elem. simpl. rewrite elem_of_nil. tauto.
Qed.

(** The directories that a run makes, in the order of the calls. *)
Lemma main_mkdirs E options s packageJson :
  manifest_ok E = Some packageJson →
  let outDirPath := join (projectRoot E) (outdir options) in
  let all := outDirPath :: (join outDirPath <$> packageNames packageJson) in
  ∃ t, trace (main E options s).2 = trace s ++ t
       ∧ (mkdir_calls t).*1 `prefix_of` all
       ∧ ((main E options s).1 = 0%Z → packageNames packageJson ≠ [] →
          (mkdir_calls t).*1 = all).
Proof.
  intros Hm outDirPath all. pose proof (main_cases E options s) as H.
  cbv zeta in H. rewrite Hm in H. fold outDirPath in H.
  case_bool_decide as Hlen.
  { rewrite H. eexists. split; [reflexivity|].
    apply length_zero_nil in Hlen.
    destruct (verbose options); (split; [apply prefix_nil | done]). }
  destruct (fs_mkdir E (fs s) outDirPath) as [[[]|e] m1].
  - destruct H as (t & _ & Hmk & H).
    destruct (fs_all E m1 (packageNames packageJson) outDirPath 0 0)
      as [[counts|e] m2] eqn:Hall; rewrite H; cbn [fst snd trace];
      (eexists; split; [reflexivity|]);
      rewrite !mkdir_calls_app, Hmk; cbn [mkdir_calls omap list_omap app];
      rewrite app_nil_r; cbn [fmap list_fmap fst].
    + rewrite (mkdirs_all_ok _ _ _ _ _ _ _ _ Hall).
      rewrite <- list_fmap_compose. done.
    + split; [|done]. apply prefix_cons, mkdirs_all_prefix.
  - rewrite H. eexists. split; [reflexivity|]. cbn. split; [|done].
    apply prefix_cons, prefix_nil.
Qed.



(** Only the lines of a package and the calls of [mkdir] occur in the loop. *)
Lemma loop_event_not_summary t c k p :
  Forall loop_event t → ConsoleLog (Summary c k p) ∉ t.
Proof.
  intros Hall Hin. rewrite Forall_forall in Hall.
  destruct (Hall _ Hin) as [?|(? & ? & ?)]; discriminate.
Qed.




Lemma elem_of_mkdir_calls t p oc :
  (p, oc) ∈ mkdir_calls t ↔ Call Mkdir p oc ∈ t.
Proof.
  unfold mkdir_calls. rewrite list_elem_of_omap. split.
  - intros (e & He & Heq). destruct e as [[] ? ?| |]; try discriminate.
    by injection Heq as -> ->.
  - intros Hin. by exists (Call Mkdir p oc).
Qed.



End RunClaims.

Module PackageClaims.
Import Path Node Effects Examples.
Import Utf8Facts PathFacts GlobFacts JSFacts NodeFacts StepFacts EffectFacts.
Import RunFacts PackageFacts.

Lemma processDependency_fs E packageName outDirPath verbose s r s' :
  processDependency E packageName outDirPath verbose s = (r, s') →
  fs_package E (fs s) packageName outDirPath = (r, fs s').
Proof.
  destruct (processDependency_eq E packageName outDirPath verbose s)
    as (t & -> & _). intros [= <- <-].
  by destruct (fs_package E (fs s) packageName outDirPath).
Qed.

(** C2, amended: when [README.md] of a package is a file that the program
    may look up and read, and its copy may be written and is not in the way
    of a directory, then after [processDependency] the copy holds the bytes
    of the source decoded and encoded again; these are the bytes of the
    source when the source is well-formed UTF-8. *)
Theorem C2_readme_content E packageName outDirPath verbose s n s' bs :
  let packageDir :=
    join (join (projectRoot E) "node_modules") packageName in
  let outputDir := join outDirPath packageName in
  let readmePath := join packageDir "README.md" in
  let readmeOutputPath := join outputDir "README.md" in
  processDependency E packageName outDirPath verbose s = (Ok n, s') →
  fs s !! readmePath = Some (File bs) →
  refused E Access readmePath = false →
  refused E ReadFile readmePath = false →
  refused E WriteFile readmeOutputPath = false →
  fs s !! readmeOutputPath ≠ Some Dir →
  fs s' !! readmeOutputPath = Some (File (Utf8.recode bs))
  ∧ (Utf8.well_formed bs = true → fs s' !! readmeOutputPath = Some (File bs)).
Proof.
  intros packageDir outputDir readmePath readmeOutputPath Hpd Hsrc Ha Hr Hw Hd.
  assert (fs s' !! readmeOutputPath = Some (File (Utf8.recode bs))) as Hout.
  { apply processDependency_fs, fs_package_ok in Hpd as (m1 & Hmk & _ & ->).
    fold outputDir in Hmk. fold (package_dir E packageName).
    unfold readmePath, readmeOutputPath in *. rewrite !join_literal in *.
    fold outputDir. apply fs_files_readme.
    - by eapply exists_at_after_mkdir.
    - by eapply copy_source_after_mkdir. }
  split; [done|]. intros Hwf. by rewrite Hout, recode_well_formed.
Qed.

Lemma C2_witness :
  let E := project Linux (Parsed two_packages) in
  let s := start installed in
  let r := processDependency E "left-pad" ["proj"; "docs-deps"] false s in
  r.1 = Ok 2
  ∧ fs s !! ["proj"; "node_modules"; "left-pad"; "README.md"]
    = Some (File ["#"; " "; "p"; "a"; "d"]%byte)
  ∧ fs r.2 !! ["proj"; "docs-deps"; "left-pad"; "README.md"]
    = Some (File ["#"; " "; "p"; "a"; "d"]%byte).
Proof.
  intros E s r. split; [vm_compute; reflexivity|]. split; [reflexivity|].
  refine (proj2 (C2_readme_content E "left-pad" ["proj"; "docs-deps"] false s
                   2 r.2 ["#"; " "; "p"; "a"; "d"]%byte _ _ _ _ _ _) _);
    try reflexivity.
  vm_compute. discriminate.
Defined.

(** C2 as stated fails: a README of the one byte FF is copied, and its copy
    holds the three bytes EF BF BD. *)
Lemma C2_counterexample :
  let E := project Linux (Parsed two_packages) in
  let s := start latin_readme in
  let r := processDependency E "left-pad" ["proj"; "docs-deps"] false s in
  r.1 = Ok 1
  ∧ Call WriteFile ["proj"; "docs-deps"; "left-pad"; "README.md"] None
    ∈ trace r.2
  ∧ fs r.2 !! ["proj"; "node_modules"; "left-pad"; "README.md"]
    = Some (File [xff])
  ∧ fs r.2 !! ["proj"; "docs-deps"; "left-pad"; "README.md"]
    = Some (File [xef; xbf; xbd]).
Proof.
  intros E s r. split; [vm_compute; reflexivity|]. split.
  - let l := eval vm_compute in (trace r.2) in
    replace (trace r.2) with l by (vm_compute; reflexivity).
    set_solver.
  - split; vm_compute; reflexivity.
Qed.









(** The license files that cannot be copied are reported. *)
Lemma copyLicenses_reports E packageName packageDir outputDir verbose files :
  ∀ count s,
  NoDup files → license_names E files →
  ∃ t, copyLicenses E packageName packageDir outputDir verbose files count s
       = (Ok (count + n_licenses E (fs s) packageDir outputDir files),
          {| fs := fs_licenses E (fs s) packageDir outputDir files;
             trace := trace s ++ t |})
       ∧ ∀ f, f ∈ files →
           copy_source E (fs s) (packageDir ++ [f]) (outputDir ++ [f]) = None →
           ∃ e, ConsoleError (FailedLicense f packageName e) ∈ t.
Proof.
  induction files as [|g files IH]; intros count s Hnd Hnames.
  { exists []. simpl. rewrite Nat.add_0_r, app_nil_r. split; [by destruct s|].
    by intros f ?%elem_of_nil. }
  apply NoDup_cons in Hnd as [Hg Hnd].
  apply license_names_cons in Hnames as [Hgm Hnames].
  cbn [copyLicenses n_licenses fs_licenses].
  edestruct (copy_block_eq E (join packageDir g) (join outputDir g) verbose
               (CopiedLicense g packageName) (FailedLicense g packageName)
               count s) as (t1 & Ht1 & _ & Hfail1); [done..|].
  unfold copy_block in Ht1. unfold copyLicense.
  rewrite (bind_inv_eq _ _ _ _ Ht1).
  edestruct (IH (count + n_copy E (fs s) (join packageDir g)
                            (join outputDir g))
               {| fs := fs_copy E (fs s) (join packageDir g) (join outputDir g);
                  trace := trace s ++ t1 |} Hnd Hnames) as (t2 & Ht2 & Hfail2).
  exists (t1 ++ t2). split.
  { rewrite Ht2. cbn [fs trace]. by rewrite Nat.add_assoc, app_assoc. }
  intros f [->|Hf]%elem_of_cons Hnone.
  - rewrite !(matches_license_entry _ _ _ Hgm) in Hfail1.
    destruct (Hfail1 Hnone) as [e He]. exists e. apply elem_of_app. by left.
  - assert (f ≠ g) as Hne by (intros ->; done).
    destruct (Hfail2 f Hf) as [e He].
    + cbn [fs]. rewrite !(matches_license_entry _ _ _ Hgm), <- Hnone.
      apply copy_source_ext.
      * apply fs_copy_lookup_node_other. intros [_ ?]%app_singleton_inj. done.
      * rewrite removelast_last. apply fs_copy_lookup_node_other, snoc_ne.
      * apply fs_copy_other. intros [_ ?]%app_singleton_inj. done.
    + exists e. apply elem_of_app. by right.
Qed.

(** [processDependency] after its call of [mkdir] has succeeded. *)
Lemma processDependency_after_mkdir E packageName outDirPath verbose s s1 :
  let packageDir := package_dir E packageName in
  let outputDir := join outDirPath packageName in
  mkdir E outputDir s = (Ok (), s1) →
  ∃ t1 oc t2 t3,
    processDependency E packageName outDirPath verbose s
    = (Ok (n_files E (fs s1) packageDir outputDir),
       {| fs := fs_files E (fs s1) packageDir outputDir;
          trace := trace s1 ++ t1 ++ [Call GlobDir packageDir oc] ++ t2 ++ t3 |})
    ∧ (exists_at E (fs s1) (packageDir ++ ["README.md"]) = true →
       copy_source E (fs s1) (packageDir ++ ["README.md"])
         (outputDir ++ ["README.md"]) = None →
       ∃ e, ConsoleError (FailedReadme packageName e) ∈ t1)
    ∧ ∀ f, f ∈ license_files E (fs s1) packageDir →
        copy_source E (fs s1) (packageDir ++ [f]) (outputDir ++ [f]) = None →
        ∃ e, ConsoleError (FailedLicense f packageName e) ∈ t2.
Proof.
  intros packageDir outputDir Hmk. unfold processDependency.
  fold (package_dir E packageName). fold packageDir outputDir.
  rewrite (bind_inv_eq _ _ _ _ Hmk).
  destruct (copyReadme_eq E packageName packageDir outputDir verbose 0 s1)
    as (t1 & Ht1 & _ & Hfail1).
  rewrite (bind_inv_eq _ _ _ _ Ht1). cbn [Nat.add].
  match goal with
  | |- context [(getLicenseFiles E ?d ≫= _) ?st] =>
    destruct (getLicenseFiles_eq E d st) as (oc & Hoc)
  end.
  cbn [fs trace] in Hoc. rewrite (bind_inv_eq _ _ _ _ Hoc).
  match goal with
  | |- context [(copyLicenses E ?a ?b ?c ?d ?fl ?n ≫= _) ?st] =>
    destruct (copyLicenses_reports E a b c d fl n st) as (t2 & Ht2 & Hfail2)
  end; [apply NoDup_license_files | apply license_names_license_files |].
  cbn [fs trace] in Ht2, Hfail2. rewrite (bind_inv_eq _ _ _ _ Ht2).
  unfold n_files, fs_files. cbv zeta.
  unfold when, console_log, emit, mret, M_ret, mbind, M_bind.
  assert (∀ t3 : list event,
    (trace s1 ++ t1 ++ [Call GlobDir packageDir oc] ++ t2) ++ t3
    = trace s1 ++ t1 ++ [Call GlobDir packageDir oc] ++ t2 ++ t3) as Happ
    by (intros; by rewrite <- !app_assoc).
  assert (((trace s1 ++ t1) ++ [Call GlobDir packageDir oc]) ++ t2
          = trace s1 ++ t1 ++ [Call GlobDir packageDir oc] ++ t2) as Happ2
    by (by rewrite <- !app_assoc).
  exists t1, oc, t2.
  destruct (bool_decide _ && verbose); cbn [fs trace]; rewrite Happ2;
    [exists [ConsoleLog (NoFilesFound packageName)] | exists []];
    rewrite ?Happ, ?app_nil_r; (split; [reflexivity|]);
    (split; [rewrite <- !join_literal; exact Hfail1|]);
    intros f Hf Hnone; apply Hfail2;
    [ by apply fs_readme_license_files
    | rewrite fs_readme_copy_source; [done|];
      by apply license_files_matches, matches_license_not_readme in Hf
    | by apply fs_readme_license_files
    | rewrite fs_readme_copy_source; [done|];
      by apply license_files_matches, matches_license_not_readme in Hf ].
Qed.

(** C7: once the output directory of a package is made,
    [processDependency] returns whatever happens to the files.  A README that
    is found and cannot be copied is reported on the console; the search for
    license files is made all the same; every license file of the match set
    that can be copied is copied, and every one that cannot is reported,
    whatever happened to the README and to the other license files. *)
Theorem C7_failures_do_not_stop E packageName outDirPath verbose s s1 :
  let packageDir :=
    join (join (projectRoot E) "node_modules") packageName in
  let outputDir := join outDirPath packageName in
  let readmePath := join packageDir "README.md" in
  let readmeOutputPath := join outputDir "README.md" in
  mkdir E outputDir s = (Ok (), s1) →
  ∃ n s' t,
    processDependency E packageName outDirPath verbose s = (Ok n, s')
    ∧ trace s' = trace s1 ++ t
    ∧ (∀ s1', fileExists E readmePath s1 = (Ok true, s1') →
       (∀ bs, ¬ can_copy E (fs s1) readmePath readmeOutputPath bs) →
       ∃ e, ConsoleError (FailedReadme packageName e) ∈ t)
    ∧ (∃ oc, Call GlobDir packageDir oc ∈ t)
    ∧ ∀ files s2 f,
        getLicenseFiles E packageDir s1 = (Ok files, s2) → f ∈ files →
        (∀ bs, can_copy E (fs s1) (join packageDir f) (join outputDir f) bs →
               fs s' !! join outputDir f = Some (File (Utf8.recode bs)))
        ∧ ((∀ bs, ¬ can_copy E (fs s1) (join packageDir f)
                      (join outputDir f) bs) →
           ∃ e, ConsoleError (FailedLicense f packageName e) ∈ t).
Proof.
  intros packageDir outputDir readmePath readmeOutputPath Hmk.
  destruct (processDependency_after_mkdir E packageName outDirPath verbose
              s s1 Hmk) as (t1 & oc & t2 & t3 & Hpd & Hreadme & Hlic).
  fold outputDir in Hpd, Hreadme, Hlic.
  change (package_dir E packageName) with packageDir in Hpd, Hreadme, Hlic.
  eexists _, _, _. split; [exact Hpd|]. split; [reflexivity|]. cbn [fs].
  assert (∀ src dst, (∀ bs, ¬ can_copy E (fs s1) src dst bs) →
                     copy_source E (fs s1) src dst = None) as Hnone.
  { intros src dst Hno. destruct (copy_source E (fs s1) src dst) eqn:Hsrc;
      [|done]. apply can_copy_source in Hsrc. by apply Hno in Hsrc. }
  split; [|split].
  - intros s1' Hex Hno.
    destruct (fileExists_eq E readmePath s1) as (oc' & Heq).
    rewrite Hex in Heq. injection Heq as Heq _.
    unfold readmePath, readmeOutputPath in *. rewrite !join_literal in *.
    destruct (Hreadme (eq_sym Heq) (Hnone _ _ Hno)) as [e He].
    exists e. apply elem_of_app. by left.
  - exists oc. set_solver.
  - intros files s2 f Hget Hf.
    destruct (getLicenseFiles_eq E packageDir s1) as (oc' & Heq).
    rewrite Hget in Heq. injection Heq as -> _.
    pose proof (license_files_matches _ _ _ _ Hf) as Hm.
    rewrite !(matches_license_entry _ _ _ Hm). split.
    + intros bs Hbs%can_copy_source. by apply fs_files_license.
    + intros Hno. destruct (Hlic f Hf (Hnone _ _ Hno)) as [e He].
      exists e. set_solver.
Qed.

Lemma C7_witness :
  let E := project Linux (Parsed two_packages) in
  let s := start odd_package in
  let outputDir := ["proj"; "docs-deps"; "left-pad"] in
  let s1 := (mkdir E outputDir s).2 in
  let r := processDependency E "left-pad" ["proj"; "docs-deps"] false s in
  mkdir E outputDir s = (Ok (), s1)
  ∧ r.1 = Ok 1
  ∧ ConsoleError (FailedReadme "left-pad" (SystemError EISDIR)) ∈ trace r.2
  ∧ ConsoleError (FailedLicense "licenses" "left-pad" (SystemError EISDIR))
    ∈ trace r.2
  ∧ fs r.2 !! ["proj"; "docs-deps"; "left-pad"; "license.md"]
    = Some (File ["W"; "T"; "F"]%byte).
Proof.
  intros E s outputDir s1 r.
  assert (mkdir E outputDir s = (Ok (), s1)) as Hmk
    by (vm_compute; reflexivity).
  split; [exact Hmk|]. split; [vm_compute; reflexivity|].
  split; [|split].
  1,2: let l := eval vm_compute in (trace r.2) in
       replace (trace r.2) with l by (vm_compute; reflexivity); set_solver.
  destruct (C7_failures_do_not_stop E "left-pad" ["proj"; "docs-deps"] false
              s s1 Hmk) as (n & s' & t & Hpd & _ & _ & _ & Hlic).
  assert (s' = r.2) as -> by (unfold r; by rewrite Hpd).
  pose (found := getLicenseFiles E ["proj"; "node_modules"; "left-pad"] s1).
  destruct (Hlic (match found.1 with Ok files => files | Throw _ => [] end)
              found.2 "license.md") as [Hcopy _].
  - vm_compute. reflexivity.
  - let l := eval vm_compute in found.1 in
    replace found.1 with l by (vm_compute; reflexivity).
    repeat constructor.
  - apply (Hcopy ["W"; "T"; "F"]%byte). unfold can_copy.
    split_and!; try (vm_compute; reflexivity); vm_compute; discriminate.
Defined.

End PackageClaims.

Module AgainClaims.
Import Path Node Effects Examples.
Import PathFacts NodeFacts StepFacts EffectFacts RunFacts PackageFacts.
Import AgainFacts.



End AgainClaims.

(** ** The calls and lines of a package *)

Module ShapeFacts.
Import Path Node Effects Shape.
Import PathFacts GlobFacts NodeFacts StepFacts EffectFacts RunFacts PackageFacts.

Section Shape.
Context (E : env).
Implicit Types (p q src dst d : path) (s : state) (m : gmap path node).
Implicit Types (o : op) (t : list event) (f g : string).

Local Abbreviation nocase := (glob_nocase (os E)).

Lemma copy_block_shape src dst verbose copied failed count s :
  copied_line (ConsoleLog copied) = true →
  ∃ t, copy_block E src dst verbose copied failed count s =
       (Ok (count + n_copy E (fs s) src dst),
        {| fs := fs_copy E (fs s) src dst; trace := trace s ++ t |})
       ∧ Forall (copy_event src dst verbose copied failed) t
       ∧ length (List.filter written t) = n_copy E (fs s) src dst
       ∧ length (List.filter copied_line t)
         = (if verbose then n_copy E (fs s) src dst else 0).
Proof.
  intros Hline. unfold fs_copy, n_copy.
  destruct (copy_source E (fs s) src dst) as [bs|] eqn:Hsrc.
  - apply can_copy_source in Hsrc. eexists. split.
    { rewrite (copy_block_copies _ _ _ _ _ _ _ _ _ Hsrc).
      by replace (count + 1) with (S count) by lia. }
    cbn [copied_line] in Hline.
    destruct verbose; cbn [app List.filter written copied_line length];
      rewrite ?Hline; split_and!; try reflexivity;
      repeat constructor; reflexivity.
  - destruct (copy_block_fails E src dst verbose copied failed count s)
      as (e & t & -> & Ht).
    { intros bs Hbs%can_copy_source. congruence. }
    eexists. split; [by rewrite Nat.add_0_r|].
    destruct Ht as [-> | ->]; cbn [app List.filter written length];
      (split_and!; [repeat constructor; by eexists | reflexivity
                   | by destruct verbose, e]).
Qed.

Lemma step_event_readme packageName outDirPath verbose e :
  copy_event (package_dir E packageName ++ ["README.md"])
    (join outDirPath packageName ++ ["README.md"]) verbose
    (CopiedReadme packageName) (FailedReadme packageName) e →
  step_event E packageName outDirPath verbose e.
Proof.
  unfold copy_event, step_event.
  destruct e as [[] p oc|m|m]; try done.
  - intros ->. eexists. split; [done | by left].
  - intros ->. eexists. split; [done | by left].
  - by intros [-> ->].
  - by intros [err ->].
Qed.

Lemma step_event_license packageName outDirPath verbose f e :
  Glob.matches nocase Glob.licensePattern f = true →
  copy_event (package_dir E packageName ++ [f])
    (join outDirPath packageName ++ [f]) verbose
    (CopiedLicense f packageName) (FailedLicense f packageName) e →
  step_event E packageName outDirPath verbose e.
Proof.
  intros Hf. unfold copy_event, step_event.
  destruct e as [[] p oc|m|m]; try done.
  - intros ->. eexists. split; [done | by right].
  - intros ->. eexists. split; [done | by right].
  - by intros [-> ->].
  - by intros [err ->].
Qed.

Lemma copyReadme_shape packageName outDirPath verbose count s :
  let packageDir := package_dir E packageName in
  let outputDir := join outDirPath packageName in
  ∃ t, copyReadme E packageName packageDir outputDir verbose count s =
       (Ok (count + n_readme E (fs s) packageDir outputDir),
        {| fs := fs_readme E (fs s) packageDir outputDir;
           trace := trace s ++ t |})
       ∧ Forall (step_event E packageName outDirPath verbose) t
       ∧ length (List.filter written t) = n_readme E (fs s) packageDir outputDir
       ∧ length (List.filter copied_line t)
         = (if verbose then n_readme E (fs s) packageDir outputDir else 0).
Proof.
  intros packageDir outputDir. unfold copyReadme, fs_readme, n_readme.
  destruct (fileExists_eq E (join packageDir "README.md") s) as [oc Hex].
  erewrite bind_ok by exact Hex.
  destruct (exists_at E (fs s) (join packageDir "README.md")).
  - edestruct (copy_block_shape (join packageDir "README.md")
                 (join outputDir "README.md") verbose
                 (CopiedReadme packageName) (FailedReadme packageName) count)
      as (t & Ht & Hall & Hw & Hl); [done|].
    unfold copy_block in Ht. eexists. split; [rewrite Ht; simpl|].
    { rewrite <- app_assoc. reflexivity. }
    cbn [app List.filter written copied_line]. split_and!; [|done..].
    constructor.
    + unfold step_event. by rewrite join_literal.
    + eapply Forall_impl; [exact Hall|]. intros e He.
      apply step_event_readme. by rewrite !join_literal in He.
  - eexists. split; [by rewrite Nat.add_0_r|].
    cbn [app List.filter written copied_line length].
    split_and!; [|done|by destruct verbose].
    repeat constructor.
Qed.

Lemma copyLicenses_shape packageName outDirPath verbose files :
  let packageDir := package_dir E packageName in
  let outputDir := join outDirPath packageName in
  license_names E files →
  ∀ count s,
  ∃ t, copyLicenses E packageName packageDir outputDir verbose files count s =
       (Ok (count + n_licenses E (fs s) packageDir outputDir files),
        {| fs := fs_licenses E (fs s) packageDir outputDir files;
           trace := trace s ++ t |})
       ∧ Forall (step_event E packageName outDirPath verbose) t
       ∧ length (List.filter written t)
         = n_licenses E (fs s) packageDir outputDir files
       ∧ length (List.filter copied_line t)
         = (if verbose then n_licenses E (fs s) packageDir outputDir files
            else 0).
Proof.
  intros packageDir outputDir.
  induction files as [|f rest IH]; intros Hnames count s; simpl.
  { exists []. rewrite Nat.add_0_r, app_nil_r. destruct s, verbose; done. }
  apply license_names_cons in Hnames as [Hf Hnames].
  edestruct (copy_block_shape (join packageDir f) (join outputDir f) verbose
               (CopiedLicense f packageName) (FailedLicense f packageName)
               count s) as (t1 & Ht1 & Hall1 & Hw1 & Hl1); [done|].
  unfold copy_block in Ht1.
  erewrite bind_ok by exact Ht1.
  edestruct (IH Hnames) as (t2 & -> & Hall2 & Hw2 & Hl2).
  exists (t1 ++ t2). cbn [fs trace] in *.
  rewrite !List.filter_app, !length_app, Hw1, Hw2, Hl1, Hl2.
  split_and!.
  - by rewrite Nat.add_assoc, app_assoc.
  - apply Forall_app. split; [|done].
    eapply Forall_impl; [exact Hall1|]. intros e He.
    apply (step_event_license _ _ _ f); [exact Hf|].
    by rewrite !(license_join E _ _ Hf) in He.
  - done.
  - by destruct verbose.
Qed.

Lemma copyLicenses_events packageName outDirPath verbose files :
  let packageDir := package_dir E packageName in
  let outputDir := join outDirPath packageName in
  license_names E files →
  ∀ count s,
  ∃ t, trace (copyLicenses E packageName packageDir outputDir verbose files
                count s).2 = trace s ++ t
       ∧ Forall (license_event E packageName outDirPath verbose) t.
Proof.
  intros packageDir outputDir.
  induction files as [|f rest IH]; intros Hnames count s;
    cbn [copyLicenses].
  { exists []. split; [by rewrite app_nil_r | constructor]. }
  apply license_names_cons in Hnames as [Hf Hnames].
  edestruct (copy_block_shape (join packageDir f) (join outputDir f) verbose
               (CopiedLicense f packageName) (FailedLicense f packageName)
               count s) as (t1 & Ht1 & Hall1 & _); [done|].
  unfold copy_block in Ht1. unfold copyLicense.
  erewrite bind_ok by exact Ht1.
  edestruct (IH Hnames) as (t2 & -> & Hall2). cbn [trace].
  exists (t1 ++ t2). split; [by rewrite app_assoc|].
  apply Forall_app. split; [|done].
  eapply Forall_impl; [exact Hall1|]. intros e.
  rewrite !(license_join E _ _ Hf). unfold copy_event, license_event.
  destruct e as [[] p oc|m|m]; try done.
  - intros ->. by eexists.
  - intros ->. by eexists.
  - by intros [-> ->].
  - by intros [err ->].
Qed.

(** [fileExists] with the outcome of its call. *)
Lemma fileExists_cases p s :
  (exists_at E (fs s) p = true
   ∧ fileExists E p s
     = (Ok true, {| fs := fs s; trace := trace s ++ [Call Access p None] |}))
  ∨ (exists_at E (fs s) p = false
     ∧ ∃ e, fileExists E p s
            = (Ok false,
               {| fs := fs s;
                  trace := trace s ++ [Call Access p (Some e)] |})).
Proof.
  unfold fileExists, access, exists_at.
  destruct (refused E Access p) eqn:Href.
  { right. split; [done|]. eexists. erewrite try_catch_throw.
    2:{ erewrite bind_throw; [reflexivity|]. by apply syscall_refused. }
    reflexivity. }
  destruct (lookup_node (fs s) p) as [x|] eqn:Hl.
  - left. split; [done|]. erewrite try_catch_ok.
    2:{ erewrite bind_ok; [reflexivity|]. apply syscall_allowed; [done|].
        unfold sys_access. by rewrite Hl. }
    reflexivity.
  - right. split; [done|]. eexists. erewrite try_catch_throw.
    2:{ erewrite bind_throw; [reflexivity|]. apply syscall_allowed; [done|].
        unfold sys_access. by rewrite Hl. }
    reflexivity.
Qed.

Lemma copyReadme_missing packageName packageDir outputDir verbose count s :
  exists_at E (fs s) (packageDir ++ ["README.md"]) = false →
  ∃ e, copyReadme E packageName packageDir outputDir verbose count s
       = (Ok count,
          {| fs := fs s;
             trace := trace s
               ++ [Call Access (packageDir ++ ["README.md"]) (Some e)] |}).
Proof.
  intros Hex. unfold copyReadme. rewrite !join_literal.
  destruct (fileExists_cases (packageDir ++ ["README.md"]) s)
    as [[Hyes _]|[_ [e Hno]]]; [congruence|].
  exists e. by erewrite bind_ok by exact Hno.
Qed.

(** [processDependency] for a package without [README.md]: after the call
    of [access] only the license loop acts. *)
Lemma processDependency_no_readme packageName outDirPath verbose s m1 :
  let packageDir := package_dir E packageName in
  let outputDir := join outDirPath packageName in
  fs_mkdir E (fs s) outputDir = (Ok (), m1) →
  exists_at E m1 (packageDir ++ ["README.md"]) = false →
  ∃ e oc t,
    processDependency E packageName outDirPath verbose s
    = (Ok (n_files E m1 packageDir outputDir),
       {| fs := fs_files E m1 packageDir outputDir;
          trace := trace s
            ++ [Call Mkdir outputDir None;
                Call Access (packageDir ++ ["README.md"]) (Some e);
                Call GlobDir packageDir oc]
            ++ t
            ++ (if bool_decide (n_files E m1 packageDir outputDir = 0)
                   && verbose
                then [ConsoleLog (NoFilesFound packageName)] else []) |})
    ∧ Forall (license_event E packageName outDirPath verbose) t
    ∧ (license_files E m1 packageDir = [] → t = []).
Proof.
  intros packageDir outputDir Hmk Hex. unfold processDependency.
  fold (package_dir E packageName). fold packageDir outputDir.
  rewrite (bind_inv_eq _ _ _ _ (mkdir_eq E outputDir s)).
  rewrite Hmk. cbn [fst snd outcome].
  match goal with
  | |- context [(copyReadme E ?a ?b ?c ?d ?n ≫= _) ?st] =>
    destruct (copyReadme_missing a b c d n st Hex) as (e & Hreadme)
  end.
  cbn [fs trace] in Hreadme. rewrite (bind_inv_eq _ _ _ _ Hreadme).
  match goal with
  | |- context [(getLicenseFiles E ?d ≫= _) ?st] =>
    destruct (getLicenseFiles_eq E d st) as (oc & Hoc)
  end.
  cbn [fs trace] in Hoc. rewrite (bind_inv_eq _ _ _ _ Hoc).
  match goal with
  | |- context [(copyLicenses E ?a ?b ?c ?d ?fl ?n ≫= _) ?st] =>
    destruct (copyLicenses_shape a outDirPath d fl
                (license_names_license_files E _ _) n st)
      as (t2 & Ht2 & _);
    destruct (copyLicenses_events a outDirPath d fl
                (license_names_license_files E _ _) n st)
      as (t2' & Ht2' & Hall2)
  end.
  fold packageDir outputDir in Ht2, Ht2'.
  rewrite Ht2 in Ht2'. cbn [fs trace snd] in Ht2, Ht2'.
  apply app_inv_head in Ht2'. subst t2'.
  rewrite (bind_inv_eq _ _ _ _ Ht2).
  assert (fs_readme E m1 packageDir outputDir = m1) as Hfs.
  { unfold fs_readme. by rewrite join_literal, Hex. }
  assert (n_readme E m1 packageDir outputDir = 0) as Hn.
  { unfold n_readme. by rewrite join_literal, Hex. }
  unfold n_files, fs_files. cbv zeta. rewrite Hfs, Hn. cbn [Nat.add].
  exists e, oc, t2. split_and!; [|exact Hall2|].
  - unfold when, console_log, emit, mret, M_ret, mbind, M_bind.
    destruct (bool_decide _ && verbose); cbn [fs trace];
      rewrite <- ?app_assoc; cbn [app]; rewrite ?app_nil_r; reflexivity.
  - intros Hnil. rewrite Hnil in Ht2. cbn [copyLicenses] in Ht2.
    injection Ht2 as Ht2. apply (f_equal length) in Ht2.
    destruct t2; [done|]. rewrite !length_app in Ht2. simpl in Ht2. lia.
Qed.

Lemma fs_files_no_readme m packageDir outputDir :
  exists_at E m (packageDir ++ ["README.md"]) = false →
  fs_files E m packageDir outputDir !! (outputDir ++ ["README.md"])
  = m !! (outputDir ++ ["README.md"]).
Proof.
  intros Hex. unfold fs_files. cbv zeta.
  assert (fs_readme E m packageDir outputDir = m) as ->.
  { unfold fs_readme. by rewrite join_literal, Hex. }
  apply fs_licenses_other. intros g Hg%license_files_matches.
  rewrite (license_join E _ _ Hg). intros [_ ->]%app_singleton_inj.
  by apply matches_license_not_readme in Hg.
Qed.

(** [processDependency], event by event. *)
Lemma processDependency_shape packageName outDirPath verbose s :
  let packageDir := package_dir E packageName in
  let outputDir := join outDirPath packageName in
  match fs_mkdir E (fs s) outputDir with
  | (Throw e, m1) =>
    processDependency E packageName outDirPath verbose s =
    (Throw e,
     {| fs := m1; trace := trace s ++ [Call Mkdir outputDir (Some e)] |})
  | (Ok _, m1) =>
    let n := n_files E m1 packageDir outputDir in
    ∃ t, processDependency E packageName outDirPath verbose s =
         (Ok n,
          {| fs := fs_files E m1 packageDir outputDir;
             trace := trace s ++ Call Mkdir outputDir None :: t
               ++ (if bool_decide (n = 0) && verbose
                   then [ConsoleLog (NoFilesFound packageName)] else []) |})
         ∧ Forall (step_event E packageName outDirPath verbose) t
         ∧ length (List.filter written t) = n
         ∧ length (List.filter copied_line t) = (if verbose then n else 0)
  end.
Proof.
  intros packageDir outputDir. unfold processDependency.
  fold (package_dir E packageName). fold packageDir outputDir.
  rewrite (bind_inv_eq _ _ _ _ (mkdir_eq E outputDir s)).
  destruct (fs_mkdir E (fs s) outputDir) as [[[]|e] m1]; simpl; [|done].
  match goal with
  | |- context [(copyReadme E ?a ?b ?c ?d ?n ≫= _) ?st] =>
    destruct (copyReadme_shape a outDirPath d n st)
      as (t1 & Ht1 & Hall1 & Hw1 & Hl1)
  end.
  fold packageDir outputDir in Ht1, Hw1, Hl1.
  cbn [fs trace] in Ht1, Hw1, Hl1. rewrite (bind_inv_eq _ _ _ _ Ht1).
  match goal with
  | |- context [(getLicenseFiles E ?d ≫= _) ?st] =>
    destruct (getLicenseFiles_eq E d st) as (oc & Hoc)
  end.
  cbn [fs trace] in Hoc. rewrite (bind_inv_eq _ _ _ _ Hoc).
  match goal with
  | |- context [(copyLicenses E ?a ?b ?c ?d ?fl ?n ≫= _) ?st] =>
    destruct (copyLicenses_shape a outDirPath d fl
                (license_names_license_files E _ _) n st)
      as (t2 & Ht2 & Hall2 & Hw2 & Hl2)
  end.
  fold packageDir outputDir in Ht2, Hw2, Hl2.
  cbn [fs trace] in Ht2, Hw2, Hl2. rewrite (bind_inv_eq _ _ _ _ Ht2).
  unfold n_files, fs_files. cbn [Nat.add].
  exists (t1 ++ Call GlobDir packageDir oc :: t2).
  rewrite !List.filter_app, !length_app.
  cbn [List.filter written copied_line length]. rewrite Hw1, Hw2, Hl1, Hl2.
  split_and!.
  - unfold when, console_log, emit, mret, M_ret, mbind, M_bind.
    destruct (bool_decide _ && verbose); cbn [fs trace];
      rewrite <- ?app_assoc; cbn [app]; rewrite <- ?app_assoc;
      rewrite ?app_nil_r; reflexivity.
  - apply Forall_app. split; [done|]. constructor; [|done]. reflexivity.
  - done.
  - by destruct verbose.
Qed.

Lemma processDependency_effect packageName outDirPath verbose s r s' :
  processDependency E packageName outDirPath verbose s = (r, s') →
  fs_package E (fs s) packageName outDirPath = (r, fs s').
Proof.
  destruct (processDependency_eq E packageName outDirPath verbose s)
    as (t & -> & _).
  intros [= <- <-]. cbn [fs]. by destruct (fs_package _ _ _ _).
Qed.

(** *** What the copies change *)

Lemma fs_copy_changes m src dst q :
  fs_copy E m src dst !! q = m !! q
  ∨ (q = dst ∧ ∃ bs, lookup_node m src = Some (File bs)
                     ∧ fs_copy E m src dst !! q = Some (File (Utf8.recode bs))).
Proof.
  destruct (decide (q = dst)) as [->|Hne].
  - destruct (copy_source E m src dst) as [bs|] eqn:Hsrc.
    + right. split; [done|]. exists bs.
      split; [by apply copy_source_Some in Hsrc as (? & _)|].
      by apply fs_copy_dst.
    + left. by rewrite fs_copy_none.
  - left. by apply fs_copy_other.
Qed.

Lemma fs_licenses_changes packageDir outputDir files : ∀ m,
  NoDup files → license_names E files →
  ∀ q, fs_licenses E m packageDir outputDir files !! q = m !! q
       ∨ ∃ f bs, f ∈ files ∧ q = outputDir ++ [f]
                 ∧ m !! (packageDir ++ [f]) = Some (File bs)
                 ∧ fs_licenses E m packageDir outputDir files !! q
                   = Some (File (Utf8.recode bs)).
Proof.
  induction files as [|f rest IH]; intros m Hnd Hnames q; [by left|].
  apply NoDup_cons in Hnd as [Hf Hnd].
  apply license_names_cons in Hnames as [Hfm Hnames].
  cbn [fs_licenses]. rewrite !(license_join E _ _ Hfm).
  set (m1 := fs_copy E m (packageDir ++ [f]) (outputDir ++ [f])).
  destruct (IH m1 Hnd Hnames q) as [Heq|(g & bs & Hg & -> & Hsrc & Hdst)].
  - rewrite Heq.
    destruct (fs_copy_changes m (packageDir ++ [f]) (outputDir ++ [f]) q)
      as [?|(-> & bs & Hsrc & Hdst)]; [by left|].
    right. exists f, bs. rewrite lookup_node_snoc in Hsrc.
    split_and!; [by left | done | done | done].
  - right. exists g, bs. split_and!; [by right | done | | done].
    rewrite <- Hsrc. symmetry. apply fs_copy_other.
    intros [_ ->]%app_singleton_inj. done.
Qed.

Lemma fs_files_changes m packageDir outputDir q :
  fs_files E m packageDir outputDir !! q = m !! q
  ∨ ∃ f bs, (f = "README.md"
             ∨ Glob.matches nocase Glob.licensePattern f = true)
            ∧ q = outputDir ++ [f]
            ∧ m !! (packageDir ++ [f]) = Some (File bs)
            ∧ fs_files E m packageDir outputDir !! q
              = Some (File (Utf8.recode bs)).
Proof.
  unfold fs_files. cbv zeta.
  set (m1 := fs_readme E m packageDir outputDir).
  destruct (fs_licenses_changes packageDir outputDir
              (license_files E m1 packageDir) m1
              (NoDup_license_files E _ _) (license_names_license_files E _ _) q)
    as [Heq|(g & bs & Hg & -> & Hsrc & Hdst)].
  - rewrite Heq. unfold m1, fs_readme.
    destruct (exists_at E m (join packageDir "README.md")); [|by left].
    rewrite !join_literal.
    destruct (fs_copy_changes m (packageDir ++ ["README.md"])
                (outputDir ++ ["README.md"]) q)
      as [?|(-> & bs & Hsrc & Hdst)]; [by left|].
    right. exists "README.md", bs. rewrite lookup_node_snoc in Hsrc.
    split_and!; [by left | done..].
  - apply license_files_matches in Hg.
    right. exists g, bs. split_and!; [by right | done | | done].
    rewrite <- Hsrc. symmetry. apply fs_readme_other.
    intros [_ ->]%app_singleton_inj.
    by apply matches_license_not_readme in Hg.
Qed.

Lemma fs_package_writes m packageName outDirPath r m' :
  fs_package E m packageName outDirPath = (r, m') →
  ∀ q, m' !! q = m !! q
       ∨ (m !! q = None ∧ m' !! q = Some Dir
          ∧ q `prefix_of` join outDirPath packageName)
       ∨ ∃ f bs, (f = "README.md"
                  ∨ Glob.matches nocase Glob.licensePattern f = true)
                 ∧ q = join outDirPath packageName ++ [f]
                 ∧ m !! (package_dir E packageName ++ [f]) = Some (File bs)
                 ∧ m' !! q = Some (File (Utf8.recode bs)).
Proof.
  intros Hp q. destruct r as [n|e].
  - apply fs_package_ok in Hp as (m1 & Hmk & _ & ->).
    destruct (fs_files_changes m1 (package_dir E packageName)
                (join outDirPath packageName) q)
      as [Heq|(f & bs & Hf & -> & Hsrc & Hdst)].
    + rewrite Heq.
      destruct (fs_mkdir_changes _ _ _ _ _ Hmk q) as [?|(? & ? & ? & _)];
        [by left | right; left; done].
    + right; right. exists f, bs. split_and!; [done..| |done].
      destruct (fs_mkdir_changes _ _ _ _ _ Hmk (package_dir E packageName ++ [f]))
        as [?|(? & ? & _)]; congruence.
  - apply fs_package_throw in Hp.
    destruct (fs_mkdir_changes _ _ _ _ _ Hp q) as [?|(? & ? & ? & _)];
      [by left | right; left; done].
Qed.

(** *** The changes of a run *)

Lemma copies_into_refl ways dirs m : copies_into ways dirs m m.
Proof. intros q. by left. Qed.

Lemma copies_into_trans ways dirs m1 m2 m3 :
  copies_into ways dirs m1 m2 → copies_into ways dirs m2 m3 →
  copies_into ways dirs m1 m3.
Proof.
  intros H12 H23 q.
  destruct (H23 q) as [Heq|[(Hn & Hd & Hw)|Hf]].
  - rewrite Heq. apply H12.
  - destruct (H12 q) as [Heq|[(_ & ? & _)|(? & ? & ? & _ & _ & ?)]];
      [|congruence..].
    right; left. split_and!; [congruence | done..].
  - by right; right.
Qed.

Lemma copies_into_mono ways ways' dirs dirs' m m' :
  ways ⊆ ways' → dirs ⊆ dirs' →
  copies_into ways dirs m m' → copies_into ways' dirs' m m'.
Proof.
  intros Hways Hdirs H q.
  destruct (H q) as [?|[(? & ? & d & ? & ?)|(d & f & bs & ? & ? & ?)]].
  - by left.
  - right; left. split_and!; [done..|]. exists d. split; [by apply Hways | done].
  - right; right. exists d, f, bs. split_and!; [by apply Hdirs | done..].
Qed.

Lemma fs_mkdir_copies_into m p r m1 :
  fs_mkdir E m p = (r, m1) → copies_into [p] [] m m1.
Proof.
  intros H q.
  destruct (fs_mkdir_changes _ _ _ _ _ H q) as [?|(? & ? & ? & _)];
    [by left|].
  right; left. split_and!; [done..|]. exists p. split; [by left | done].
Qed.

Lemma fs_package_copies_into m packageName outDirPath r m' :
  fs_package E m packageName outDirPath = (r, m') →
  copies_into [join outDirPath packageName] [join outDirPath packageName] m m'.
Proof.
  intros H q.
  destruct (fs_package_writes _ _ _ _ _ H q)
    as [?|[(? & ? & ?)|(f & bs & _ & ? & _ & ?)]].
  - by left.
  - right; left. split_and!; [done..|]. eexists. split; [by left | done].
  - right; right. exists (join outDirPath packageName), f, bs.
    split_and!; [by left | done..].
Qed.

Lemma fs_all_copies_into names outDirPath : ∀ m c k r m',
  fs_all E m names outDirPath c k = (r, m') →
  copies_into (join outDirPath <$> names) (join outDirPath <$> names) m m'.
Proof.
  induction names as [|name rest IH]; intros m c k r m'; cbn [fs_all].
  { intros [= _ <-]. apply copies_into_refl. }
  assert ([join outDirPath name] ⊆ join outDirPath <$> name :: rest) as Hhd.
  { intros d ->%list_elem_of_singleton. by left. }
  assert ((join outDirPath <$> rest) ⊆ join outDirPath <$> name :: rest)
    as Htl.
  { intros d Hd. by right. }
  destruct (fs_package E m name outDirPath) as [[n|e] m1] eqn:Hp.
  - intros Hrest.
    eapply copies_into_trans.
    + eapply copies_into_mono;
        [exact Hhd | exact Hhd | exact (fs_package_copies_into _ _ _ _ _ Hp)].
    + eapply copies_into_mono; [exact Htl | exact Htl |].
      by destruct (bool_decide (0 < n)); eapply IH.
  - intros [= _ <-].
    eapply copies_into_mono;
      [exact Hhd | exact Hhd | exact (fs_package_copies_into _ _ _ _ _ Hp)].
Qed.

Lemma fs_main_grows options m : grows m (fs_main E options m).2.
Proof.
  unfold fs_main.
  destruct (manifest_ok E) as [packageJson|]; [|apply grows_refl].
  case_bool_decide; [apply grows_refl|].
  destruct (fs_mkdir E m _) as [[[]|e] m1] eqn:Hmk; cbn [snd].
  - eapply grows_trans; [exact (fs_mkdir_grows _ _ _ _ _ Hmk)|].
    destruct (fs_all E m1 _ _ 0 0) as [[x|e] m2] eqn:Hall; cbn [snd];
      exact (fs_all_grows _ _ _ _ _ _ _ _ Hall).
  - exact (fs_mkdir_grows _ _ _ _ _ Hmk).
Qed.

Lemma fs_main_copies_into options m :
  let outDirPath := join (projectRoot E) (outdir options) in
  let dirs :=
    join outDirPath <$> from_option packageNames [] (manifest_ok E) in
  copies_into (outDirPath :: dirs) dirs m (fs_main E options m).2.
Proof.
  intros outDirPath dirs. subst dirs. unfold fs_main.
  destruct (manifest_ok E) as [packageJson|]; cbn [from_option];
    [|apply copies_into_refl].
  case_bool_decide; [apply copies_into_refl|].
  fold outDirPath.
  set (dirs := join outDirPath <$> packageNames packageJson).
  assert ([outDirPath] ⊆ outDirPath :: dirs) as Hhd.
  { intros d ->%list_elem_of_singleton. by left. }
  assert (dirs ⊆ outDirPath :: dirs) as Htl.
  { intros d Hd. by right. }
  assert (@nil path ⊆ dirs) as Hnil.
  { by intros d ?%elem_of_nil. }
  destruct (fs_mkdir E m outDirPath) as [[[]|e] m1] eqn:Hmk; cbn [snd].
  - eapply copies_into_trans.
    + eapply copies_into_mono;
        [exact Hhd | exact Hnil | exact (fs_mkdir_copies_into _ _ _ _ Hmk)].
    + destruct (fs_all E m1 (packageNames packageJson) outDirPath 0 0)
        as [[x|e] m2] eqn:Hall; cbn [snd];
        (refine (copies_into_mono _ _ _ _ _ _ Htl _
                   (fs_all_copies_into _ _ _ _ _ _ _ Hall)); done).
  - eapply copies_into_mono;
      [exact Hhd | exact Hnil | exact (fs_mkdir_copies_into _ _ _ _ Hmk)].
Qed.

End Shape.
End ShapeFacts.

(** ** Properties of the steps of a package *)

Module PackageProperties.
Import Path Node Effects Shape Examples Worlds.
Import PathFacts GlobFacts NodeFacts StepFacts EffectFacts RunFacts.
Import PackageFacts ShapeFacts.

(** X1: [fileExists] never throws and never changes the file system.  It
    makes one call of [access] and returns [true] exactly when that call
    succeeds, that is when the call is not refused and the path is there, as a
    file or as a directory. *)
Theorem fileExists_answers E filePath s :
  ∃ b oc,
    fileExists E filePath s
    = (Ok b, {| fs := fs s; trace := trace s ++ [Call Access filePath oc] |})
    ∧ (b = true ↔ oc = None)
    ∧ (b = true ↔
       refused E Access filePath = false
       ∧ is_Some (lookup_node (fs s) filePath)).
Proof.
  unfold fileExists, access.
  destruct (refused E Access filePath) eqn:Href.
  { exists false, (Some (SystemError EACCES)). split_and!.
    - erewrite try_catch_throw.
      2:{ erewrite bind_throw; [reflexivity|]. by apply syscall_refused. }
      reflexivity.
    - split; discriminate.
    - split; [discriminate | by intros [? _]]. }
  destruct (lookup_node (fs s) filePath) as [x|] eqn:Hl.
  - exists true, None. split_and!.
    + erewrite try_catch_ok.
      2:{ erewrite bind_ok; [reflexivity|]. apply syscall_allowed; [done|].
          unfold sys_access. by rewrite Hl. }
      reflexivity.
    + done.
    + split; [|done]. intros _. split; [done | by eexists].
  - exists false, (Some (SystemError ENOENT)). split_and!.
    + erewrite try_catch_throw.
      2:{ erewrite bind_throw; [reflexivity|]. apply syscall_allowed; [done|].
          unfold sys_access. by rewrite Hl. }
      reflexivity.
    + split; discriminate.
    + split; [discriminate | by intros [_ [? ?]]].
Qed.


(** X3: the calls of [processDependency].  The first is the call of [mkdir]
    for the output directory of the package, and it is the only call of
    [mkdir].  After it the function looks up only [README.md] of the package
    directory, lists only the package directory, reads only [README.md] and
    entries of the package directory whose names match the license pattern,
    and writes only files of these names directly in the output directory. *)
Theorem processDependency_calls E packageName outDirPath verbose s r s' :
  let packageDir := join (join (projectRoot E) "node_modules") packageName in
  let outputDir := join outDirPath packageName in
  processDependency E packageName outDirPath verbose s = (r, s') →
  ∃ t, trace s' = trace s ++ Call Mkdir outputDir (outcome r) :: t
       ∧ ∀ o p oc, Call o p oc ∈ t →
           match o with
           | Mkdir => False
           | Access => p = packageDir ++ ["README.md"]
           | GlobDir => p = packageDir
           | ReadFile =>
             ∃ f, p = packageDir ++ [f]
                  ∧ (f = "README.md"
                     ∨ Glob.matches (glob_nocase (os E)) Glob.licensePattern f
                       = true)
           | WriteFile =>
             ∃ f, p = outputDir ++ [f]
                  ∧ (f = "README.md"
                     ∨ Glob.matches (glob_nocase (os E)) Glob.licensePattern f
                       = true)
           end.
Proof.
  intros packageDir outputDir Hpd.
  pose proof (processDependency_shape E packageName outDirPath verbose s) as Hs.
  cbv zeta in Hs. fold outputDir in Hs.
  destruct (fs_mkdir E (fs s) outputDir) as [[[]|e] m1].
  - destruct Hs as (t & Heq & Hall & _). rewrite Heq in Hpd.
    injection Hpd as <- <-. eexists. split; [reflexivity|].
    intros o p oc [Hin|Hin]%elem_of_app.
    + rewrite Forall_forall in Hall. specialize (Hall _ Hin).
      unfold step_event, copied_name in Hall. by destruct o.
    + destruct (bool_decide _ && verbose); [|by apply elem_of_nil in Hin].
      by apply list_elem_of_singleton in Hin.
  - rewrite Hs in Hpd. injection Hpd as <- <-. exists []. split; [done|].
    by intros o p oc ?%elem_of_nil.
Qed.

Lemma processDependency_calls_witness :
  let E := project Linux (Parsed two_packages) in
  let s := start installed in
  let r := processDependency E "left-pad" ["proj"; "docs-deps"] true s in
  ∃ t, trace r.2
       = trace s ++ Call Mkdir ["proj"; "docs-deps"; "left-pad"] None :: t
       ∧ ∀ p oc, Call WriteFile p oc ∈ t →
           ∃ f, p = ["proj"; "docs-deps"; "left-pad"] ++ [f]
                ∧ (f = "README.md"
                   ∨ Glob.matches false Glob.licensePattern f = true).
Proof.
  intros E s r.
  destruct (processDependency_calls E "left-pad" ["proj"; "docs-deps"] true s
              (Ok 2) r.2) as (t & Ht & Hcalls).
  { vm_compute. reflexivity. }
  exists t. split; [exact Ht|].
  intros p oc Hin. exact (Hcalls WriteFile p oc Hin).
Defined.

(** X4: the number that [processDependency] returns is the number of its
    calls of [writeFile] that succeeded.  With [verbose] it is also the number
    of lines that report a copy, and without it no such line is printed; the
    line saying that no file was found is printed exactly when the number is 0
    and [verbose] is set. *)
Theorem processDependency_counts_writes E packageName outDirPath verbose s n s' :
  processDependency E packageName outDirPath verbose s = (Ok n, s') →
  ∃ t, trace s' = trace s ++ t
       ∧ length (List.filter written t) = n
       ∧ length (List.filter copied_line t) = (if verbose then n else 0)
       ∧ (ConsoleLog (NoFilesFound packageName) ∈ t ↔ n = 0 ∧ verbose = true).
Proof.
  intros Hpd.
  pose proof (processDependency_shape E packageName outDirPath verbose s) as Hs.
  cbv zeta in Hs.
  destruct (fs_mkdir E (fs s) (join outDirPath packageName)) as [[[]|e] m1];
    [|by rewrite Hs in Hpd].
  destruct Hs as (t & Heq & Hall & Hw & Hl). rewrite Heq in Hpd.
  injection Hpd as <- <-. eexists. split; [reflexivity|].
  set (n := n_files E m1 _ _) in *.
  assert (ConsoleLog (NoFilesFound packageName) ∉ t) as Hnot.
  { intros Hin. rewrite Forall_forall in Hall. by apply Hall in Hin. }
  cbn [List.filter written copied_line].
  rewrite !List.filter_app, !length_app, Hw, Hl.
  destruct (bool_decide (n = 0)) eqn:Hn, verbose;
    cbn [andb List.filter written copied_line length];
    (split_and!; [lia | lia |]);
    rewrite elem_of_cons, elem_of_app;
    [apply bool_decide_eq_true in Hn | apply bool_decide_eq_true in Hn
    | apply bool_decide_eq_false in Hn | apply bool_decide_eq_false in Hn];
    (split; [intros [?|[?|Hin]]; [discriminate | done |] | intros [? ?]]);
    try (apply elem_of_nil in Hin); try done.
  right; right. by left.
Qed.

Lemma processDependency_counts_writes_witness :
  let E := project Linux (Parsed two_packages) in
  let s := start installed in
  let r := processDependency E "left-pad" ["proj"; "docs-deps"] true s in
  r.1 = Ok 2
  ∧ ∃ t, trace r.2 = trace s ++ t
         ∧ length (List.filter written t) = 2
         ∧ length (List.filter copied_line t) = 2
         ∧ (ConsoleLog (NoFilesFound "left-pad") ∈ t ↔ 2 = 0 ∧ true = true).
Proof.
  intros E s r. split; [vm_compute; reflexivity|].
  apply (processDependency_counts_writes E "left-pad" ["proj"; "docs-deps"]
           true s 2 r.2).
  vm_compute. reflexivity.
Defined.

(** X5: what [processDependency] changes in the file system.  Every path
    keeps what it had, or holds a directory that was missing and lies on the
    way to the output directory of the package, or is a file directly in the
    output directory, named [README.md] or by a name that matches the license
    pattern, and it then holds the re-encoded bytes of the file of the same
    name that the package directory had when the function was called.
    Nothing is removed and nothing else is written. *)
Theorem processDependency_writes_copies_only E packageName outDirPath verbose
    s r s' :
  let packageDir := join (join (projectRoot E) "node_modules") packageName in
  let outputDir := join outDirPath packageName in
  processDependency E packageName outDirPath verbose s = (r, s') →
  ∀ q, fs s' !! q = fs s !! q
       ∨ (fs s !! q = None ∧ fs s' !! q = Some Dir ∧ q `prefix_of` outputDir)
       ∨ ∃ f bs,
           (f = "README.md"
            ∨ Glob.matches (glob_nocase (os E)) Glob.licensePattern f = true)
           ∧ q = outputDir ++ [f]
           ∧ fs s !! (packageDir ++ [f]) = Some (File bs)
           ∧ fs s' !! q = Some (File (Utf8.recode bs)).
Proof.
  intros packageDir outputDir Hpd%processDependency_effect.
  exact (fs_package_writes E _ _ _ _ _ Hpd).
Qed.

Lemma processDependency_writes_copies_only_witness :
  let E := project Linux (Parsed two_packages) in
  let s := start installed in
  let r := processDependency E "left-pad" ["proj"; "docs-deps"] false s in
  let q := ["proj"; "docs-deps"; "left-pad"; "license.md"] in
  fs s !! q = None
  ∧ fs r.2 !! q = Some (File ["W"; "T"; "F"]%byte)
  ∧ (fs r.2 !! q = fs s !! q
     ∨ (fs s !! q = None ∧ fs r.2 !! q = Some Dir
        ∧ q `prefix_of` ["proj"; "docs-deps"; "left-pad"])
     ∨ ∃ f bs,
         (f = "README.md" ∨ Glob.matches false Glob.licensePattern f = true)
         ∧ q = ["proj"; "docs-deps"; "left-pad"] ++ [f]
         ∧ fs s !! (["proj"; "node_modules"; "left-pad"] ++ [f])
           = Some (File bs)
         ∧ fs r.2 !! q = Some (File (Utf8.recode bs))).
Proof.
  intros E s r q. split; [reflexivity|]. split; [vm_compute; reflexivity|].
  apply (processDependency_writes_copies_only E "left-pad"
           ["proj"; "docs-deps"] false s r.1 r.2).
  vm_compute. reflexivity.
Defined.

(** X6: [processDependency] throws exactly when its call of [mkdir] for the
    output directory of the package throws, with the error of that call, and
    it has then done nothing but that call: no file of the package is looked
    up, read or written and nothing is printed. *)
Theorem processDependency_throws_with_mkdir E packageName outDirPath verbose
    s e s' :
  processDependency E packageName outDirPath verbose s = (Throw e, s')
  ↔ mkdir E (join outDirPath packageName) s = (Throw e, s').
Proof.
  pose proof (processDependency_shape E packageName outDirPath verbose s) as Hs.
  cbv zeta in Hs. rewrite (mkdir_eq E (join outDirPath packageName) s).
  destruct (fs_mkdir E (fs s) (join outDirPath packageName)) as [[[]|e'] m1];
    cbn [fst snd outcome].
  - destruct Hs as (t & -> & _). split; discriminate.
  - rewrite Hs. split; intros [= -> <-]; reflexivity.
Qed.

Lemma processDependency_throws_with_mkdir_witness :
  let E := project Linux (Parsed two_packages) in
  let s := start foo_blocked in
  let r := mkdir E ["proj"; "docs-deps"; "foo"] s in
  r = (Throw (SystemError EEXIST),
       {| fs := fs s;
          trace := [Call Mkdir ["proj"; "docs-deps"; "foo"]
                      (Some (SystemError EEXIST))] |})
  ∧ processDependency E "foo" ["proj"; "docs-deps"] true s
    = (Throw (SystemError EEXIST), r.2).
Proof.
  intros E s r. split; [vm_compute; reflexivity|].
  apply (proj2 (processDependency_throws_with_mkdir E "foo"
                  ["proj"; "docs-deps"] true s (SystemError EEXIST) r.2)).
  vm_compute. reflexivity.
Defined.

(** X19: a package without [README.md] is passed over in silence.  When the
    call of [access] for [README.md] fails (the file is missing, or the call
    is refused), [processDependency] neither reads nor writes a README, prints
    no line about a README, not even an error line, leaves what is at the
    place of the copy as it is, and goes on with the license files. *)
Theorem processDependency_skips_missing_readme E packageName outDirPath
    verbose s s1 :
  let packageDir := join (join (projectRoot E) "node_modules") packageName in
  let outputDir := join outDirPath packageName in
  let readmePath := join packageDir "README.md" in
  let readmeOutputPath := join outputDir "README.md" in
  mkdir E outputDir s = (Ok (), s1) →
  refused E Access readmePath = true ∨ lookup_node (fs s1) readmePath = None →
  ∃ n s' e oc t,
    processDependency E packageName outDirPath verbose s = (Ok n, s')
    ∧ trace s' = trace s1 ++ Call Access readmePath (Some e)
                   :: Call GlobDir packageDir oc :: t
    ∧ (∀ oc', Call ReadFile readmePath oc' ∉ t)
    ∧ (∀ oc', Call WriteFile readmeOutputPath oc' ∉ t)
    ∧ (∀ m, ConsoleLog (CopiedReadme m) ∉ t)
    ∧ (∀ m err, ConsoleError (FailedReadme m err) ∉ t)
    ∧ fs s' !! readmeOutputPath = fs s1 !! readmeOutputPath.
Proof.
  intros packageDir outputDir readmePath readmeOutputPath Hmk Hmiss.
  subst readmePath readmeOutputPath. rewrite !join_literal in *.
  rewrite (mkdir_eq E outputDir s) in Hmk.
  destruct (fs_mkdir E (fs s) outputDir) as [r m1] eqn:Hfm.
  cbn [fst snd] in Hmk. injection Hmk as -> <-. cbn [fs trace outcome] in *.
  assert (exists_at E m1 (packageDir ++ ["README.md"]) = false) as Hex.
  { unfold exists_at. destruct Hmiss as [-> | ->]; [done|].
    rewrite bool_decide_eq_false_2 by (by intros [? ?]).
    apply andb_false_r. }
  destruct (processDependency_no_readme E packageName outDirPath verbose s m1
              Hfm Hex) as (e & oc & t & Heq & Hall & _).
  fold outputDir in Heq. fold packageDir in Heq.
  rewrite Forall_forall in Hall.
  do 2 eexists. exists e, oc. eexists. split; [exact Heq|]. cbn [fs trace].
  split; [by rewrite <- !app_assoc|].
  assert (∀ ev, ev ∈ t ++ (if bool_decide (n_files E m1 packageDir outputDir = 0)
                              && verbose
                           then [ConsoleLog (NoFilesFound packageName)]
                           else []) →
          license_event E packageName outDirPath verbose ev
          ∨ ev = ConsoleLog (NoFilesFound packageName)) as Hev.
  { intros ev [Hin|Hin]%elem_of_app; [left; by apply Hall|]. right.
    destruct (_ && verbose); [|by apply elem_of_nil in Hin].
    by apply list_elem_of_singleton in Hin. }
  split_and!.
  - intros oc' [Hl|?]%Hev; [|done]. destruct Hl as (f & Hf & Hm).
    apply app_singleton_inj in Hf as [_ <-].
    by apply matches_license_not_readme in Hm.
  - intros oc' [Hl|?]%Hev; [|done]. destruct Hl as (f & Hf & Hm).
    apply app_singleton_inj in Hf as [_ <-].
    by apply matches_license_not_readme in Hm.
  - by intros m [Hl|?]%Hev.
  - by intros m err [Hl|?]%Hev.
  - by apply fs_files_no_readme.
Qed.

Lemma processDependency_skips_missing_readme_witness :
  let E := project Linux (Parsed two_packages) in
  let s := start licensed_only in
  let s1 := (mkdir E ["proj"; "docs-deps"; "left-pad"] s).2 in
  let r := processDependency E "left-pad" ["proj"; "docs-deps"] true s in
  r.1 = Ok 1
  ∧ ∃ e oc t,
      trace r.2
      = trace s1
        ++ Call Access ["proj"; "node_modules"; "left-pad"; "README.md"] (Some e)
        :: Call GlobDir ["proj"; "node_modules"; "left-pad"] oc :: t
      ∧ (∀ m err, ConsoleError (FailedReadme m err) ∉ t).
Proof.
  intros E s s1 r.
  destruct (processDependency_skips_missing_readme E "left-pad"
              ["proj"; "docs-deps"] true s s1)
    as (n & s' & e & oc & t & Hpd & Ht & _ & _ & _ & Hsilent & _).
  { vm_compute. reflexivity. }
  { right. vm_compute. reflexivity. }
  assert (s' = r.2) as -> by (unfold r; by rewrite Hpd).
  split; [vm_compute; reflexivity|].
  exists e, oc, t. split; [exact Ht | exact Hsilent].
Defined.

End PackageProperties.

(** ** The events of a run, the codec, and the order of the names *)

Module RunShapeFacts.
Import Path Node Effects Shape.
Import PathFacts GlobFacts JSFacts NodeFacts StepFacts EffectFacts RunFacts.
Import PackageFacts ShapeFacts.

Section RunShape.
Context (E : env).
Implicit Types (p q src dst d : path) (s : state) (m : gmap path node).
Implicit Types (o : op) (t : list event) (f g : string).

Lemma processDependency_events packageName outDirPath verbose s :
  ∃ t, trace (processDependency E packageName outDirPath verbose s).2
       = trace s ++ t
       ∧ Forall (package_event E packageName outDirPath verbose) t.
Proof.
  pose proof (processDependency_shape E packageName outDirPath verbose s) as Hs.
  cbv zeta in Hs.
  destruct (fs_mkdir E (fs s) (join outDirPath packageName)) as [[[]|e] m1].
  - destruct Hs as (t & -> & Hall & _). eexists. split; [reflexivity|].
    constructor; [left; by eexists|]. apply Forall_app. split.
    + eapply Forall_impl; [exact Hall|]. intros e He. right; by left.
    + destruct (bool_decide _ && verbose) eqn:Hb; [|constructor].
      apply andb_true_iff in Hb as [_ ->].
      constructor; [|constructor]. right; by right.
  - rewrite Hs. eexists. split; [reflexivity|].
    constructor; [left; by eexists | constructor].
Qed.

Lemma processAll_events names outDirPath verbose : ∀ c k s,
  ∃ t, trace (processAll E names outDirPath verbose c k s).2 = trace s ++ t
       ∧ Forall (λ e, ∃ name, name ∈ names
                      ∧ package_event E name outDirPath verbose e) t.
Proof.
  induction names as [|name rest IH]; intros c k s; cbn [processAll].
  { exists []. split; [by rewrite app_nil_r | constructor]. }
  destruct (processDependency_events name outDirPath verbose s)
    as (t1 & Ht1 & Hall1).
  unfold mbind, M_bind.
  destruct (processDependency E name outDirPath verbose s) as [[n|e] s1];
    cbn [snd] in *.
  - assert (∀ c k, ∃ t,
      trace (processAll E rest outDirPath verbose c k s1).2 = trace s ++ t
      ∧ Forall (λ e, ∃ name0, name0 ∈ name :: rest
                     ∧ package_event E name0 outDirPath verbose e) t)
      as Hrest.
    { intros c' k'. destruct (IH c' k' s1) as (t2 & -> & Hall2).
      exists (t1 ++ t2). split; [by rewrite Ht1, app_assoc|].
      apply Forall_app. split.
      - eapply Forall_impl; [exact Hall1|]. intros e He.
        exists name. split; [by left | done].
      - eapply Forall_impl; [exact Hall2|]. intros e (name0 & ? & ?).
        exists name0. split; [by right | done]. }
    destruct (bool_decide (0 < n)); apply Hrest.
  - exists t1. split; [done|].
    eapply Forall_impl; [exact Hall1|]. intros e' He.
    exists name. split; [by left | done].
Qed.

(** The events of a run. *)
Lemma main_events options s :
  let packageJsonPath := join (projectRoot E) "package.json" in
  let outDirPath := join (projectRoot E) (outdir options) in
  let names := from_option packageNames [] (manifest_ok E) in
  ∃ t, trace (main E options s).2 = trace s ++ t
       ∧ Forall (λ e,
           (∃ oc, e = Call ReadFile packageJsonPath oc)
           ∨ (∃ oc, e = Call Mkdir outDirPath oc)
           ∨ (∃ name, name ∈ names
                      ∧ package_event E name outDirPath (verbose options) e)
           ∨ (e = ConsoleLog NoDependencies ∧ verbose options = true)
           ∨ (∃ c k, e = ConsoleLog (Summary c k outDirPath))
           ∨ (∃ err, e = ConsoleError (ErrorExtracting err))) t.
Proof.
  intros packageJsonPath outDirPath names. unfold main, extractNpmReadmes.
  fold packageJsonPath outDirPath.
  pose proof (readPackageJson_eq E s) as Hread. cbv zeta in Hread.
  fold packageJsonPath in Hread. subst names.
  destruct (manifest_ok E) as [packageJson|]; cbn [from_option].
  2:{ destruct Hread as (e & oc & Hread).
      rewrite (bind_inv_eq _ _ _ _ Hread). cbn [fs trace snd].
      rewrite <- app_assoc. eexists. split; [reflexivity|].
      constructor; [left; by eexists|].
      constructor; [|constructor]. do 5 right. by eexists. }
  rewrite (bind_inv_eq _ _ _ _ Hread). cbv zeta. unfold packageNames.
  destruct (bool_decide (length (JS.keys (allDependencies packageJson)) = 0)).
  { unfold when, console_log, emit, mret, M_ret.
    destruct (verbose options) eqn:Hv; cbn [fs trace snd].
    - rewrite <- app_assoc. eexists. split; [reflexivity|].
      constructor; [left; by eexists|].
      constructor; [|constructor]. do 3 right. by left.
    - eexists. split; [reflexivity|].
      constructor; [left; by eexists | constructor]. }
  rewrite (bind_inv_eq _ _ _ _ (mkdir_eq E outDirPath _)). cbn [fs trace].
  destruct (fs_mkdir E (fs s) outDirPath) as [[[]|e] m1]; cbn [fst snd outcome].
  2:{ cbn [fs trace]. rewrite <- !app_assoc. eexists. split; [reflexivity|].
      constructor; [left; by eexists|].
      constructor; [right; left; by eexists|].
      constructor; [|constructor]. do 5 right. by eexists. }
  match goal with
  | |- context [(processAll E ?a ?b ?c ?d ?e ≫= _) ?st] =>
    destruct (processAll_events a b c d e st) as (t & Ht & Hall);
    destruct (processAll E a b c d e st) as [[counts|e'] s2] eqn:Hpa
  end;
    cbn [fs trace snd] in Ht; rewrite (bind_inv_eq _ _ _ _ Hpa);
    unfold console_log, emit; cbn [fs trace snd]; rewrite Ht;
    rewrite <- !app_assoc; (eexists; split; [reflexivity|]);
    (constructor; [left; by eexists|]);
    (constructor; [right; left; by eexists|]);
    (apply Forall_app; split;
     [eapply Forall_impl; [exact Hall|]; intros e0 He0; right; right; by left|]);
    (constructor; [|constructor]).
  - do 4 right. left. by do 2 eexists.
  - do 5 right. by eexists.
Qed.

End RunShape.
End RunShapeFacts.

Module CodecFacts.
Import Utf8 Utf8Facts.
Local Open Scope Z_scope.

Lemma byte_val_of z : 0 <= z < 256 -> byte_val (byte_of z) = z.
Proof.
  intros Hz. unfold byte_val, byte_of.
  destruct (Byte.of_N (Z.to_N z)) as [b|] eqn:Hb.
  - apply Byte.to_of_N in Hb. simpl. rewrite Hb. lia.
  - apply Byte.of_N_None_iff in Hb. lia.
Qed.

(** The code points that the decoder delivers: no surrogate, none above
    U+10FFFF. *)
Lemma decode_scalar n : ∀ bs,
  (length bs ≤ n)%nat ->
  Forall (λ c, 0 <= c < 0xD800 \/ 0xE000 <= c < 0x110000) (decode bs).
Proof.
  induction n as [|n IH]; intros bs Hn.
  { destruct bs; [constructor | simpl in Hn; lia]. }
  destruct bs as [|b0 r0]; [constructor|].
  assert (∀ r, (length r ≤ length r0)%nat ->
    Forall (λ c, 0 <= c < 0xD800 \/ 0xE000 <= c < 0x110000) (decode r))
    as Hrec.
  { intros r Hr. apply IH. simpl in Hn. lia. }
  assert (∀ l, Forall (λ c, 0 <= c < 0xD800 \/ 0xE000 <= c < 0x110000) l ->
    Forall (λ c, 0 <= c < 0xD800 \/ 0xE000 <= c < 0x110000) (REPLACEMENT :: l))
    as Hrep.
  { intros l Hl. constructor; [unfold REPLACEMENT; lia | exact Hl]. }
  cbn [decode]. cbv zeta.
  pose proof (byte_val_range b0) as Hb0.
  destruct (Z.ltb_spec (byte_val b0) 0x80).
  { constructor; [lia|]. by apply Hrec. }
  destruct (in_range 0xC2 0xDF (byte_val b0)) eqn:R2.
  { apply in_range_spec in R2.
    destruct r0 as [|b1 r1]; [by apply Hrep|].
    destruct (is_cont (byte_val b1)) eqn:C1; [|by apply Hrep, Hrec].
    apply in_range_spec in C1.
    constructor; [unfold cp2; lia|]. apply Hrec. simpl. lia. }
  destruct (in_range 0xE0 0xEF (byte_val b0)) eqn:R3.
  { apply in_range_spec in R3.
    destruct r0 as [|b1 r1]; [by apply Hrep|].
    destruct (in_range (lo3 (byte_val b0)) (hi3 (byte_val b0)) (byte_val b1))
      eqn:C1; [|by apply Hrep, Hrec].
    apply in_range_spec in C1.
    destruct r1 as [|b2 r2]; [by apply Hrep|].
    destruct (is_cont (byte_val b2)) eqn:C2;
      [|apply Hrep, Hrec; simpl; lia].
    apply in_range_spec in C2.
    constructor; [|apply Hrec; simpl; lia].
    revert C1. unfold cp3, lo3, hi3.
    destruct (Z.eqb_spec (byte_val b0) 0xE0),
             (Z.eqb_spec (byte_val b0) 0xED); lia. }
  destruct (in_range 0xF0 0xF4 (byte_val b0)) eqn:R4;
    [|by apply Hrep, Hrec].
  apply in_range_spec in R4.
  destruct r0 as [|b1 r1]; [by apply Hrep|].
  destruct (in_range (lo4 (byte_val b0)) (hi4 (byte_val b0)) (byte_val b1))
    eqn:C1; [|by apply Hrep, Hrec].
  apply in_range_spec in C1.
  destruct r1 as [|b2 r2]; [by apply Hrep|].
  destruct (is_cont (byte_val b2)) eqn:C2; [|apply Hrep, Hrec; simpl; lia].
  apply in_range_spec in C2.
  destruct r2 as [|b3 r3]; [by apply Hrep|].
  destruct (is_cont (byte_val b3)) eqn:C3; [|apply Hrep, Hrec; simpl; lia].
  apply in_range_spec in C3.
  constructor; [|apply Hrec; simpl; lia].
  revert C1. unfold cp4, lo4, hi4.
  destruct (Z.eqb_spec (byte_val b0) 0xF0),
           (Z.eqb_spec (byte_val b0) 0xF4); lia.
Qed.

Lemma well_formed_encode_cp c l :
  0 <= c < 0xD800 \/ 0xE000 <= c < 0x110000 ->
  well_formed (encode_cp c ++ l) = well_formed l.
Proof.
  intros Hc. unfold encode_cp. rewrite in_range_false by lia.
  unfold encode_scalar.
  destruct (Z.ltb_spec c 0x80).
  { cbn [app well_formed]. cbv zeta. rewrite byte_val_of by lia.
    destruct (Z.ltb_spec c 0x80); [done | lia]. }
  destruct (Z.ltb_spec c 0x800).
  { cbn [app well_formed]. cbv zeta.
    rewrite !byte_val_of by (Z.div_mod_to_equations; lia).
    destruct (Z.ltb_spec (0xC0 + c / 64) 0x80);
      [Z.div_mod_to_equations; lia|].
    replace (in_range 0xC2 0xDF (0xC0 + c / 64)) with true
      by (symmetry; apply in_range_spec; Z.div_mod_to_equations; lia).
    replace (is_cont (0x80 + c mod 64)) with true
      by (symmetry; apply in_range_spec; Z.div_mod_to_equations; lia).
    done. }
  destruct (Z.ltb_spec c 0x10000).
  { cbn [app well_formed]. cbv zeta.
    rewrite !byte_val_of by (Z.div_mod_to_equations; lia).
    destruct (Z.ltb_spec (0xE0 + c / 4096) 0x80);
      [Z.div_mod_to_equations; lia|].
    rewrite (in_range_false 0xC2 0xDF) by (Z.div_mod_to_equations; lia).
    replace (in_range 0xE0 0xEF (0xE0 + c / 4096)) with true
      by (symmetry; apply in_range_spec; Z.div_mod_to_equations; lia).
    replace (in_range (lo3 (0xE0 + c / 4096)) (hi3 (0xE0 + c / 4096))
               (0x80 + (c / 64) mod 64)) with true.
    2:{ symmetry; apply in_range_spec. unfold lo3, hi3.
        destruct (Z.eqb_spec (0xE0 + c / 4096) 0xE0),
                 (Z.eqb_spec (0xE0 + c / 4096) 0xED);
          Z.div_mod_to_equations; lia. }
    replace (is_cont (0x80 + c mod 64)) with true
      by (symmetry; apply in_range_spec; Z.div_mod_to_equations; lia).
    done. }
  cbn [app well_formed]. cbv zeta.
  rewrite !byte_val_of by (Z.div_mod_to_equations; lia).
  destruct (Z.ltb_spec (0xF0 + c / 262144) 0x80);
    [Z.div_mod_to_equations; lia|].
  rewrite (in_range_false 0xC2 0xDF) by (Z.div_mod_to_equations; lia).
  rewrite (in_range_false 0xE0 0xEF) by (Z.div_mod_to_equations; lia).
  replace (in_range 0xF0 0xF4 (0xF0 + c / 262144)) with true
    by (symmetry; apply in_range_spec; Z.div_mod_to_equations; lia).
  replace (in_range (lo4 (0xF0 + c / 262144)) (hi4 (0xF0 + c / 262144))
             (0x80 + (c / 4096) mod 64)) with true.
  2:{ symmetry; apply in_range_spec. unfold lo4, hi4.
      destruct (Z.eqb_spec (0xF0 + c / 262144) 0xF0),
               (Z.eqb_spec (0xF0 + c / 262144) 0xF4);
        Z.div_mod_to_equations; lia. }
  replace (is_cont (0x80 + (c / 64) mod 64)) with true
    by (symmetry; apply in_range_spec; Z.div_mod_to_equations; lia).
  replace (is_cont (0x80 + c mod 64)) with true
    by (symmetry; apply in_range_spec; Z.div_mod_to_equations; lia).
  done.
Qed.

Lemma well_formed_encode s :
  Forall (λ c, 0 <= c < 0xD800 \/ 0xE000 <= c < 0x110000) s ->
  well_formed (encode s) = true.
Proof.
  induction 1 as [|c s Hc _ IH]; [done|].
  rewrite encode_cons, well_formed_encode_cp by exact Hc. exact IH.
Qed.

(** What the codec writes is well-formed, whatever it read. *)
Lemma well_formed_recode bs : well_formed (recode bs) = true.
Proof. apply well_formed_encode, (decode_scalar (length bs)). done. Qed.

Lemma recode_recode bs : recode (recode bs) = recode bs.
Proof. apply recode_well_formed, well_formed_recode. Qed.

End CodecFacts.

Module OrderFacts.
Import JS JSFacts.

Lemma own_properties_plain (o : object) :
  (∀ k, k ∈ o.*1 → array_index k = None) → own_properties o = o.
Proof.
  intros Hk. unfold own_properties.
  assert (omap indexed o = []) as ->.
  { induction o as [|[k v] o IH]; [done|]. cbn [omap list_omap].
    unfold indexed at 1. cbn [fst]. rewrite (Hk k) by (by left).
    cbn [fmap option_fmap option_map]. apply IH.
    intros k' Hk'. apply Hk. by right. }
  cbn. clear -Hk. induction o as [|[k v] o IH]; [done|].
  rewrite filter_cons_True by (apply Hk; by left).
  f_equal. apply IH. intros k' Hk'. apply Hk. by right.
Qed.

Lemma filter_iff_elem {A} (P Q : A → Prop) `{!∀ x, Decision (P x)}
    `{!∀ x, Decision (Q x)} (l : list A) :
  (∀ x, x ∈ l → P x ↔ Q x) → filter P l = filter Q l.
Proof.
  induction l as [|x l IH]; intros Hiff; [done|].
  rewrite !filter_cons.
  destruct (decide (P x)) as [HP|HP], (decide (Q x)) as [HQ|HQ].
  - f_equal. apply IH. intros y Hy. apply Hiff. by right.
  - exfalso. apply HQ, (Hiff x); [by left | done].
  - exfalso. apply HP, (Hiff x); [by left | done].
  - apply IH. intros y Hy. apply Hiff. by right.
Qed.

Lemma filter_not_elem_of_nil `{EqDecision A} (l : list A) :
  filter (λ k, k ∉ @nil A) l = l.
Proof.
  induction l as [|x l IH]; [done|].
  rewrite filter_cons_True by (by intros ?%elem_of_nil). by rewrite IH.
Qed.

Lemma foldl_set_property_keys (l : object) : ∀ target : object,
  NoDup l.*1 →
  (foldl (λ o kv, set_property o kv.1 kv.2) target l).*1
  = target.*1 ++ filter (λ k, k ∉ target.*1) l.*1.
Proof.
  induction l as [|[k v] l IH]; intros target Hnd; cbn [foldl fmap list_fmap].
  { by rewrite app_nil_r. }
  apply NoDup_cons in Hnd as [Hk Hnd]. cbn [fst snd].
  rewrite IH by exact Hnd.
  destruct (decide (k ∈ target.*1)) as [Hin|Hout].
  - rewrite set_property_keys_old by exact Hin.
    by rewrite filter_cons_False by (intros ?; done).
  - rewrite set_property_keys_new by exact Hout.
    rewrite filter_cons_True by exact Hout. rewrite <- app_assoc. cbn [app].
    do 2 f_equal. apply filter_iff_elem. intros x Hx.
    rewrite not_elem_of_app, list_elem_of_singleton.
    split; [by intros [? _]|]. intros ?. split; [done|]. by intros ->.
Qed.

Lemma keys_plain (o : object) :
  (∀ k, k ∈ o.*1 → array_index k = None) → keys o = o.*1.
Proof. intros H. unfold keys. by rewrite own_properties_plain. Qed.

Lemma spread_keys_plain (target : object) (source : option object) :
  NoDup (names_of source) →
  (∀ k, k ∈ names_of source → array_index k = None) →
  (spread target source).*1
  = target.*1 ++ filter (λ k, k ∉ target.*1) (names_of source).
Proof.
  unfold names_of. destruct source as [src|]; cbn [spread default].
  - intros Hnd Hk. rewrite own_properties_plain by exact Hk.
    by apply foldl_set_property_keys.
  - intros _ _. cbn. by rewrite app_nil_r.
Qed.

End OrderFacts.

(** ** Properties of a run *)

Module RunPlaceFacts.
Import Path Node Effects Shape.
Import PathFacts NodeFacts StepFacts EffectFacts RunFacts PackageFacts.
Import AgainFacts ShapeFacts.

Section Place.
Context (E : env) (options : CliOptions).

Local Abbreviation outDirPath := (join (projectRoot E) (outdir options)).
Local Abbreviation names := (from_option packageNames [] (manifest_ok E)).

Lemma main_fs_after s :
  fs (main E options s).2 = (fs_main E options (fs s)).2.
Proof. by rewrite <- (main_fs E options s). Qed.

Lemma prefix_app_cases (q a b : path) :
  q `prefix_of` a ++ b → q `prefix_of` a ∨ a `prefix_of` q.
Proof.
  intros Hq. apply (prefix_weak_total q a (a ++ b)); [done|].
  by apply prefix_app_r.
Qed.

(** Where a run with names without [..] changes the file system. *)
Lemma main_changed_place s q :
  Forall plain names →
  fs (main E options s).2 !! q ≠ fs s !! q →
  outDirPath `prefix_of` q
  ∨ (q `prefix_of` outDirPath ∧ fs s !! q = None
     ∧ fs (main E options s).2 !! q = Some Dir).
Proof.
  intros Hplain Hne. rewrite main_fs_after in *.
  rewrite Forall_forall in Hplain.
  destruct (fs_main_copies_into E options (fs s) q)
    as [?|[(Hn & Hd & d & Hin & Hq)|(d & f & bs & Hin & -> & _)]]; [done| |].
  - apply elem_of_cons in Hin as [->|Hin]; [by right|].
    apply list_elem_of_fmap in Hin as (name & -> & Hname).
    rewrite (join_plain _ name) in Hq by (by apply Hplain).
    destruct (prefix_app_cases _ _ _ Hq); [by right | by left].
  - apply list_elem_of_fmap in Hin as (name & -> & Hname).
    rewrite (join_plain _ name) by (by apply Hplain).
    left. rewrite <- app_assoc. by apply prefix_app_r.
Qed.

End Place.
End RunPlaceFacts.

(** *** A project in which nothing is installed *)

Module AbsentFacts.
Import Path Node Effects Shape.
Import PathFacts NodeFacts StepFacts EffectFacts RunFacts PackageFacts.
Import AgainFacts ShapeFacts RunPlaceFacts.

Section Absent.
Context (E : env) (outDirPath : path) (verbose : bool).

Local Abbreviation node_modules := (join (projectRoot E) "node_modules").
Local Abbreviation absent m :=
  (∀ q : path, node_modules `prefix_of` q → m !! q = None).
Local Abbreviation only_dirs m m' :=
  (∀ q : path, m' !! q = m !! q ∨ (m !! q = None ∧ m' !! q = Some Dir)).

Hypothesis Hapart : apart outDirPath node_modules.

Lemma absent_mkdir_root (m : gmap path node) r m1 :
  absent m → fs_mkdir E m outDirPath = (r, m1) → absent m1.
Proof.
  intros Habs Hmk q Hq.
  destruct (fs_mkdir_changes _ _ _ _ _ Hmk q) as [->|(_ & _ & Hpre & _)];
    [by apply Habs|].
  exfalso. destruct Hapart as [_ Hap]. apply Hap. by etrans.
Qed.

Lemma absent_mkdir (m : gmap path node) name r m1 :
  plain name → absent m →
  fs_mkdir E m (join outDirPath name) = (r, m1) → absent m1.
Proof.
  intros Hplain Habs Hmk q Hq.
  destruct (fs_mkdir_changes _ _ _ _ _ Hmk q) as [->|(_ & _ & Hpre & _)];
    [by apply Habs|].
  exfalso. rewrite (join_plain _ name) in Hpre by exact Hplain.
  assert (node_modules `prefix_of` outDirPath ++ segments name) as Hnm
    by (by etrans).
  destruct Hapart as [Hap1 Hap2].
  destruct (prefix_app_cases _ _ _ Hnm); done.
Qed.

Lemma node_modules_ne_nil : node_modules ≠ [].
Proof.
  change (projectRoot E ++ ["node_modules"] ≠ []). by destruct (projectRoot E).
Qed.

(** One package when nothing is installed. *)
Lemma absent_package name s :
  plain name → absent (fs s) →
  match fs_mkdir E (fs s) (join outDirPath name) with
  | (Ok _, m1) =>
    absent m1
    ∧ ∃ e oc,
        processDependency E name outDirPath verbose s
        = (Ok 0,
           {| fs := m1;
              trace := trace s
                ++ [Call Mkdir (join outDirPath name) None;
                    Call Access (package_dir E name ++ ["README.md"]) (Some e);
                    Call GlobDir (package_dir E name) oc]
                ++ (if verbose then [ConsoleLog (NoFilesFound name)]
                    else []) |})
  | (Throw e, m1) =>
    absent m1
    ∧ processDependency E name outDirPath verbose s
      = (Throw e,
         {| fs := m1;
            trace := trace s
              ++ [Call Mkdir (join outDirPath name) (Some e)] |})
  end.
Proof.
  intros Hplain Habs.
  pose proof (processDependency_shape E name outDirPath verbose s) as Hs.
  cbv zeta in Hs.
  destruct (fs_mkdir E (fs s) (join outDirPath name)) as [[[]|e] m1] eqn:Hmk;
    pose proof (absent_mkdir _ _ _ _ Hplain Habs Hmk) as Habs1;
    (split; [exact Habs1|]); [|exact Hs].
  clear Hs.
  assert (node_modules `prefix_of` package_dir E name) as Hpd.
  { unfold package_dir. rewrite (join_plain _ name) by exact Hplain.
    by apply prefix_app_r. }
  assert (exists_at E m1 (package_dir E name ++ ["README.md"]) = false) as Hex.
  { unfold exists_at. rewrite lookup_node_snoc.
    rewrite (Habs1 _ (prefix_app_r _ _ _ Hpd)).
    rewrite bool_decide_eq_false_2 by (by intros [? ?]). apply andb_false_r. }
  assert (license_files E m1 (package_dir E name) = []) as Hlic.
  { apply elem_of_nil_inv. intros f (_ & Hd & _)%elem_of_license_files.
    assert (package_dir E name ≠ []) as Hne.
    { intros Hnil. rewrite Hnil in Hpd. apply prefix_nil_inv in Hpd.
      by apply node_modules_ne_nil. }
    destruct (package_dir E name) as [|c p] eqn:Hp; [done|].
    cbn [lookup_node] in Hd. by rewrite (Habs1 _ Hpd) in Hd. }
  destruct (processDependency_no_readme E name outDirPath verbose s m1 Hmk Hex)
    as (e & oc & t & Heq & _ & Hnil).
  rewrite (Hnil Hlic) in Heq. exists e, oc. rewrite Heq.
  assert (n_files E m1 (package_dir E name) (join outDirPath name) = 0) as ->.
  { unfold n_files, n_readme. cbv zeta. rewrite join_literal, Hex.
    assert (fs_readme E m1 (package_dir E name) (join outDirPath name) = m1)
      as -> by (unfold fs_readme; by rewrite join_literal, Hex).
    by rewrite Hlic. }
  assert (fs_files E m1 (package_dir E name) (join outDirPath name) = m1) as ->.
  { unfold fs_files. cbv zeta.
    assert (fs_readme E m1 (package_dir E name) (join outDirPath name) = m1)
      as -> by (unfold fs_readme; by rewrite join_literal, Hex).
    by rewrite Hlic. }
  cbn [app bool_decide decide]. reflexivity.
Qed.

(** The loop when nothing is installed. *)
Lemma absent_all names : ∀ c k s r s',
  Forall plain names → absent (fs s) →
  processAll E names outDirPath verbose c k s = (r, s') →
  ∃ t, trace s' = trace s ++ t
       ∧ (∀ x, r = Ok x → x = (c, k + length names)
                          ∧ ∀ m, ConsoleError m ∉ t)
       ∧ only_dirs (fs s) (fs s').
Proof.
  induction names as [|name rest IH]; intros c k s r s' Hplain Habs;
    cbn [processAll].
  { intros [= <- <-]. exists []. rewrite app_nil_r, Nat.add_0_r.
    split_and!; [done| |by left].
    intros x [= <-]. split; [done|]. by intros m ?%elem_of_nil. }
  apply Forall_cons in Hplain as [Hname Hrest].
  pose proof (absent_package name s Hname Habs) as Hpkg.
  assert (only_dirs (fs s)
            (fs_mkdir E (fs s) (join outDirPath name)).2) as Hdirs.
  { intros q.
    destruct (fs_mkdir E (fs s) (join outDirPath name)) as [r0 m0] eqn:Hmk.
    destruct (fs_mkdir_changes _ _ _ _ _ Hmk q) as [?|(? & ? & _)];
      [by left | by right]. }
  destruct (fs_mkdir E (fs s) (join outDirPath name)) as [[[]|e] m1].
  - destruct Hpkg as (Habs1 & e & oc & Hpd).
    rewrite (bind_inv_eq _ _ _ _ Hpd). cbn [bool_decide decide].
    rewrite bool_decide_eq_false_2 by lia. intros Hall.
    destruct (IH _ _ {| fs := m1; trace := _ |} _ _ Hrest Habs1 Hall)
      as (t & Ht & Hok & Hd).
    cbn [fs trace] in Ht, Hd. eexists. split; [by rewrite Ht, <- app_assoc|].
    split.
    + intros x Hx. destruct (Hok x Hx) as [-> Hsilent].
      split; [f_equal; cbn [length]; lia|].
      intros m [Hin|Hin]%elem_of_app; [|by apply Hsilent in Hin].
      apply elem_of_app in Hin as [Hin|Hin].
      * repeat (apply elem_of_cons in Hin as [?|Hin]; [done|]).
        by apply elem_of_nil in Hin.
      * destruct verbose; [|by apply elem_of_nil in Hin].
        by apply list_elem_of_singleton in Hin.
    + intros q. cbn [snd] in Hdirs.
      destruct (Hd q) as [->|[Hn ->]]; [apply Hdirs|].
      right. split; [|done].
      destruct (Hdirs q) as [<-|[? ?]]; [done | congruence].
  - destruct Hpkg as (Habs1 & Hpd).
    rewrite (bind_inv_eq _ _ _ _ Hpd). intros [= <- <-].
    eexists. split; [reflexivity|]. split; [done|]. apply Hdirs.
Qed.

End Absent.
End AbsentFacts.

Module RunProperties.
Import Path Node Effects Shape Examples Worlds.
Import PathFacts JSFacts NodeFacts StepFacts EffectFacts RunFacts PackageFacts.
Import AgainFacts ShapeFacts RunShapeFacts CodecFacts OrderFacts RunPlaceFacts.
Import AbsentFacts.

(** X7: when [package.json] cannot be read or cannot be parsed, the run
    ends with exit code 1 after the one call that reads the manifest and one
    error line that carries the error: the error of the call, or a syntax
    error when the call succeeded.  The file system is as it was; no directory
    is made and no package is looked at. *)
Theorem main_manifest_failure E options s :
  manifest_ok E = None →
  ∃ e oc,
    main E options s
    = (1%Z,
       {| fs := fs s;
          trace := trace s
            ++ [Call ReadFile (join (projectRoot E) "package.json") oc;
                ConsoleError (ErrorExtracting e)] |})
    ∧ match oc with
      | Some e' => e' = e
      | None => e = SyntaxError
      end.
Proof.
  unfold manifest_ok, main, extractNpmReadmes, readPackageJson.
  unfold syscall, mbind, M_bind, mret, M_ret, throw.
  destruct (refused E ReadFile (join (projectRoot E) "package.json")).
  { intros _. exists (SystemError EACCES), (Some (SystemError EACCES)).
    destruct (manifest E); cbn [fs trace outcome];
      rewrite <- ?app_assoc; done. }
  destruct (manifest E) as [code| |packageJson]; [| |discriminate]; intros _.
  - exists (SystemError code), (Some (SystemError code)).
    cbn [fs trace outcome]. by rewrite <- app_assoc.
  - exists SyntaxError, None. cbn [fs trace outcome]. by rewrite <- app_assoc.
Qed.

Lemma main_manifest_failure_witness :
  let E := project Linux Malformed in
  manifest_ok E = None
  ∧ main E verbosely (start installed)
    = (1%Z,
       {| fs := tree installed;
          trace := [Call ReadFile ["proj"; "package.json"] None;
                    ConsoleError (ErrorExtracting SyntaxError)] |}).
Proof.
  intros E. split; [reflexivity|].
  destruct (main_manifest_failure E verbosely (start installed) eq_refl)
    as (e & oc & Hmain & Hoc).
  rewrite Hmain. vm_compute in Hmain. by injection Hmain as <- <-.
Defined.

(** X8: what a run changes in the file system.  Every path keeps what it
    had, or holds a directory that was missing and lies on the way to the
    output root or to the output directory of a package of the manifest, or
    is a file directly in the output directory of such a package that holds
    bytes written through the codec, at a path that was not a directory.  So
    a run removes nothing, never replaces a directory, and writes files
    nowhere but directly in the output directories of the packages. *)
Theorem main_changes E options s q :
  let outDirPath := join (projectRoot E) (outdir options) in
  let names := from_option packageNames [] (manifest_ok E) in
  let after := fs (main E options s).2 in
  after !! q = fs s !! q
  ∨ (fs s !! q = None ∧ after !! q = Some Dir
     ∧ (q `prefix_of` outDirPath
        ∨ ∃ name, name ∈ names ∧ q `prefix_of` join outDirPath name))
  ∨ (fs s !! q ≠ Some Dir
     ∧ ∃ name f bs, name ∈ names ∧ q = join outDirPath name ++ [f]
                    ∧ after !! q = Some (File (Utf8.recode bs))).
Proof.
  intros outDirPath names after. subst after. rewrite main_fs_after.
  destruct (fs_main_copies_into E options (fs s) q)
    as [?|[(Hn & Hd & d & Hin & Hq)|(d & f & bs & Hin & -> & Hf)]].
  - by left.
  - right; left. split_and!; [done..|].
    apply elem_of_cons in Hin as [->|Hin]; [by left|]. right.
    apply list_elem_of_fmap in Hin as (name & -> & Hname). by exists name.
  - right; right. split.
    + intros Hdir.
      apply (grows_dir _ _ _ (fs_main_grows E options (fs s))) in Hdir.
      congruence.
    + apply list_elem_of_fmap in Hin as (name & -> & Hname).
      by exists name, f, bs.
Qed.

(** X9: when no package name of the manifest has a [..] segment, a run
    changes nothing outside the output root, except that it makes the
    directories above the output root that are missing. *)
Theorem main_changes_stay_in_output E options s q :
  let outDirPath := join (projectRoot E) (outdir options) in
  let after := fs (main E options s).2 in
  Forall plain (from_option packageNames [] (manifest_ok E)) →
  after !! q ≠ fs s !! q →
  outDirPath `prefix_of` q
  ∨ (q `prefix_of` outDirPath ∧ fs s !! q = None ∧ after !! q = Some Dir).
Proof. intros outDirPath after. apply main_changed_place. Qed.

Lemma main_changes_stay_in_output_witness :
  let E := project Linux (Parsed two_packages) in
  let s := start installed in
  let after := fs (main E defaults s).2 in
  let q := ["proj"; "docs-deps"; "left-pad"; "README.md"] in
  fs s !! q = None
  ∧ after !! q = Some (File ["#"; " "; "p"; "a"; "d"]%byte)
  ∧ (["proj"; "docs-deps"] `prefix_of` q
     ∨ (q `prefix_of` ["proj"; "docs-deps"] ∧ fs s !! q = None
        ∧ after !! q = Some Dir)).
Proof.
  intros E s after q.
  assert (after !! q = Some (File ["#"; " "; "p"; "a"; "d"]%byte)) as Hq
    by (vm_compute; reflexivity).
  split; [vm_compute; reflexivity|]. split; [exact Hq|].
  apply (main_changes_stay_in_output E defaults s q).
  - change (from_option packageNames [] (manifest_ok E))
      with ["left-pad"; "foo"].
    apply Forall_cons_2; [|apply Forall_cons_2; [|apply Forall_nil_2]];
      unfold plain;
      (match goal with |- ?P => apply (@bool_decide_unpack P _) end);
      vm_compute; exact I.
  - fold after. rewrite Hq. vm_compute. discriminate.
Defined.

(** X10: when the output root is neither at, above nor below
    [node_modules] and no package name of the manifest has a [..] segment, a
    run changes nothing at or below [node_modules]: the installed packages are
    read, never written. *)
Theorem main_keeps_node_modules E options s q :
  apart (join (projectRoot E) (outdir options))
    (join (projectRoot E) "node_modules") →
  Forall plain (from_option packageNames [] (manifest_ok E)) →
  join (projectRoot E) "node_modules" `prefix_of` q →
  fs (main E options s).2 !! q = fs s !! q.
Proof.
  intros [Hap1 Hap2] Hplain Hq.
  destruct (decide (fs (main E options s).2 !! q = fs s !! q)) as [?|Hne];
    [done|].
  exfalso.
  destruct (main_changed_place E options s q Hplain Hne) as [Hout|(Hin & _)].
  - destruct (prefix_weak_total _ _ _ Hout Hq); done.
  - apply Hap2. by etrans.
Qed.

Lemma main_keeps_node_modules_witness :
  let E := project Linux (Parsed two_packages) in
  let s := start installed in
  let q := ["proj"; "node_modules"; "left-pad"; "README.md"] in
  fs s !! q = Some (File ["#"; " "; "p"; "a"; "d"]%byte)
  ∧ fs (main E defaults s).2 !! q = fs s !! q.
Proof.
  intros E s q. split; [vm_compute; reflexivity|].
  apply (main_keeps_node_modules E defaults s q).
  - split; intros [k Hk]; vm_compute in Hk; discriminate.
  - change (from_option packageNames [] (manifest_ok E))
      with ["left-pad"; "foo"].
    apply Forall_cons_2; [|apply Forall_cons_2; [|apply Forall_nil_2]];
      unfold plain;
      (match goal with |- ?P => apply (@bool_decide_unpack P _) end);
      vm_compute; exact I.
  - exists ["left-pad"; "README.md"]. reflexivity.
Defined.

(** X11: every file that a run creates or changes holds well-formed UTF-8,
    whatever the bytes of the file it was copied from. *)
Theorem main_writes_well_formed E options s q bs :
  fs (main E options s).2 !! q = Some (File bs) →
  fs s !! q ≠ Some (File bs) →
  Utf8.well_formed bs = true.
Proof.
  rewrite main_fs_after. intros Hq Hne.
  destruct (fs_main_copies_into E options (fs s) q)
    as [?|[(_ & ? & _)|(d & f & bs' & _ & _ & Hf)]]; [congruence..|].
  rewrite Hq in Hf. injection Hf as ->. apply well_formed_recode.
Qed.

Lemma main_writes_well_formed_witness :
  let E := project Linux (Parsed two_packages) in
  let s := start latin_readme in
  fs s !! ["proj"; "node_modules"; "left-pad"; "README.md"]
  = Some (File [xff])
  ∧ Utf8.well_formed [xff] = false
  ∧ fs (main E defaults s).2 !! ["proj"; "docs-deps"; "left-pad"; "README.md"]
    = Some (File [xef; xbf; xbd])
  ∧ Utf8.well_formed [xef; xbf; xbd] = true.
Proof.
  intros E s.
  assert (fs (main E defaults s).2
            !! ["proj"; "docs-deps"; "left-pad"; "README.md"]
          = Some (File [xef; xbf; xbd])) as Hq by (vm_compute; reflexivity).
  split; [vm_compute; reflexivity|]. split; [reflexivity|].
  split; [exact Hq|].
  apply (main_writes_well_formed E defaults s _ _ Hq).
  vm_compute. discriminate.
Defined.

(** X12: the order in which the packages are processed.  When no name is
    written as an array index (and the keys of each mapping are distinct, as
    the keys of an object are), the names of [dependencies] come first, in
    the order of the manifest, and after them the names of [devDependencies]
    that are not in [dependencies], in the order of the manifest. *)
Theorem packageNames_in_manifest_order packageJson :
  let deps := JS.names_of (dependencies packageJson) in
  let devs := JS.names_of (devDependencies packageJson) in
  NoDup deps → NoDup devs →
  (∀ k, k ∈ deps ++ devs → JS.array_index k = None) →
  packageNames packageJson = deps ++ filter (λ k, k ∉ deps) devs.
Proof.
  intros deps devs Hdeps Hdevs Hk.
  unfold packageNames, allDependencies.
  assert ((JS.spread (JS.spread [] (dependencies packageJson))
             (devDependencies packageJson)).*1
          = deps ++ filter (λ k, k ∉ deps) devs) as Hkeys.
  { rewrite spread_keys_plain;
      [|exact Hdevs | intros k ?; apply Hk, elem_of_app; by right].
    rewrite spread_keys_plain;
      [|exact Hdeps | intros k ?; apply Hk, elem_of_app; by left].
    cbn [fmap list_fmap app]. by rewrite filter_not_elem_of_nil. }
  rewrite keys_plain; [exact Hkeys|].
  intros k. rewrite Hkeys. intros [?|[_ ?]%list_elem_of_filter]%elem_of_app;
    apply Hk, elem_of_app; [by left | by right].
Qed.

Lemma packageNames_in_manifest_order_witness :
  JS.names_of (dependencies two_packages) = ["left-pad"; "foo"]
  ∧ JS.names_of (devDependencies two_packages) = ["foo"]
  ∧ packageNames two_packages
    = ["left-pad"; "foo"] ++ filter (λ k, k ∉ ["left-pad"; "foo"]) ["foo"].
Proof.
  split; [reflexivity|]. split; [reflexivity|].
  apply (packageNames_in_manifest_order two_packages).
  - apply (@bool_decide_unpack _ (NoDup_dec _)). vm_compute. exact I.
  - apply (@bool_decide_unpack _ (NoDup_dec _)). vm_compute. exact I.
  - intros k Hk. cbn in Hk.
    repeat (apply elem_of_cons in Hk as [->|Hk]; [vm_compute; reflexivity|]).
    by apply elem_of_nil in Hk.
Defined.

(** X13: without [verbose] a run logs nothing but the summary line; all its
    other console lines are error lines. *)
Theorem main_quiet E options s :
  verbose options = false →
  ∃ t, trace (main E options s).2 = trace s ++ t
       ∧ ∀ m, ConsoleLog m ∈ t →
              ∃ c k, m = Summary c k (join (projectRoot E) (outdir options)).
Proof.
  intros Hv. destruct (main_events E options s) as (t & Ht & Hall).
  exists t. split; [exact Ht|]. intros m Hin.
  rewrite Forall_forall in Hall. specialize (Hall _ Hin).
  destruct Hall as [[? ?]|[[? ?]|[(name & _ & Hp)|[[_ ?]|[(c & k & [= ->])|[? ?]]]]]];
    try congruence; [|by exists c, k].
  exfalso. rewrite Hv in Hp.
  destruct Hp as [[? ?]|[Hs|[_ ?]]]; [congruence| |congruence].
  unfold step_event in Hs. destruct m; try done; by destruct Hs.
Qed.

Lemma main_quiet_witness :
  let E := project Linux (Parsed two_packages) in
  let s := start installed in
  ∃ t, trace (main E defaults s).2 = trace s ++ t
       ∧ ConsoleLog (Summary 1 1 ["proj"; "docs-deps"]) ∈ t
       ∧ ∀ m, ConsoleLog m ∈ t → ∃ c k, m = Summary c k ["proj"; "docs-deps"].
Proof.
  intros E s.
  destruct (main_quiet E defaults s eq_refl) as (t & Ht & Honly).
  exists t. split; [exact Ht|]. split; [|exact Honly].
  assert (ConsoleLog (Summary 1 1 ["proj"; "docs-deps"])
          ∈ trace (main E defaults s).2) as Hin.
  { let l := eval vm_compute in (trace (main E defaults s).2) in
    replace (trace (main E defaults s).2) with l by (vm_compute; reflexivity).
    repeat first [apply list_elem_of_here | apply list_elem_of_further]. }
  by rewrite Ht in Hin.
Defined.

(** X20: the output directory is taken relative to the project directory
    also when the option is written with a leading slash: a run with the
    output directory [/x] does what a run with the output directory [x]
    does. *)
Theorem main_outdir_leading_slash E x v s :
  main E {| outdir := "/" +:+ x; verbose := v |} s
  = main E {| outdir := x; verbose := v |} s.
Proof.
  assert (join (projectRoot E) ("/" +:+ x) = join (projectRoot E) x) as Hjoin.
  { reflexivity. }
  unfold main, extractNpmReadmes. cbn [outdir verbose]. by rewrite Hjoin.
Qed.

(** X21: a project in which nothing is installed.  When nothing is at or
    below [node_modules], the output root is neither at, above nor below
    [node_modules], no package name has a [..] segment and no call of [mkdir]
    fails (the run ends with exit code 0), then the run prints no error line,
    counts every package as skipped, and changes the file system only by
    making directories that were missing. *)
Theorem main_nothing_installed E options s s' packageJson :
  let node_modules := join (projectRoot E) "node_modules" in
  let outDirPath := join (projectRoot E) (outdir options) in
  let names := packageNames packageJson in
  manifest_ok E = Some packageJson →
  names ≠ [] →
  apart outDirPath node_modules →
  Forall plain names →
  (∀ q, node_modules `prefix_of` q → fs s !! q = None) →
  main E options s = (0%Z, s') →
  ∃ t, trace s'
       = trace s ++ t ++ [ConsoleLog (Summary 0 (length names) outDirPath)]
       ∧ (∀ m, ConsoleError m ∉ t)
       ∧ (∀ q, fs s' !! q = fs s !! q
               ∨ (fs s !! q = None ∧ fs s' !! q = Some Dir)).
Proof.
  intros node_modules outDirPath names Hok Hne Hapart Hplain Habs.
  unfold main, extractNpmReadmes. fold outDirPath.
  pose proof (readPackageJson_eq E s) as Hread. cbv zeta in Hread.
  rewrite Hok in Hread. rewrite (bind_inv_eq _ _ _ _ Hread). cbv zeta.
  fold (packageNames packageJson). fold names.
  rewrite bool_decide_eq_false_2 by (by destruct names).
  rewrite (bind_inv_eq _ _ _ _ (mkdir_eq E outDirPath _)). cbn [fs trace].
  destruct (fs_mkdir E (fs s) outDirPath) as [[[]|e] m1] eqn:Hmk;
    cbn [fst snd outcome]; [|discriminate].
  pose proof (absent_mkdir_root E outDirPath Hapart _ _ _ Habs Hmk) as Habs1.
  match goal with
  | |- context [(processAll E ?a ?b ?c ?d ?e ≫= _) ?st] =>
    destruct (processAll E a b c d e st) as [r s2] eqn:Hpa
  end.
  rewrite (bind_inv_eq _ _ _ _ Hpa).
  destruct (absent_all E outDirPath (verbose options) Hapart names 0 0
              {| fs := m1; trace := _ |} r s2 Hplain Habs1 Hpa)
    as (t & Ht & Hcount & Hdirs).
  destruct r as [counts|e]; [|discriminate].
  destruct (Hcount counts eq_refl) as [-> Hsilent].
  unfold console_log, emit. cbn [fs trace fst snd]. intros [= <-].
  cbn [fs trace] in *. rewrite Ht, <- !app_assoc.
  exists ([Call ReadFile (join (projectRoot E) "package.json") None;
           Call Mkdir outDirPath None] ++ t).
  split_and!; [by rewrite <- !app_assoc| |].
  - intros m [Hin|Hin]%elem_of_app; [|by apply Hsilent in Hin].
    repeat (apply elem_of_cons in Hin as [?|Hin]; [done|]).
    by apply elem_of_nil in Hin.
  - intros q. destruct (Hdirs q) as [->|[Hn ->]].
    + destruct (fs_mkdir_changes _ _ _ _ _ Hmk q) as [?|(? & ? & _)];
        [by left | by right].
    + right. split; [|done].
      destruct (fs_mkdir_changes _ _ _ _ _ Hmk q) as [<-|(? & ? & _)];
        [done | congruence].
Qed.

Lemma main_nothing_installed_witness :
  let E := project Linux (Parsed two_packages) in
  let s := start bare in
  let r := main E verbosely s in
  r.1 = 0%Z
  ∧ fs r.2 !! ["proj"; "docs-deps"; "foo"] = Some Dir
  ∧ ∃ t, trace r.2
         = trace s ++ t ++ [ConsoleLog (Summary 0 2 ["proj"; "docs-deps"])]
         ∧ (∀ m, ConsoleError m ∉ t).
Proof.
  intros E s r.
  assert (r = (0%Z, r.2)) as Hr by (vm_compute; reflexivity).
  split; [vm_compute; reflexivity|]. split; [vm_compute; reflexivity|].
  destruct (main_nothing_installed E verbosely s r.2 two_packages)
    as (t & Ht & Hsilent & _).
  - reflexivity.
  - vm_compute. discriminate.
  - split; intros [k Hk]; vm_compute in Hk; discriminate.
  - change (packageNames two_packages) with ["left-pad"; "foo"].
    apply Forall_cons_2; [|apply Forall_cons_2; [|apply Forall_nil_2]];
      unfold plain;
      (match goal with |- ?P => apply (@bool_decide_unpack P _) end);
      vm_compute; exact I.
  - intros q [k ->].
    change (fs s) with (<[["proj"] := Dir]> (∅ : gmap path node)).
    rewrite lookup_insert_ne by (by intros [=]). apply lookup_empty.
  - exact Hr.
  - exists t. split; [exact Ht | exact Hsilent].
Defined.

End RunProperties.

(** ** The command line *)

Module ArgsFacts.
Import Node Args Cli.

(** The loop of [argsToTokens], one turn at a time. *)
Lemma argsToTokens_clause_const options arg remainingArgs x
    (F : list string → list token) :
  argsToTokens_clause_2 options arg remainingArgs x (λ y _, F y)
  = match proj1_sig x with
    | (tokens, Some rest) => tokens ++ F rest
    | (tokens, None) => tokens
    end.
Proof. destruct x as [[tokens [rest|]] H]; reflexivity. Qed.

Lemma argsToTokens_nil options : argsToTokens options [] = [].
Proof. reflexivity. Qed.

Lemma argsToTokens_cons options arg remainingArgs :
  argsToTokens options (arg :: remainingArgs)
  = match step options arg remainingArgs with
    | (tokens, Some rest) => tokens ++ argsToTokens options rest
    | (tokens, None) => tokens
    end.
Proof.
  unfold argsToTokens at 1. rewrite Subterm.FixWf_unfold.
  - exact (argsToTokens_clause_const options arg remainingArgs
             (inspect (step options arg remainingArgs)) (argsToTokens options)).
  - intros x f g Hfg. destruct x as [|a r]; [reflexivity|].
    cbn [argsToTokens_functional].
    destruct (inspect (step options a r)) as [[tokens [rest|]] H];
      cbn [argsToTokens_clause_2]; [|reflexivity].
    f_equal. rewrite Hfg. f_equal. apply proof_irrel.
Qed.

Lemma storeDefaults_outdir values :
  storeDefaults cliOptions values !! "outdir"
  = Some (match values !! "outdir" with
          | Some v => v
          | None => VString "./docs-deps"
          end).
Proof.
  unfold storeDefaults, cliOptions. cbn [foldl default fst snd].
  destruct (values !! "outdir") as [v|] eqn:Ho.
  - destruct (values !! "verbose") eqn:Hv; [done|].
    by rewrite lookup_insert_ne.
  - rewrite (lookup_insert_ne values "outdir" "verbose") by done.
    destruct (values !! "verbose") eqn:Hv.
    + by rewrite lookup_insert.
    + rewrite lookup_insert_ne by done. by rewrite lookup_insert.
Qed.

Lemma storeDefaults_verbose values :
  storeDefaults cliOptions values !! "verbose"
  = Some (match values !! "verbose" with
          | Some v => v
          | None => VBoolean false
          end).
Proof.
  unfold storeDefaults, cliOptions. cbn [foldl default fst snd].
  destruct (values !! "outdir") as [v|] eqn:Ho.
  - destruct (values !! "verbose") eqn:Hv; [done|].
    by rewrite lookup_insert.
  - rewrite (lookup_insert_ne values "outdir" "verbose") by done.
    destruct (values !! "verbose") eqn:Hv.
    + by rewrite lookup_insert_ne.
    + by rewrite lookup_insert.
Qed.

Lemma storeDefaults_other values k :
  k ≠ "outdir" → k ≠ "verbose" →
  storeDefaults cliOptions values !! k = values !! k.
Proof.
  intros Ho Hv. unfold storeDefaults, cliOptions. cbn [foldl default fst snd].
  destruct (values !! "outdir").
  - destruct (values !! "verbose"); [done|]. by rewrite lookup_insert_ne.
  - destruct (<["outdir":=_]> values !! "verbose");
      rewrite ?lookup_insert_ne; done.
Qed.

Lemma getOwn_cli name :
  getOwn cliOptions name
  = if decide (name = "outdir")
    then Some {| type := TypeString; short := Some "o";
                 default := Some (VString "./docs-deps") |}
    else if decide (name = "verbose")
    then Some {| type := TypeBoolean; short := Some "v";
                 default := Some (VBoolean false) |}
    else None.
Proof.
  unfold getOwn, cliOptions. cbn [List.find fst].
  destruct (decide (name = "outdir")) as [->|Ho]; [done|].
  rewrite bool_decide_eq_false_2 by done.
  destruct (decide (name = "verbose")) as [->|Hv]; [done|].
  by rewrite bool_decide_eq_false_2 by done.
Qed.

(** What strict mode lets through. *)
Lemma checkOptionUsage_cli name rawName value :
  checkOptionUsage cliOptions name rawName value = None ↔
  (name = "outdir" ∧ is_Some value) ∨ (name = "verbose" ∧ value = None).
Proof.
  unfold checkOptionUsage. rewrite getOwn_cli.
  destruct (decide (name = "outdir")) as [->|Ho].
  { cbn [type]. destruct value; split; try done.
    - intros _. left. split; [done | by eexists].
    - intros [[_ [? ?]]|[? _]]; done. }
  destruct (decide (name = "verbose")) as [->|Hv].
  { cbn [type]. destruct value; split; try done.
    - intros [[? _]|[_ ?]]; done.
    - intros _. by right. }
  split; [done|]. intros [[? _]|[? _]]; done.
Qed.

Lemma storeOption_outdir v values :
  storeOption "outdir" (Some v) values = <["outdir" := VString v]> values.
Proof. reflexivity. Qed.

Lemma storeOption_verbose values :
  storeOption "verbose" None values = <["verbose" := VBoolean true]> values.
Proof. reflexivity. Qed.

(** What the second phase stores: strings for [outdir], [true] for
    [verbose], and nothing else. *)
Lemma storeTokens_typed tokens : ∀ values values',
  storeTokens cliOptions tokens values = inr values' →
  (∀ v, values !! "outdir" = Some v → ∃ s, v = VString s) →
  (∀ v, values !! "verbose" = Some v → v = VBoolean true) →
  (∀ k, is_Some (values !! k) → k = "outdir" ∨ k = "verbose") →
  (∀ v, values' !! "outdir" = Some v → ∃ s, v = VString s)
  ∧ (∀ v, values' !! "verbose" = Some v → v = VBoolean true)
  ∧ (∀ k, is_Some (values' !! k) → k = "outdir" ∨ k = "verbose").
Proof.
  induction tokens as [|[name rawName value inlineValue|value|] tokens IH];
    intros values values'; cbn [storeTokens].
  - intros [= <-]. done.
  - destruct (checkOptionUsage _ _ _ _) eqn:Hu; [done|].
    destruct (checkOptionLikeValue _ _ _); [done|].
    apply checkOptionUsage_cli in Hu as [[-> [v ->]]|[-> ->]].
    + rewrite storeOption_outdir. intros Hst Ho Hv Hk.
      apply (IH _ _ Hst).
      * intros v'. rewrite lookup_insert. intros [= <-]. by eexists.
      * intros v'. rewrite lookup_insert_ne by done. apply Hv.
      * intros k. destruct (decide (k = "outdir")) as [->|?]; [by left|].
        rewrite lookup_insert_ne by done. apply Hk.
    + rewrite storeOption_verbose. intros Hst Ho Hv Hk.
      apply (IH _ _ Hst).
      * intros v'. rewrite lookup_insert_ne by done. apply Ho.
      * intros v'. rewrite lookup_insert. by intros [= <-].
      * intros k. destruct (decide (k = "verbose")) as [->|?]; [by right|].
        rewrite lookup_insert_ne by done. apply Hk.
  - done.
  - apply IH.
Qed.

(** [verbose] given once more. *)
Lemma storeTokens_verbose tokens : ∀ values,
  storeTokens cliOptions tokens (<["verbose" := VBoolean true]> values)
  = sum_map id (insert "verbose" (VBoolean true))
      (storeTokens cliOptions tokens values).
Proof.
  induction tokens as [|[name rawName value inlineValue|value|] tokens IH];
    intros values; cbn [storeTokens]; [done| |done|apply IH].
  destruct (checkOptionUsage _ _ _ _) eqn:Hu; [done|].
  destruct (checkOptionLikeValue _ _ _); [done|].
  apply checkOptionUsage_cli in Hu as [[-> [v ->]]|[-> ->]].
  - rewrite !storeOption_outdir, insert_insert_ne by done. apply IH.
  - rewrite !storeOption_verbose, insert_insert_eq, IH.
    destruct (storeTokens cliOptions tokens values) as [e|values'];
      cbn [sum_map id]; by rewrite ?insert_insert_eq.
Qed.

(** The tokens of [-v] and [--verbose]. *)
Lemma step_flag a remainingArgs :
  a = "-v" ∨ a = "--verbose" →
  step cliOptions a remainingArgs
  = ([OptionToken "verbose" a None false], Some remainingArgs).
Proof. intros [-> | ->]; reflexivity. Qed.

Lemma argsToTokens_flag a args :
  a = "-v" ∨ a = "--verbose" →
  argsToTokens cliOptions (a :: args)
  = OptionToken "verbose" a None false :: argsToTokens cliOptions args.
Proof. intros Ha. by rewrite argsToTokens_cons, step_flag. Qed.

Lemma argsToTokens_flags args :
  Forall (λ a, a = "-v" ∨ a = "--verbose") args →
  argsToTokens cliOptions args
  = (λ a, OptionToken "verbose" a None false) <$> args.
Proof.
  induction 1 as [|a args Ha _ IH]; [done|].
  rewrite argsToTokens_flag by exact Ha. cbn [fmap list_fmap]. by rewrite IH.
Qed.

Lemma storeTokens_flags args : ∀ values,
  Forall (λ a, a = "-v" ∨ a = "--verbose") args →
  storeTokens cliOptions ((λ a, OptionToken "verbose" a None false) <$> args)
    values
  = inr (if bool_decide (args ≠ [])
         then <["verbose" := VBoolean true]> values else values).
Proof.
  induction args as [|a args IH]; intros values Hall; [done|].
  apply Forall_cons in Hall as [_ Hall].
  cbn [fmap list_fmap storeTokens].
  replace (checkOptionUsage cliOptions "verbose" a None) with (@None parse_error)
    by (symmetry; apply checkOptionUsage_cli; by right).
  cbn [checkOptionLikeValue]. rewrite storeOption_verbose, IH by exact Hall.
  rewrite (bool_decide_eq_true_2 (a :: args ≠ [])) by done.
  case_bool_decide; [|done]. by rewrite insert_insert_eq.
Qed.

(** The spellings of the output directory. *)
Lemma step_long_value x remainingArgs :
  step cliOptions ("--outdir=" +:+ x) remainingArgs
  = ([OptionToken "outdir" "--outdir" (Some x) true], Some remainingArgs).
Proof. reflexivity. Qed.

Lemma step_short_value c x remainingArgs :
  step cliOptions ("-o" +:+ String c x) remainingArgs
  = ([OptionToken "outdir" "-o" (Some (String c x)) true],
     Some remainingArgs).
Proof. reflexivity. Qed.

Lemma step_long_lone x remainingArgs :
  step cliOptions "--outdir" (x :: remainingArgs)
  = ([OptionToken "outdir" "--outdir" (Some x) false], Some remainingArgs).
Proof. reflexivity. Qed.

Lemma step_short_lone x remainingArgs :
  step cliOptions "-o" (x :: remainingArgs)
  = ([OptionToken "outdir" "-o" (Some x) false], Some remainingArgs).
Proof. reflexivity. Qed.

(** One option token for the output directory, and nothing after it. *)
Lemma parse_outdir_token args rawName x inlineValue :
  argsToTokens cliOptions args
  = [OptionToken "outdir" rawName (Some x) inlineValue] →
  getCliOptions args
  = if negb inlineValue && isOptionLikeValue x
    then inl (AmbiguousArgument rawName)
    else inr {| outdir := x; verbose := false |}.
Proof.
  intros Htokens. unfold getCliOptions, parseArgs. rewrite Htokens.
  cbn [storeTokens].
  replace (checkOptionUsage cliOptions "outdir" rawName (Some x))
    with (@None parse_error)
    by (symmetry; apply checkOptionUsage_cli; left; split; [done | by eexists]).
  cbn [checkOptionLikeValue].
  destruct (negb inlineValue && isOptionLikeValue x); [done|].
  rewrite storeOption_outdir, storeDefaults_outdir, storeDefaults_verbose.
  by rewrite lookup_insert_eq, lookup_insert_ne, lookup_empty.
Qed.

(** An argument that is no option. *)
Lemma step_positional arg remainingArgs :
  String.prefix "-" arg = false ∨ arg = "-" →
  step cliOptions arg remainingArgs = ([Positional arg], Some remainingArgs).
Proof.
  intros [Hp| ->]; [|reflexivity].
  destruct arg as [|c tl]; [reflexivity|].
  assert (c ≠ "-"%char) as Hc.
  { intros ->. by destruct tl. }
  unfold step.
  rewrite bool_decide_eq_false_2 by (intros [= ? _]; done).
  assert (bool_decide (charAt (String c tl) 0 = "-") = false) as Hat
    by (apply bool_decide_eq_false_2; intros [= ?]; done).
  assert (String.prefix "--" (String c tl) = false) as Hpre.
  { cbn [String.prefix]. destruct (ascii_dec "-" c) as [<-|?]; done. }
  unfold isLoneShortOption, isShortOptionGroup, isShortOptionAndValue,
    isLoneLongOption, isLongOptionAndValue.
  rewrite Hat, Hpre, !andb_false_r. reflexivity.
Qed.

End ArgsFacts.

(** ** Properties of the command line *)

Module CliProperties.
Import Node Args Cli Examples ArgsFacts.

(** X14: when [parseArgs] returns, the values it returns have exactly the
    two properties [outdir] and [verbose], the first a string and the second
    a boolean: what [getCliOptions] returns as [CliOptions] has the types of
    that interface. *)
Theorem getCliOptions_values_typed args values :
  parseArgs cliOptions args = inr values →
  ∃ s b,
    values !! "outdir" = Some (VString s)
    ∧ values !! "verbose" = Some (VBoolean b)
    ∧ (∀ k, is_Some (values !! k) → k = "outdir" ∨ k = "verbose")
    ∧ getCliOptions args = inr {| outdir := s; verbose := b |}.
Proof.
  unfold getCliOptions, parseArgs.
  destruct (storeTokens cliOptions (argsToTokens cliOptions args) ∅)
    as [e|stored] eqn:Hst; [done|].
  intros Heq.
  assert (values = storeDefaults cliOptions stored) as -> by congruence.
  clear Heq.
  destruct (storeTokens_typed _ _ _ Hst) as (Ho & Hv & Hk).
  { intros v. by rewrite lookup_empty. }
  { intros v. by rewrite lookup_empty. }
  { intros k [v Hkv]. by rewrite lookup_empty in Hkv. }
  assert (∃ s, match stored !! "outdir" with
               | Some v => v
               | None => VString "./docs-deps"
               end = VString s) as [s Hs].
  { destruct (stored !! "outdir") as [v|]; [by apply Ho | by eexists]. }
  assert (∃ b, match stored !! "verbose" with
               | Some v => v
               | None => VBoolean false
               end = VBoolean b) as [b Hb].
  { destruct (stored !! "verbose") as [v|]; [|by eexists].
    rewrite (Hv v eq_refl). by eexists. }
  exists s, b. rewrite storeDefaults_outdir, storeDefaults_verbose, Hs, Hb.
  split_and!; [done..| |done].
  intros k Hsome.
  destruct (decide (k = "outdir")) as [?|Hno]; [by left|].
  destruct (decide (k = "verbose")) as [?|Hnv]; [by right|].
  rewrite storeDefaults_other in Hsome by done. by apply Hk.
Qed.

Lemma getCliOptions_values_typed_witness :
  getCliOptions ["-o"; "out"; "-v"]
  = inr {| outdir := "out"; verbose := true |}.
Proof.
  pose (r := parseArgs cliOptions ["-o"; "out"; "-v"]).
  pose (values := match r with inr v => v | inl _ => ∅ end).
  assert (r = inr values) as Hr by (vm_compute; reflexivity).
  destruct (getCliOptions_values_typed _ _ Hr) as (s & b & Ho & Hv & _ & ->).
  assert (values !! "outdir" = Some (VString "out")) as Ho'
    by (vm_compute; reflexivity).
  assert (values !! "verbose" = Some (VBoolean true)) as Hv'
    by (vm_compute; reflexivity).
  rewrite Ho in Ho'. rewrite Hv in Hv'.
  injection Ho' as ->. injection Hv' as ->. reflexivity.
Defined.

(** X15: the defaults.  When the arguments are only [-v] and [--verbose],
    in any number, [getCliOptions] returns the output directory
    [./docs-deps], and [verbose] is set exactly when there is an argument; so
    without arguments it is not set. *)
Theorem getCliOptions_flags_only args :
  Forall (λ a, a = "-v" ∨ a = "--verbose") args →
  getCliOptions args
  = inr {| outdir := "./docs-deps"; verbose := bool_decide (args ≠ []) |}.
Proof.
  intros Hall. unfold getCliOptions, parseArgs.
  rewrite argsToTokens_flags, storeTokens_flags by exact Hall.
  rewrite storeDefaults_outdir, storeDefaults_verbose.
  case_bool_decide.
  - by rewrite lookup_insert_ne, lookup_insert_eq, lookup_empty.
  - by rewrite !lookup_empty.
Qed.

Lemma getCliOptions_flags_only_witness :
  getCliOptions [] = inr defaults
  ∧ getCliOptions ["-v"; "--verbose"] = inr verbosely.
Proof.
  split.
  - apply (getCliOptions_flags_only []). constructor.
  - apply (getCliOptions_flags_only ["-v"; "--verbose"]).
    repeat constructor; by right.
Defined.

(** X18: [-v] or [--verbose] in front of other arguments only sets
    [verbose]: the arguments after it give the same error, or the same output
    directory, as without it. *)
Theorem getCliOptions_verbose_first a args :
  a = "-v" ∨ a = "--verbose" →
  getCliOptions (a :: args)
  = sum_map id (λ o, {| outdir := outdir o; verbose := true |})
      (getCliOptions args).
Proof.
  intros Ha. unfold getCliOptions, parseArgs.
  rewrite argsToTokens_flag by exact Ha. cbn [storeTokens].
  replace (checkOptionUsage cliOptions "verbose" a None) with (@None parse_error)
    by (symmetry; apply checkOptionUsage_cli; by right).
  cbn [checkOptionLikeValue]. rewrite storeOption_verbose, storeTokens_verbose.
  destruct (storeTokens cliOptions (argsToTokens cliOptions args) ∅)
    as [e|stored]; cbn [sum_map id]; [done|].
  rewrite !storeDefaults_outdir, !storeDefaults_verbose.
  by rewrite lookup_insert_ne, lookup_insert_eq by done.
Qed.

Lemma getCliOptions_verbose_first_witness :
  getCliOptions ["--verbose"; "-o"; "out"]
  = inr {| outdir := "out"; verbose := true |}.
Proof.
  rewrite (getCliOptions_verbose_first "--verbose" ["-o"; "out"]) by (by right).
  vm_compute. reflexivity.
Defined.

(** X16: the spellings of the output directory.  [--outdir=x] gives [x],
    whatever [x] is; [-ox] gives [x] when [x] is not empty; [--outdir x] and
    [-o x] give [x] unless [x] has more than one character and begins with a
    dash, in which case [getCliOptions] throws. *)
Theorem getCliOptions_outdir x :
  let given : parse_error + CliOptions :=
    inr {| outdir := x; verbose := false |} in
  getCliOptions ["--outdir=" +:+ x] = given
  ∧ (x ≠ "" → getCliOptions ["-o" +:+ x] = given)
  ∧ getCliOptions ["--outdir"; x]
    = (if isOptionLikeValue x then inl (AmbiguousArgument "--outdir")
       else given)
  ∧ getCliOptions ["-o"; x]
    = (if isOptionLikeValue x then inl (AmbiguousArgument "-o") else given).
Proof.
  intros given. split_and!.
  - apply (parse_outdir_token _ "--outdir" x true).
    by rewrite argsToTokens_cons, step_long_value, argsToTokens_nil.
  - intros Hx. destruct x as [|c x]; [done|].
    apply (parse_outdir_token _ "-o" (String c x) true).
    by rewrite argsToTokens_cons, step_short_value, argsToTokens_nil.
  - apply (parse_outdir_token _ "--outdir" x false).
    by rewrite argsToTokens_cons, step_long_lone, argsToTokens_nil.
  - apply (parse_outdir_token _ "-o" x false).
    by rewrite argsToTokens_cons, step_short_lone, argsToTokens_nil.
Qed.

Lemma getCliOptions_outdir_witness :
  getCliOptions ["-oout"] = inr {| outdir := "out"; verbose := false |}
  ∧ getCliOptions ["--outdir"; "-out"] = inl (AmbiguousArgument "--outdir").
Proof.
  destruct (getCliOptions_outdir "out") as (_ & Hshort & _).
  destruct (getCliOptions_outdir "-out") as (_ & _ & Hlong & _).
  split; [apply Hshort; discriminate | exact Hlong].
Defined.

(** X17: an argument that is not an option (it does not begin with a dash,
    or is a dash alone) in the first place makes [getCliOptions] throw,
    whatever follows it; nothing catches the error, so the process ends with
    exit code 1 before the program has made a call or printed a line. *)
Theorem program_refuses_positional E arg rest s :
  String.prefix "-" arg = false ∨ arg = "-" →
  getCliOptions (arg :: rest) = inl (UnexpectedPositional arg)
  ∧ program E (arg :: rest) s = (1%Z, s).
Proof.
  intros Harg.
  assert (getCliOptions (arg :: rest) = inl (UnexpectedPositional arg)) as Hget.
  { unfold getCliOptions, parseArgs.
    by rewrite argsToTokens_cons, step_positional by exact Harg. }
  split; [exact Hget|]. unfold program. by rewrite Hget.
Qed.

Lemma program_refuses_positional_witness :
  let E := project Linux (Parsed two_packages) in
  getCliOptions ["docs"; "-v"] = inl (UnexpectedPositional "docs")
  ∧ program E ["docs"; "-v"] (start installed) = (1%Z, start installed).
Proof.
  intros E.
  apply (program_refuses_positional E "docs" ["-v"] (start installed)).
  left. reflexivity.
Defined.

End CliProperties.
